(** * FSM_Graph_Viz: extraction of state machines from a SystemVerilog
      syntax tree and regeneration of source from an edited graph.

    A shallow embedding of
      - src/backend/code_generator.py   (module [CodeGenerator]),
      - src/AST_CST/cst_service.py      (module [Cst]),
      - src/FSM_core/FindeENUM.py       (module [FindeENUM]),
      - src/fsm_enum_candidates_cst.py  (module [EnumCandidates]),
      - src/fsm_graph_builder.py        (module [GraphBuilder]),
      - the class [CSTService] of cst_service.py (module [CstService]),
      - the text helpers of src/FSM_core/fsm_graph_viz.py
                                        (module [GraphViz]),
      - the comparison helpers of src/test_fsm_graph_builder.py
                                        (module [GraphBuilderTests]),
      - src/backend/main.py             (module [Backend]),
    followed by the properties of these functions.

    Conventions of the embedding.
      - A Python [str] is a [string] of 8-bit characters: code points
        below 256, with the character classes Python gives them.
      - A Python [int] is a [Z]; [len] of a list is taken in [Z] where the
        code does arithmetic on it.
      - A raised exception is the [Raise] case of [result]; [None] is the
        [None] of [option].
      - A [dict] whose iteration order the code relies on is an association
        list in insertion order ([PyDict]); a [dict] or [set] that is only
        looked up is a [gmap] or a [gset].
      - Python's [id] is a parameter of the run ([Identities]): nothing is
        known of its values, and for the identifiers of the tree nothing
        of whether two walks meet the same objects. *)

From Stdlib Require Import ZArith Lia List Sorted Ascii String.
From Stdlib Require Import DecimalString DecimalZ.
From stdpp Require Import base option gmap strings list.

Set Warnings "-register-all,-clear-no-such-hyp".

Open Scope string_scope.
Open Scope nat_scope.
Open Scope list_scope.
Open Scope stdpp_scope.

(* ================================================================== *)
(** ** Python strings *)
(* ================================================================== *)

Module PyStr.

(** [str.isspace] on one character (also the class [\s] of [re]). *)
Definition is_space (c : ascii) : bool :=
  let n := nat_of_ascii c in
  ((9 <=? n) && (n <=? 13)) || ((28 <=? n) && (n <=? 32))
  || (n =? 133) || (n =? 160).

Definition is_digit (c : ascii) : bool :=
  let n := nat_of_ascii c in (48 <=? n) && (n <=? 57).

(** The class [[A-Za-z_]] of the assignment pattern. *)
Definition is_ident_start (c : ascii) : bool :=
  let n := nat_of_ascii c in
  ((65 <=? n) && (n <=? 90)) || ((97 <=? n) && (n <=? 122)) || (n =? 95).

(** The class [\w] of [re] on a [str] pattern: alphanumeric or [_]. *)
Definition is_word (c : ascii) : bool :=
  let n := nat_of_ascii c in
  is_ident_start c || is_digit c
  || (n =? 170) || (n =? 178) || (n =? 179) || (n =? 181)
  || (n =? 185) || (n =? 186) || ((188 <=? n) && (n <=? 190))
  || ((192 <=? n) && (n <=? 214)) || ((216 <=? n) && (n <=? 246))
  || (248 <=? n).

(** [str.lower] on one character. *)
Definition lower_char (c : ascii) : ascii :=
  let n := nat_of_ascii c in
  if ((65 <=? n) && (n <=? 90))
     || ((192 <=? n) && (n <=? 222) && negb (n =? 215))
  then ascii_of_nat (n + 32) else c.

Fixpoint lower (s : string) : string :=
  match s with
  | "" => ""
  | String c r => String (lower_char c) (lower r)
  end.

(** Truth value of a string: [bool(s)]. *)
Definition truthy (s : string) : bool :=
  match s with "" => false | _ => true end.

(** Truth value of an optional string: [None] and [""] are false. *)
Definition otruthy (o : option string) : bool :=
  match o with Some s => truthy s | None => false end.

(** [s.find(sub)], [-1] when [sub] does not occur. *)
Definition find (s sub : string) : Z :=
  match String.index 0 sub s with
  | Some i => Z.of_nat i
  | None => (-1)%Z
  end.

(** [sub in s]. *)
Definition contains (sub s : string) : bool :=
  match String.index 0 sub s with Some _ => true | None => false end.

Definition startswith (s p : string) : bool := String.prefix p s.

Definition endswith (s p : string) : bool :=
  let n := String.length s in
  let k := String.length p in
  (k <=? n)%nat && String.eqb (String.substring (n - k) k s) p.

(** [re.sub(r"\s+", "", s)]: every whitespace character is removed. *)
Fixpoint remove_ws (s : string) : string :=
  match s with
  | "" => ""
  | String c r => if is_space c then remove_ws r else String c (remove_ws r)
  end.

Fixpoint lstrip (s : string) : string :=
  match s with
  | "" => ""
  | String c r => if is_space c then lstrip r else s
  end.

(** Drops the trailing whitespace: a character is kept when something
    that is kept, or a non-space character, follows it. *)
Fixpoint rstrip (s : string) : string :=
  match s with
  | "" => ""
  | String c r =>
      match rstrip r with
      | "" => if is_space c then "" else String c ""
      | r' => String c r'
      end
  end.

(** [s.strip()]. *)
Definition strip (s : string) : string := rstrip (lstrip s).

(** [s.split()] with no argument: the maximal runs of non-space
    characters; [cur] is the run being read. *)
Fixpoint split_ws_from (cur : string) (s : string) : list string :=
  match s with
  | "" => if truthy cur then [cur] else []
  | String c r =>
      if is_space c
      then (if truthy cur then cur :: split_ws_from "" r
            else split_ws_from "" r)
      else split_ws_from (cur +:+ String c "") r
  end.

Definition split_ws (s : string) : list string := split_ws_from "" s.

(** [str(n)] for an [int]. *)
Definition of_int (n : Z) : string := NilEmpty.string_of_int (Z.to_int n).

(** [sep.join(l)]. *)
Definition join (sep : string) (l : list string) : string :=
  String.concat sep l.

(** [x in l] for a list of strings. *)
Definition mem (x : string) (l : list string) : bool :=
  bool_decide (x ∈ l).

(** The maximal prefix of [s] in the class [p], and what follows it. *)
Fixpoint span (p : ascii -> bool) (s : string) : string * string :=
  match s with
  | "" => ("", "")
  | String c r =>
      if p c then let '(a, b) := span p r in (String c a, b)
      else ("", s)
  end.

(** [s] without its prefix [p], when it has that prefix. *)
Fixpoint drop_prefix (p s : string) : option string :=
  match p with
  | "" => Some s
  | String a p' =>
      match s with
      | "" => None
      | String b s' => if Ascii.eqb a b then drop_prefix p' s' else None
      end
  end.

(** [s.split(sep)] for a separator of one character: the pieces
    between the separators, empty ones kept; [cur] is the piece being
    read. *)
Fixpoint split_char_from (sep : ascii) (cur : string) (s : string)
  : list string :=
  match s with
  | "" => [cur]
  | String c r =>
      if Ascii.eqb c sep then cur :: split_char_from sep "" r
      else split_char_from sep (cur +:+ String c "") r
  end.

Definition split_char (sep : ascii) (s : string) : list string :=
  split_char_from sep "" s.

(** [s.split(sep, 1)[0]]: what stands before the first [sep], all of
    [s] when there is none. *)
Fixpoint before_first (sep : ascii) (s : string) : string :=
  match s with
  | "" => ""
  | String c r => if Ascii.eqb c sep then "" else String c (before_first sep r)
  end.

(** [s.split(sep, 1)[1]]: what follows the first [sep]; [None] stands
    for the [IndexError] when there is none. *)
Fixpoint after_first (sep : ascii) (s : string) : option string :=
  match s with
  | "" => None
  | String c r => if Ascii.eqb c sep then Some r else after_first sep r
  end.

Fixpoint has_char (sep : ascii) (s : string) : bool :=
  match s with
  | "" => false
  | String c r => Ascii.eqb c sep || has_char sep r
  end.

(** [s.rsplit(sep, 1)[0]]: what stands before the last [sep], all of
    [s] when there is none. *)
Fixpoint before_last (sep : ascii) (s : string) : string :=
  match s with
  | "" => ""
  | String c r =>
      if Ascii.eqb c sep && negb (has_char sep r) then ""
      else String c (before_last sep r)
  end.

(** [s.replace(a, b)] for single characters. *)
Fixpoint replace_char (a b : ascii) (s : string) : string :=
  match s with
  | "" => ""
  | String c r =>
      String (if Ascii.eqb c a then b else c) (replace_char a b r)
  end.

(** [s.replace(a, b)] for a single character [a] and any string [b]. *)
Fixpoint replace_char_with (a : ascii) (b : string) (s : string) : string :=
  match s with
  | "" => ""
  | String c r =>
      if Ascii.eqb c a then b +:+ replace_char_with a b r
      else String c (replace_char_with a b r)
  end.

End PyStr.

(* ================================================================== *)
(** ** Exceptions *)
(* ================================================================== *)

Inductive exn : Type :=
| ValueError (msg : string)
| KeyError (key : string).

Inductive result (A : Type) : Type :=
| Return (a : A)
| Raise (e : exn).

Arguments Return {A} a.
Arguments Raise {A} e.

Definition bind {A B : Type} (m : result A) (k : A -> result B) : result B :=
  match m with
  | Return a => k a
  | Raise e => Raise e
  end.

Notation "x <- m ;; k" := (bind m (fun x => k))
  (at level 100, m at next level, right associativity).

(* ================================================================== *)
(** ** The graph record exchanged with callers *)
(* ================================================================== *)

(** One entry of ["transitions"]: [{"from": .., "to": .., "cond": ..}].
    The three keys are present and hold strings, as the extraction writes
    them; what [dict.get] gives for an absent key is not modelled. *)
Record Transition : Type := mkTransition {
  t_from : string;
  t_to : string;
  t_cond : string
}.

#[global] Instance Transition_eq_dec : EqDecision Transition.
Proof. solve_decision. Defined.

(** The dictionary built by [build_fsm_graphs_from_cst] and read by the
    code generator: every key is present, ["next_state_var"] and
    ["reset_state"] may hold [None]; ["metadata"] is the last two fields. *)
Record FSMGraph : Type := mkFSMGraph {
  scope : string;
  state_var : string;
  next_state_var : option string;
  enum_name : string;
  states : list string;
  reset_state : option string;
  transitions : list Transition;
  num_states : nat;
  num_transitions : nat
}.

(* ================================================================== *)
(** ** src/backend/code_generator.py *)
(* ================================================================== *)

Module CodeGenerator.
Import PyStr.

(** [FSMCodeGenerator]: the object holds the original source text. *)
Record FSMCodeGenerator : Type := mkGenerator {
  original_code_text : string
}.

(** [_validate_graph], the loop over the transitions. *)
Fixpoint validate_transitions (states : list string)
         (transitions : list Transition) : result unit :=
  match transitions with
  | [] => Return tt
  | trans :: rest =>
      if negb (mem (t_from trans) states)
      then Raise (ValueError
                    ("Transition from unknown state: " +:+ t_from trans))
      else if negb (mem (t_to trans) states)
      then Raise (ValueError
                    ("Transition to unknown state: " +:+ t_to trans))
      else validate_transitions states rest
  end.

Definition _validate_graph (graph : FSMGraph) : result unit :=
  let states := states graph in
  let transitions := transitions graph in
  if negb (length states =? size (list_to_set states : gset string))
  then Raise (ValueError "Duplicate states found")
  else
    _ <- validate_transitions states transitions ;;
    match reset_state graph with
    | Some reset_state =>
        if truthy reset_state && negb (mem reset_state states)
        then Raise (ValueError
                      ("Reset state " +:+ reset_state
                       +:+ " not in states list"))
        else Return tt
    | None => Return tt
    end.

Definition _detect_fsm_style (graph : FSMGraph) : string :=
  if otruthy (next_state_var graph) then "two_register"
  else "single_register".

(** [math.ceil(math.log2(n))]. [math.log2] works on doubles and its
    result rounds up to the exact ceiling for every [n] up to [2 ^ 48],
    beyond any length a list can have: the exact value is taken. *)
Definition ceil_log2 (n : Z) : Z := Z.log2_up n.

Definition _calculate_enum_width (num_states : Z) : Z :=
  if (num_states <=? 2)%Z then 1%Z
  else if (num_states <=? 4)%Z then 2%Z
  else if (num_states <=? 8)%Z then 3%Z
  else if (num_states <=? 16)%Z then 4%Z
  else ceil_log2 num_states.

Definition _generate_enum (graph : FSMGraph) : string :=
  let enum_name := enum_name graph in
  let states := states graph in
  match states with
  | [] => "typedef enum logic [1:0] {} " +:+ enum_name +:+ ";"
  | _ =>
      let width := _calculate_enum_width (Z.of_nat (length states)) in
      let lines := ["  typedef enum logic [" +:+ of_int (width - 1)
                    +:+ ":0] {"] in
      let state_lines := map (fun state => "    " +:+ state) states in
      let lines := lines ++ [join ("," +:+ String "010" "") state_lines] in
      let lines := lines ++ ["  } " +:+ enum_name +:+ ";"] in
      join (String "010" "") lines
  end.

Definition _generate_variable_declarations (graph : FSMGraph) : string :=
  let enum_name := enum_name graph in
  let state_var := state_var graph in
  let lines := ["  " +:+ enum_name +:+ " " +:+ state_var +:+ ";"] in
  let lines :=
    match next_state_var graph with
    | Some next_state_var =>
        if truthy next_state_var
        then lines ++ ["  " +:+ enum_name +:+ " " +:+ next_state_var +:+ ";"]
        else lines
    | None => lines
    end in
  join (String "010" "") lines.

(** [always_ff\s*@\s*\(posedge\s+(\w+)] matched at the head of [s]:
    group 1. No step of this pattern can be retried another way, the
    classes that follow each other being disjoint. *)
Definition clock_match_at (s : string) : option string :=
  r1 ← drop_prefix "always_ff" s;
  r2 ← drop_prefix "@" (snd (span is_space r1));
  r3 ← drop_prefix "(posedge" (snd (span is_space r2));
  let '(ws, r4) := span is_space r3 in
  let '(w, _) := span is_word r4 in
  if truthy ws && truthy w then Some w else None.

(** [(?:posedge|negedge)\s+(\w+)] at the head of [s]: group 1. *)
Definition edge_match_at (s : string) : option string :=
  r ← match drop_prefix "posedge" s with
       | Some r => Some r
       | None => drop_prefix "negedge" s
       end;
  let '(ws, r') := span is_space r in
  let '(w, _) := span is_word r' in
  if truthy ws && truthy w then Some w else None.

(** The greedy [[^)]*] gives way from the right: the last place of the
    run where the edge pattern matches. *)
Fixpoint last_edge_match (run : string) : option string :=
  match run with
  | "" => None
  | String _ r =>
      match last_edge_match r with
      | Some w => Some w
      | None => edge_match_at run
      end
  end.

(** [always_ff\s*@\s*\([^)]*(?:posedge|negedge)\s+(\w+)] at the head
    of [s]. *)
Definition reset_match_at (s : string) : option string :=
  r1 ← drop_prefix "always_ff" s;
  r2 ← drop_prefix "@" (snd (span is_space r1));
  r3 ← drop_prefix "(" (snd (span is_space r2));
  last_edge_match (fst (span (fun c => negb (Ascii.eqb c ")")) r3)).

(** [re.search]: the match at the leftmost place that has one. *)
Fixpoint re_search (match_at : string -> option string) (s : string)
  : option string :=
  match match_at s with
  | Some g => Some g
  | None =>
      match s with
      | "" => None
      | String _ r => re_search match_at r
      end
  end.

Definition _extract_clock_signal (self : FSMCodeGenerator) : string :=
  if truthy (original_code_text self)
  then default "clk" (re_search clock_match_at (original_code_text self))
  else "clk".

Definition _extract_reset_signal (self : FSMCodeGenerator) : string :=
  if truthy (original_code_text self)
  then default "rst" (re_search reset_match_at (original_code_text self))
  else "rst".

Definition _extract_reset_polarity (self : FSMCodeGenerator) : string :=
  if truthy (original_code_text self)
     && contains "negedge" (original_code_text self)
     && contains "rst" (lower (original_code_text self))
  then "negedge" else "posedge".

Definition _generate_always_ff (self : FSMCodeGenerator)
           (graph : FSMGraph) (style : string) : string :=
  let state_var := state_var graph in
  let next_state_var := next_state_var graph in
  let reset_state := reset_state graph in
  let clock_signal := _extract_clock_signal self in
  let reset_signal := _extract_reset_signal self in
  let reset_polarity := _extract_reset_polarity self in
  let lines := ["  always_ff @(posedge " +:+ clock_signal +:+ " or "
                +:+ reset_polarity +:+ " " +:+ reset_signal +:+ ") begin"] in
  let lines :=
    if otruthy reset_state then
      let reset_condition :=
        if String.eqb reset_polarity "negedge" then "!" else "" in
      lines ++ ["    if (" +:+ reset_condition +:+ reset_signal +:+ ")";
                "      " +:+ state_var +:+ " <= "
                  +:+ default "" reset_state +:+ ";";
                "    else"]
    else lines in
  let lines :=
    if otruthy next_state_var
    then lines ++ ["      " +:+ state_var +:+ " <= "
                     +:+ default "" next_state_var +:+ ";"]
    else lines ++ ["      " +:+ state_var +:+ " <= " +:+ state_var +:+ ";"] in
  let lines := lines ++ ["  end"] in
  join (String "010" "") lines.

(** The dictionary [transitions_by_state] of [_generate_always_comb]:
    every transition is appended to the list of its [from] state. *)
Definition group_transitions (transitions : list Transition)
  : gmap string (list Transition) :=
  foldl (fun by_state trans =>
           <[ t_from trans :=
                default [] (by_state !! t_from trans) ++ [trans] ]> by_state)
        ∅ transitions.

(** The variable the next-state block assigns: [next_state_var] when it
    is set, [state_var] otherwise (the [if next_state_var:] found at
    every assignment of [_generate_always_comb]). *)
Definition comb_target (graph : FSMGraph) : string :=
  match next_state_var graph with
  | Some next_state_var =>
      if truthy next_state_var then next_state_var else state_var graph
  | None => state_var graph
  end.

(** The test [cond == "1" or not cond or cond == ""]. *)
Definition unconditional (cond : string) : bool :=
  String.eqb cond "1" || negb (truthy cond) || String.eqb cond "".

(** [for i, trans in enumerate(state_transitions)], from index [i]. *)
Fixpoint emit_transitions (target : string) (i : nat)
         (state_transitions : list Transition) : list string :=
  match state_transitions with
  | [] => []
  | trans :: rest =>
      let to_state := t_to trans in
      let cond := t_cond trans in
      (if unconditional cond
       then ["        " +:+ target +:+ " = " +:+ to_state +:+ ";"]
       else [(if i =? 0 then "        if (" +:+ cond +:+ ")"
              else "        else if (" +:+ cond +:+ ")");
             "          " +:+ target +:+ " = " +:+ to_state +:+ ";"])
      ++ emit_transitions target (S i) rest
  end.

(** The lines of one [case] item of the next-state block. *)
Definition emit_state (target : string)
           (transitions_by_state : gmap string (list Transition))
           (from_state : string) : list string :=
  let state_transitions := default [] (transitions_by_state !! from_state) in
  ["      " +:+ from_state +:+ ": begin"]
  ++ (match state_transitions with
      | [] => ["        " +:+ target +:+ " = " +:+ from_state +:+ ";"]
      | _ => emit_transitions target 0 state_transitions
      end)
  ++ ["      end"].

(** The lines of [_generate_always_comb] before they are joined. *)
Definition always_comb_lines (graph : FSMGraph) : list string :=
  let state_var := state_var graph in
  let transitions_by_state := group_transitions (transitions graph) in
  let target := comb_target graph in
  ["  always_comb begin"]
  ++ (if otruthy (next_state_var graph)
      then ["    " +:+ target +:+ " = " +:+ state_var +:+ ";"] else [])
  ++ ["    unique case (" +:+ state_var +:+ ")"]
  ++ concat (map (emit_state target transitions_by_state) (states graph))
  ++ ["      default: begin";
      "        " +:+ target +:+ " = " +:+ state_var +:+ ";";
      "      end";
      "    endcase";
      "  end"].

Definition _generate_always_comb (self : FSMCodeGenerator)
           (graph : FSMGraph) (style : string) : string :=
  join (String "010" "") (always_comb_lines graph).

Definition _assemble_code (module_name enum_code var_declarations
                           always_ff_code always_comb_code : string)
  : string :=
  join (String "010" "")
    ["module " +:+ module_name +:+ " (";
     "  input  logic clk,";
     "  input  logic rst,";
     "  // TODO: add other ports as needed";
     ");";
     "";
     enum_code;
     "";
     var_declarations;
     "";
     always_ff_code;
     "";
     always_comb_code;
     "";
     "endmodule : " +:+ module_name].

Definition generate_code_from_graph (self : FSMCodeGenerator)
           (edited_graph : FSMGraph) (module_name : option string)
  : result string :=
  _ <- _validate_graph edited_graph ;;
  let module_name :=
    if otruthy module_name then default "" module_name
    else
      let parts := split_ws (scope edited_graph) in
      if 1 <? length parts then List.last parts "" else "fsm_example" in
  let fsm_style := _detect_fsm_style edited_graph in
  let enum_code := _generate_enum edited_graph in
  let var_declarations := _generate_variable_declarations edited_graph in
  let always_ff_code := _generate_always_ff self edited_graph fsm_style in
  let always_comb_code := _generate_always_comb self edited_graph fsm_style in
  let full_code :=
    _assemble_code module_name enum_code var_declarations
                   always_ff_code always_comb_code in
  Return full_code.

End CodeGenerator.

(* ================================================================== *)
(** ** Python containers *)
(* ================================================================== *)

(** A [dict] read in insertion order: assigning to a key that is present
    replaces the value where it stands, a new key goes last. *)
Module PyDict.
Section Dict.
Context {K V : Type} `{EqDecision K}.

Fixpoint set (k : K) (v : V) (d : list (K * V)) : list (K * V) :=
  match d with
  | [] => [(k, v)]
  | (k', v') :: r =>
      if decide (k = k') then (k, v) :: r else (k', v') :: set k v r
  end.

Fixpoint get (k : K) (d : list (K * V)) : option V :=
  match d with
  | [] => None
  | (k', v') :: r => if decide (k = k') then Some v' else get k r
  end.
End Dict.
End PyDict.

(** The idiom [seen = set(); for x in l: if key(x) not in seen: ...]:
    the first element of every key, in the order of the list. *)
Fixpoint dedup_from {A K : Type} `{EqDecision K} (key : A -> K)
         (seen : list K) (l : list A) : list A :=
  match l with
  | [] => []
  | x :: r =>
      if bool_decide (key x ∈ seen) then dedup_from key seen r
      else x :: dedup_from key (key x :: seen) r
  end.

Definition dedup_by {A K : Type} `{EqDecision K} (key : A -> K) (l : list A)
  : list A := dedup_from key [] l.

(* ================================================================== *)
(** ** src/AST_CST/cst_service.py *)
(* ================================================================== *)

Module Cst.
Import PyStr.

(** What [get_position] reads off a node. *)
Record Position : Type := mkPosition {
  line : option Z;
  column : option Z;
  pos_start : option Z;
  pos_end : option Z
}.

(** A node of the syntax tree as the service sees it: the name of its
    kind, the text [text_of] finds on it (if any), its position
    attributes and its children in order. *)
Inductive Node : Type :=
| mkNode (node_kind : string) (node_text : option string)
         (node_position : Position) (node_children : list Node).

Definition kind (n : Node) : string :=
  match n with mkNode k _ _ _ => k end.

Definition children (n : Node) : list Node :=
  match n with mkNode _ _ _ cs => cs end.

Definition text_of (n : Node) : option string :=
  match n with mkNode _ t _ _ => t end.

Definition get_position (n : Node) : Position :=
  match n with mkNode _ _ pos _ => pos end.

(** The place of a node in the tree: the child indices from the root. *)
Definition path : Type := list nat.

Fixpoint find_first (n : Node) (kind_name : string) : option Node :=
  match n with
  | mkNode k _ _ cs =>
      if String.eqb k kind_name then Some n
      else
        (fix first_of (l : list Node) : option Node :=
           match l with
           | [] => None
           | ch :: r =>
               match find_first ch kind_name with
               | Some x => Some x
               | None => first_of r
               end
           end) cs
  end.

Fixpoint find_all (n : Node) (kind_name : string) : list Node :=
  match n with
  | mkNode k _ _ cs =>
      (if String.eqb k kind_name then [n] else [])
      ++ (fix all_of (l : list Node) : list Node :=
            match l with
            | [] => []
            | ch :: r => find_all ch kind_name ++ all_of r
            end) cs
  end.

(** [find_all] on the node at place [p], every found node with its own
    place (what [id] is applied to). *)
Fixpoint find_all_at (p : path) (n : Node) (kind_name : string)
  : list (path * Node) :=
  match n with
  | mkNode k _ _ cs =>
      (if String.eqb k kind_name then [(p, n)] else [])
      ++ (fix all_of (i : nat) (l : list Node) : list (path * Node) :=
            match l with
            | [] => []
            | ch :: r =>
                find_all_at (p ++ [i]) ch kind_name ++ all_of (S i) r
            end) 0 cs
  end.

Definition first_identifier_text (n : Node) : option string :=
  match find_first n "Identifier" with
  | Some node => text_of node
  | None => None
  end.

(** The [walk] of [collect_identifiers_inline]: the texts of the
    leaves that have one. *)
Fixpoint walk (x : Node) : list string :=
  match x with
  | mkNode _ t _ cs =>
      match cs with
      | [] => if otruthy t then [default "" t] else []
      | _ =>
          (fix walk_all (l : list Node) : list string :=
             match l with
             | [] => []
             | c :: r => walk c ++ walk_all r
             end) cs
      end
  end.

Definition collect_identifiers_inline (n : Node) : string :=
  strip (join "" (walk n)).

End Cst.

(* ================================================================== *)
(** ** src/FSM_core/FindeENUM.py *)
(* ================================================================== *)

Module FindeENUM.
Import PyStr Cst.

(** One element of the result of [detect_enum_variables_from_cst]. *)
Record EnumVar : Type := mkEnumVar {
  var_name : string;
  ev_enum_name : string;
  enum_members : list string;
  ev_scope : string;
  position : Position
}.

(** A value of [enum_info_by_id]. *)
Record EnumInfo : Type := mkEnumInfo {
  enum_node : Node;
  info_enum_name : string;
  info_enum_members : list string
}.

(** What [detect_enum_for_declaration] returns. *)
Record DeclEnum : Type := mkDeclEnum {
  enum_id : option Z;
  decl_enum_name : string;
  decl_enum_members : list string
}.

Definition find_enum_members (enum_node : Node) : list string :=
  let enumerator_nodes := find_all enum_node "Enumerator" in
  match enumerator_nodes with
  | _ :: _ =>
      flat_map
        (fun en =>
           let nm := if otruthy (first_identifier_text en)
                     then first_identifier_text en else text_of en in
           if otruthy nm then [default "" nm] else [])
        enumerator_nodes
  | [] =>
      let brace_text :=
        if otruthy (text_of enum_node) then default "" (text_of enum_node)
        else collect_identifiers_inline enum_node in
      if contains "{" brace_text && contains "}" brace_text
      then
        let inner := before_last "}" (default "" (after_first "{" brace_text)) in
        let parts := map strip (split_char "," (replace_char "010" " " inner)) in
        flat_map
          (fun p =>
             if negb (truthy p) then []
             else
               let name_part := strip (before_first "=" p) in
               if truthy name_part then [name_part] else [])
          parts
      else []
  end.

(** The stack-carrying [dfs_collect] of [build_enum_index]: every
    [EnumType] node with its parent, each with its place in the tree. *)
Fixpoint dfs_collect (parent : option (path * Node)) (p : path) (n : Node)
  : list ((path * Node) * option (path * Node)) :=
  match n with
  | mkNode k _ _ cs =>
      (if String.eqb k "EnumType" then [((p, n), parent)] else [])
      ++ (fix collect_all (i : nat) (l : list Node) :=
            match l with
            | [] => []
            | ch :: r =>
                dfs_collect (Some (p, n)) (p ++ [i]) ch
                ++ collect_all (S i) r
            end) 0 cs
  end.

Definition keyword_like : list string :=
  ["enum"; "logic"; "reg"; "wire"; "bit"; "byte"; "shortint"; "int";
   "longint"; "signed"; "unsigned"; "integer"; "time"; "real"; "realtime"].

(** [id(x)]: the identities Python gives the objects of a run; they are
    different from run to run. The code looks an [EnumType] node up
    again under the identity it had in the first walk
    ([enum_info_by_id.get(id(en))], and the index keeps the object):
    [node_id] is the identity of the object at a place, whatever walk
    yields it. For an [Identifier] the source does not show whether two
    walks yield the same object (a syntax library may keep one object
    for a place or make a new one at every access, as for tokens handed
    out by value): [token_id w p] is the identity of the object that
    the walk [find_all(w, "Identifier")], started at the node at place
    [w], yields for the place [p]. *)
Record Identities : Type := mkIdentities {
  node_id :> path -> Z;
  token_id : path -> path -> Z
}.

Section WithIdentity.
Variable py_id : Identities.

(** The identifiers of the parent statement that can name the type:
    not inside the enum itself, with a text, not a keyword and not a
    member. *)
Definition outer_names (parent en : path * Node) (members : list string)
  : list string :=
  let parent_ids := find_all_at (fst parent) (snd parent) "Identifier" in
  let enum_ids := map (fun x => token_id py_id (fst en) (fst x))
                      (find_all_at (fst en) (snd en) "Identifier") in
  flat_map
    (fun id_node =>
       if bool_decide (token_id py_id (fst parent) (fst id_node) ∈ enum_ids)
       then []
       else
         let nm := text_of (snd id_node) in
         if negb (otruthy nm) then []
         else if mem (default "" nm) keyword_like
                 || mem (default "" nm) members then []
         else [default "" nm])
    parent_ids.

(** One turn of the loop over [enum_nodes_with_parents]. *)
Definition index_enum
           (st : list (Z * EnumInfo) * list (string * Z))
           (item : (path * Node) * option (path * Node))
  : list (Z * EnumInfo) * list (string * Z) :=
  let '(enum_info_by_id, typedef_to_enum) := st in
  let en := fst item in
  let members := find_enum_members (snd en) in
  let enum_id := py_id (fst en) in
  let '(enum_name, typedef_to_enum) :=
    match snd item with
    | Some parent =>
        let parent_text := collect_identifiers_inline (snd parent) in
        let '(enum_name, typedef_to_enum) :=
          if contains "typedef" parent_text && contains "enum" parent_text
          then
            let typedef_name :=
              hd "" (outer_names parent en members) in
            if truthy typedef_name
            then (typedef_name,
                  PyDict.set typedef_name enum_id typedef_to_enum)
            else ("", typedef_to_enum)
          else ("", typedef_to_enum) in
        let typedef_to_enum :=
          if contains "enum" parent_text
             && negb (contains "typedef" parent_text)
          then
            foldl (fun d alias => PyDict.set alias enum_id d)
                  typedef_to_enum (outer_names parent en members)
          else typedef_to_enum in
        (enum_name, typedef_to_enum)
    | None => ("", typedef_to_enum)
    end in
  (PyDict.set enum_id (mkEnumInfo (snd en) enum_name members)
              enum_info_by_id,
   typedef_to_enum).

(** The loop that names the anonymous enums, with its counter. *)
Fixpoint name_anonymous (anon_counter : Z) (items : list (Z * EnumInfo))
  : list (Z * EnumInfo) :=
  match items with
  | [] => []
  | (enum_id, info) :: r =>
      if negb (truthy (info_enum_name info)) then
        let anon_counter := (anon_counter + 1)%Z in
        let suffix :=
          match info_enum_members info with
          | m :: _ => m
          | [] => of_int anon_counter
          end in
        (enum_id,
         mkEnumInfo (enum_node info)
                    ("anonymous_enum_" +:+ suffix +:+ "_"
                     +:+ of_int anon_counter)
                    (info_enum_members info))
        :: name_anonymous anon_counter r
      else (enum_id, info) :: name_anonymous anon_counter r
  end.

(** [build_enum_index] up to the naming of the anonymous enums: the
    two dictionaries after the loop over the collected nodes. *)
Definition index_enums (root_node : Node)
  : list (Z * EnumInfo) * list (string * Z) :=
  let enum_nodes_with_parents := dfs_collect None [] root_node in
  foldl index_enum ([], []) enum_nodes_with_parents.

Definition build_enum_index (root_node : Node)
  : list (Z * EnumInfo) * list (string * Z) :=
  let '(enum_info_by_id, typedef_to_enum) := index_enums root_node in
  (name_anonymous 0 enum_info_by_id, typedef_to_enum).

(** The search through [typedef_to_enum.items()] of
    [detect_enum_for_declaration]. *)
Fixpoint first_alias_in (full_text : string)
         (enum_info_by_id : list (Z * EnumInfo))
         (items : list (string * Z)) : result DeclEnum :=
  match items with
  | [] => Return (mkDeclEnum None "" [])
  | (td_name, enum_id) :: r =>
      if truthy td_name && contains td_name full_text then
        match PyDict.get enum_id enum_info_by_id with
        | Some info =>
            Return (mkDeclEnum (Some enum_id) (info_enum_name info)
                               (info_enum_members info))
        | None => Raise (KeyError (of_int enum_id))
        end
      else first_alias_in full_text enum_info_by_id r
  end.

Definition detect_enum_for_declaration (decl_node : path * Node)
           (enum_info_by_id : list (Z * EnumInfo))
           (typedef_to_enum : list (string * Z)) : result DeclEnum :=
  let full_text := collect_identifiers_inline (snd decl_node) in
  if contains "enum" full_text then
    match find_all_at (fst decl_node) (snd decl_node) "EnumType" with
    | en :: _ =>
        let enum_id := py_id (fst en) in
        match PyDict.get enum_id enum_info_by_id with
        | Some info =>
            Return (mkDeclEnum (Some enum_id) (info_enum_name info)
                               (info_enum_members info))
        | None =>
            Return (mkDeclEnum (Some enum_id) ""
                               (find_enum_members (snd en)))
        end
    | [] => Return (mkDeclEnum None "" [])
    end
  else first_alias_in full_text enum_info_by_id typedef_to_enum.

Definition extract_var_names_from_declaration (decl_node : Node)
           (enum_name : string) (enum_members : list string)
  : list string :=
  let id_nodes := find_all decl_node "Identifier" in
  let all_ids :=
    flat_map (fun idn => if otruthy (text_of idn)
                         then [default "" (text_of idn)] else [])
             id_nodes in
  let to_skip :=
    enum_members ++ ("typedef" :: keyword_like)
    ++ (if truthy enum_name then [enum_name] else []) in
  let var_names := List.filter (fun name => negb (mem name to_skip)) all_ids in
  dedup_by (fun v => v) var_names.

Definition scope_prefix (k : string) : option string :=
  if String.eqb k "ModuleDeclaration" then Some "module"
  else if String.eqb k "InterfaceDeclaration" then Some "interface"
  else if String.eqb k "PackageDeclaration" then Some "package"
  else if String.eqb k "ClassDeclaration" then Some "class"
  else if String.eqb k "ProgramDeclaration" then Some "program"
  else if String.eqb k "CheckerDeclaration" then Some "checker"
  else if String.eqb k "ConfigDeclaration" then Some "config"
  else None.

(** The label pushed on entering a scope node. *)
Definition scope_label (prefix : string) (node : Node) : string :=
  let nm := if otruthy (first_identifier_text node)
            then default "" (first_identifier_text node) else "" in
  strip (prefix +:+ " " +:+ nm).

(** What a [*Declaration] node adds to [results]. *)
Definition declared_vars (enum_info_by_id : list (Z * EnumInfo))
           (typedef_to_enum : list (string * Z))
           (scope_stack : list string) (p : path) (node : Node)
  : result (list EnumVar) :=
  enum_info <- detect_enum_for_declaration (p, node) enum_info_by_id
                                           typedef_to_enum ;;
  match enum_id enum_info with
  | Some _ =>
      let enum_name := decl_enum_name enum_info in
      let enum_members := decl_enum_members enum_info in
      let var_names :=
        extract_var_names_from_declaration node enum_name enum_members in
      let scope_str := List.last scope_stack "" in
      let pos := get_position node in
      Return (map (fun vn => mkEnumVar vn enum_name enum_members
                                       scope_str pos) var_names)
  | None => Return []
  end.

(** The main [dfs] of [detect_enum_variables_from_cst]: the elements
    appended to [results] below the node at place [p]. *)
Fixpoint dfs (enum_info_by_id : list (Z * EnumInfo))
         (typedef_to_enum : list (string * Z))
         (scope_stack : list string) (p : path) (node : Node)
  : result (list EnumVar) :=
  match node with
  | mkNode k _ _ cs =>
      let dfs_children (stack : list string) :=
        (fix dfs_all (i : nat) (l : list Node) : result (list EnumVar) :=
           match l with
           | [] => Return []
           | ch :: r =>
               here <- dfs enum_info_by_id typedef_to_enum stack
                           (p ++ [i]) ch ;;
               rest <- dfs_all (S i) r ;;
               Return (here ++ rest)
           end) 0 cs in
      match scope_prefix k with
      | Some prefix =>
          dfs_children (scope_stack ++ [scope_label prefix node])
      | None =>
          here <- (if endswith k "Declaration"
                   then declared_vars enum_info_by_id typedef_to_enum
                                      scope_stack p node
                   else Return []) ;;
          rest <- dfs_children scope_stack ;;
          Return (here ++ rest)
      end
  end.

Definition detect_enum_variables_from_cst (tree : Node)
  : result (list EnumVar) :=
  let root := tree in
  let '(enum_info_by_id, typedef_to_enum) := build_enum_index root in
  match enum_info_by_id with
  | [] => Return []
  | _ =>
      results <- dfs enum_info_by_id typedef_to_enum [] [] root ;;
      Return (dedup_by
                (fun r => (var_name r, ev_enum_name r, ev_scope r,
                           line (position r), column (position r)))
                results)
  end.

End WithIdentity.
End FindeENUM.

(** The depth-first collection the source writes out several times
    ([dfs_case], [_collect_always_nodes], [_find_case_nodes_on_state],
    [_collect_scope_nodes]): every node that passes the test, in preorder,
    the children of a collected node being visited too. *)
Fixpoint collect_nodes (test : Cst.Node -> bool) (n : Cst.Node)
  : list Cst.Node :=
  match n with
  | Cst.mkNode _ _ _ cs =>
      (if test n then [n] else [])
      ++ (fix collect_all (l : list Cst.Node) : list Cst.Node :=
            match l with
            | [] => []
            | ch :: r => collect_nodes test ch ++ collect_all r
            end) cs
  end.

(* ================================================================== *)
(** ** src/fsm_enum_candidates_cst.py *)
(* ================================================================== *)

Module EnumCandidates.
Import PyStr Cst FindeENUM.

Record FsmReason : Type := mkFsmReason {
  name_based : bool;
  used_in_case : bool;
  assigned_in_clocked_always : bool
}.

(** An element of [detect_enum_variables_from_cst] with the added
    ["fsm_reason"]. *)
Record Candidate : Type := mkCandidate {
  cand_var : EnumVar;
  fsm_reason : FsmReason
}.

Definition var_name_contains_state (var_name : string) : bool :=
  contains "state" (lower var_name).

Definition enum_name_contains_state (enum_name : string) : bool :=
  contains "state" (lower enum_name).

Definition is_used_in_case (root_node : Node) (var_name : string) : bool :=
  if negb (truthy var_name) then false
  else
    let case_nodes :=
      collect_nodes (fun n => startswith (kind n) "Case") root_node in
    existsb (fun node => contains var_name (collect_identifiers_inline node))
            case_nodes.

Definition is_assigned_in_clocked_always (root_node : Node)
           (var_name : string) : bool :=
  if negb (truthy var_name) then false
  else
    let always_nodes :=
      find_all root_node "AlwaysConstruct"
      ++ find_all root_node "AlwaysStatement" in
    existsb (fun node =>
               let txt := collect_identifiers_inline node in
               contains var_name txt
               && (contains "posedge" txt || contains "negedge" txt))
            always_nodes.

Definition detect_fsm_enum_candidates_from_cst (py_id : Identities)
           (tree : Node) : result (list Candidate) :=
  let root := tree in
  enum_vars <- detect_enum_variables_from_cst py_id tree ;;
  Return
    (flat_map
       (fun item =>
          let var_name := var_name item in
          let enum_name := ev_enum_name item in
          let name_based :=
            var_name_contains_state var_name
            || enum_name_contains_state enum_name in
          let used_in_case := is_used_in_case root var_name in
          let assigned_in_clocked_always :=
            is_assigned_in_clocked_always root var_name in
          if name_based || used_in_case || assigned_in_clocked_always
          then [mkCandidate item
                  (mkFsmReason name_based used_in_case
                               assigned_in_clocked_always)]
          else [])
       enum_vars).

End EnumCandidates.

(* ================================================================== *)
(** ** src/fsm_graph_builder.py *)
(* ================================================================== *)

Module GraphBuilder.
Import PyStr Cst FindeENUM EnumCandidates.

Definition cand_name (v : Candidate) : string := var_name (cand_var v).

Definition is_scope_kind (n : Node) : bool :=
  match scope_prefix (kind n) with Some _ => true | None => false end.

Definition scope_name_of (n : Node) : string :=
  scope_label (default "" (scope_prefix (kind n))) n.

Definition _collect_scope_nodes (root : Node) : gmap string Node :=
  foldl (fun scope_nodes node => <[ scope_name_of node := node ]> scope_nodes)
        ∅ (collect_nodes is_scope_kind root).

Definition _collect_always_nodes (scope_node : Node) : list Node :=
  collect_nodes (fun n => contains "Always" (kind n)) scope_node.

Definition _safe_text (node : Node) : string :=
  default "" (text_of node) +:+ collect_identifiers_inline node.

Definition _is_clocked_always (node : Node) : bool :=
  let txt := _safe_text node in
  contains "posedge" txt || contains "negedge" txt.

Definition _is_comb_always (node : Node) : bool :=
  let txt := _safe_text node in
  contains "always_comb" txt || contains "@*" txt.

Definition _var_written_in_always (node : Node) (var_name : string) : bool :=
  if negb (truthy var_name) then false
  else
    let txt := collect_identifiers_inline node in
    let compact := remove_ws txt in
    let pat1 := var_name +:+ "<=" in
    let pat2 := var_name +:+ "=" in
    contains pat1 compact || contains pat2 compact.

(** The inner loop of [_choose_state_and_next] over the always blocks:
    the two flags of one name. *)
Definition written_flags (always_nodes : list Node) (name : string)
  : bool * bool :=
  foldl (fun flags a =>
           if _var_written_in_always a name then
             if _is_clocked_always a then (true, snd flags)
             else if _is_comb_always a then (fst flags, true)
             else flags
           else flags)
        (false, false) always_nodes.

(** The dictionaries [written_clock] and [written_comb]. *)
Definition written_maps (always_nodes : list Node)
           (vars_in_group : list Candidate)
  : gmap string bool * gmap string bool :=
  foldl (fun maps v =>
           let name := cand_name v in
           let flags := written_flags always_nodes name in
           (<[ name := fst flags ]> (fst maps),
            <[ name := snd flags ]> (snd maps)))
        (∅, ∅) vars_in_group.

Definition score_state_name (name : string) : Z :=
  let n := lower name in
  let score := 0%Z in
  let score := if String.eqb n "state" then (score + 3)%Z else score in
  let score := if contains "state" n then (score + 2)%Z else score in
  let score :=
    if contains "next" n || contains "nxt" n
       || endswith n "_d" || endswith n "_ns"
    then (score - 2)%Z else score in
  score.

Definition score_next_name (state_var : option string) (name : string) : Z :=
  let n := lower name in
  let score := 0%Z in
  let score :=
    if contains "next" n || contains "nxt" n then (score + 3)%Z else score in
  let score :=
    if endswith n "_d" || endswith n "_ns" then (score + 2)%Z else score in
  let score := if contains "state" n then (score + 1)%Z else score in
  let score :=
    if otruthy state_var && bool_decide (Some name = state_var)
    then (score - 3)%Z else score in
  score.

(** The loops [for v in ...: if sc > best_score: ...], from the given
    best so far. *)
Definition pick_best (score : string -> Z) (candidates : list Candidate)
           (start : option string * Z) : option string * Z :=
  foldl (fun best v =>
           let name := cand_name v in
           let sc := score name in
           if (snd best <? sc)%Z then (Some name, sc) else best)
        start candidates.

Definition _choose_state_and_next (scope_node : Node)
           (vars_in_group : list Candidate) : option string * option string :=
  let always_nodes := _collect_always_nodes scope_node in
  let '(written_clock, written_comb) :=
    written_maps always_nodes vars_in_group in
  let state_candidates :=
    List.filter (fun v => default false (written_clock !! cand_name v))
           vars_in_group in
  let next_candidates :=
    List.filter (fun v => default false (written_comb !! cand_name v))
           vars_in_group in
  let state_candidates :=
    match state_candidates with
    | [] => vars_in_group
    | _ => state_candidates
    end in
  let '(best_state_var, best_score) :=
    pick_best score_state_name state_candidates (None, (-999)%Z) in
  let state_var := best_state_var in
  let '(best_next_var, best_next_score) :=
    pick_best (score_next_name state_var) next_candidates
              (None, (-999)%Z) in
  let next_state_var :=
    if (-999 <? best_next_score)%Z then best_next_var else None in
  (state_var, next_state_var).

Definition is_case_on_state (state_var : string) (node : Node) : bool :=
  let k := kind node in
  if negb (startswith k "Case") then false
  else
    let full := collect_identifiers_inline node in
    let compact := remove_ws full in
    if contains ("case(" +:+ state_var +:+ ")") compact then true
    else if contains ("uniquecase(" +:+ state_var +:+ ")") compact
            || contains ("prioritycase(" +:+ state_var +:+ ")") compact
    then true
    else false.

Definition _find_case_nodes_on_state (scope_node : Node)
           (state_var : string) : list Node :=
  collect_nodes (fun n => startswith (kind n) "Case"
                          && is_case_on_state state_var n)
                scope_node.

(** [dfs_items]: the [CaseItem] nodes nearest to the case node; what
    is below a case item is not searched. *)
Fixpoint dfs_items (node : Node) : list Node :=
  match node with
  | mkNode k _ _ cs =>
      if contains "CaseItem" k then [node]
      else
        (fix items_all (l : list Node) : list Node :=
           match l with
           | [] => []
           | ch :: r => dfs_items ch ++ items_all r
           end) cs
  end.

(** The loop of [_find_first_enum_in_text], from the best so far. *)
Definition _find_first_enum_in_text (enum_members : list string)
           (text : string) : option string :=
  snd (foldl (fun best m =>
                let idx := find text m in
                if negb (idx =? -1)%Z
                   && match fst best with
                      | None => true
                      | Some best_idx => (idx <? best_idx)%Z
                      end
                then (Some idx, Some m) else best)
             (None, None) enum_members).

(** A match of a pattern: where it starts and its group 1. *)
Record Match : Type := mkMatch {
  m_start : nat;
  m_group : string
}.

(** [pattern.finditer(text)] for a pattern that never matches the
    empty string: [match_at] gives group 1 and the length of the match
    at the head of a text; after a match the search goes on behind it.
    [skip] counts the characters of the last match still to pass. *)
Fixpoint finditer_from (match_at : string -> option (string * nat))
         (skip pos : nat) (text : string) : list Match :=
  match skip with
  | S k =>
      match text with
      | "" => []
      | String _ r => finditer_from match_at k (S pos) r
      end
  | 0 =>
      match match_at text with
      | Some (g, len) =>
          mkMatch pos g
          :: match text with
             | "" => []
             | String _ r => finditer_from match_at (len - 1) (S pos) r
             end
      | None =>
          match text with
          | "" => []
          | String _ r => finditer_from match_at 0 (S pos) r
          end
      end
  end.

Definition finditer (match_at : string -> option (string * nat))
           (text : string) : list Match :=
  finditer_from match_at 0 0 text.

(** The lazy [(.*?)\)]: the characters up to the first [)], none of
    them a newline. *)
Fixpoint until_paren (s : string) : option string :=
  match s with
  | "" => None
  | String c r =>
      if Ascii.eqb c ")" then Some ""
      else if Ascii.eqb c "010" then None
      else g ← until_paren r; Some (String c g)
  end.

(** [if\s*\((.*?)\)] at the head of [s]. *)
Definition if_match_at (s : string) : option (string * nat) :=
  r1 ← drop_prefix "if" s;
  let '(ws, r2) := span is_space r1 in
  r3 ← drop_prefix "(" r2;
  g ← until_paren r3;
  Some (g, 2 + String.length ws + 1 + String.length g + 1).

(** The pattern made of the escaped [lhs_name], [\s*], [<?=], [\s*] and
    the group [[A-Za-z_]\w* ], at the head of [s]. *)
Definition assign_match_at (lhs_name : string) (s : string)
  : option (string * nat) :=
  r1 ← drop_prefix lhs_name s;
  let '(ws1, r2) := span is_space r1 in
  let '(lt, r3) := match drop_prefix "<" r2 with
                   | Some r => (1, r)
                   | None => (0, r2)
                   end in
  r4 ← drop_prefix "=" r3;
  let '(ws2, r5) := span is_space r4 in
  match r5 with
  | String c r6 =>
      if is_ident_start c then
        let '(w, _) := span is_word r6 in
        Some (String c w,
              String.length lhs_name + String.length ws1 + lt + 1
              + String.length ws2 + S (String.length w))
      else None
  | "" => None
  end.

(** The guard of the assignment that starts at [assign_start]. *)
Definition guard_before (if_matches : list Match) (assign_start : nat)
  : string :=
  let prev_ifs := List.filter (fun m => m_start m <? assign_start) if_matches in
  match prev_ifs with
  | [] => "1"
  | _ => strip (m_group (List.last prev_ifs (mkMatch 0 "")))
  end.

Definition _find_assignments_with_conditions (text lhs_name : string)
           (enum_members : list string) : list (string * string) :=
  let if_matches := finditer if_match_at text in
  let assign_matches := finditer (assign_match_at lhs_name) text in
  let result :=
    flat_map
      (fun am =>
         let assigned_name := m_group am in
         if negb (mem assigned_name enum_members) then []
         else [(assigned_name, guard_before if_matches (m_start am))])
      assign_matches in
  dedup_by (fun r => r) result.

(** What one case item adds to [transitions]. *)
Definition item_transitions (lhs_name : string) (enum_members : list string)
           (item : Node) : list Transition :=
  let item_text := collect_identifiers_inline item in
  if negb (truthy item_text) then []
  else
    match _find_first_enum_in_text enum_members item_text with
    | Some from_state =>
        if negb (truthy from_state) then []
        else
          map (fun a => mkTransition from_state (fst a) (snd a))
              (_find_assignments_with_conditions item_text lhs_name
                                                 enum_members)
    | None => []
    end.

Definition _build_transitions_from_cases (case_nodes : list Node)
           (state_var : string) (next_state_var : option string)
           (enum_members : list string) : list Transition :=
  let lhs_name :=
    if otruthy next_state_var then default "" next_state_var
    else state_var in
  if negb (truthy lhs_name) then []
  else
    flat_map
      (fun case_node =>
         flat_map (item_transitions lhs_name enum_members)
                  (dfs_items case_node))
      case_nodes.

(** The inner loop of [_detect_reset_state] over the members. *)
Definition reset_in_block (compact state_var : string)
           (enum_members : list string) : option string :=
  List.find (fun m =>
               let pat1 := state_var +:+ "=" +:+ m in
               let pat2 := state_var +:+ "<=" +:+ m in
               contains pat1 compact || contains pat2 compact)
            enum_members.

Fixpoint _detect_reset_state (always_nodes : list Node) (state_var : string)
         (enum_members : list string) : option string :=
  match always_nodes with
  | [] => None
  | a :: rest =>
      if negb (_is_clocked_always a)
      then _detect_reset_state rest state_var enum_members
      else
        let txt := collect_identifiers_inline a in
        if negb (contains state_var txt)
        then _detect_reset_state rest state_var enum_members
        else
          let compact := remove_ws txt in
          match reset_in_block compact state_var enum_members with
          | Some m => Some m
          | None => _detect_reset_state rest state_var enum_members
          end
  end.

(** The body of the loop over [groups.items()]: the graph of one
    group, if it has one. *)
Definition graph_of_group (scope_nodes : gmap string Node)
           (enum_index : gmap (string * string) EnumVar)
           (group : (string * string) * list Candidate) : list FSMGraph :=
  let '((scope, enum_name), vars_in_group) := group in
  match scope_nodes !! scope with
  | None => []
  | Some scope_node =>
      let enum_members :=
        match List.find
                (fun v => bool_decide
                            (is_Some (enum_index !! (scope, cand_name v))))
                vars_in_group with
        | Some v =>
            match enum_index !! (scope, cand_name v) with
            | Some ev => enum_members ev
            | None => []
            end
        | None => []
        end in
      match enum_members with
      | [] => []
      | _ =>
          let '(state_var, next_state_var) :=
            _choose_state_and_next scope_node vars_in_group in
          if negb (otruthy state_var) then []
          else
            let state_var := default "" state_var in
            let always_nodes := _collect_always_nodes scope_node in
            let case_nodes := _find_case_nodes_on_state scope_node state_var in
            let transitions :=
              _build_transitions_from_cases case_nodes state_var
                                            next_state_var enum_members in
            let reset_state :=
              _detect_reset_state always_nodes state_var enum_members in
            let unique_transitions :=
              dedup_by (fun t => (t_from t, t_to t, t_cond t)) transitions in
            [mkFSMGraph scope state_var next_state_var enum_name
                        enum_members reset_state unique_transitions
                        (length enum_members) (length unique_transitions)]
      end
  end.

Definition build_fsm_graphs_from_cst (py_id : Identities) (tree : Node)
  : result (list FSMGraph) :=
  let root := tree in
  fsm_candidates <- detect_fsm_enum_candidates_from_cst py_id tree ;;
  all_enum_vars <- detect_enum_variables_from_cst py_id tree ;;
  let enum_index : gmap (string * string) EnumVar :=
    foldl (fun idx ev => <[ (ev_scope ev, var_name ev) := ev ]> idx)
          ∅ all_enum_vars in
  let groups : list ((string * string) * list Candidate) :=
    foldl (fun groups cand =>
             let scope := ev_scope (cand_var cand) in
             let enum_name := ev_enum_name (cand_var cand) in
             if negb (truthy enum_name) then groups
             else
               let key := (scope, enum_name) in
               PyDict.set key (default [] (PyDict.get key groups) ++ [cand])
                          groups)
          [] fsm_candidates in
  let scope_nodes := _collect_scope_nodes root in
  Return (flat_map (graph_of_group scope_nodes enum_index) groups).

(** The double quote character of the DOT texts. *)
Definition dquote : string := String "034" "".

(** The lines of [fsm_graph_to_dot] before they are joined. *)
Definition fsm_graph_to_dot_lines (graph : FSMGraph) : list string :=
  let scope := scope graph in
  let state_var := state_var graph in
  let name := replace_char " " "_" (scope +:+ "_" +:+ state_var) in
  let lines := ["digraph " +:+ dquote +:+ name +:+ dquote +:+ " {"] in
  let reset_state := reset_state graph in
  let lines :=
    lines
    ++ map (fun s =>
              if otruthy reset_state && bool_decide (Some s = reset_state)
              then "  " +:+ s +:+ " [shape=doublecircle];"
              else "  " +:+ s +:+ " [shape=circle];")
           (states graph) in
  let lines :=
    lines
    ++ map (fun t =>
              let frm := t_from t in
              let to := t_to t in
              let cond := t_cond t in
              if truthy cond && negb (String.eqb cond "1")
              then "  " +:+ frm +:+ " -> " +:+ to +:+ " [label=" +:+ dquote
                   +:+ cond +:+ dquote +:+ "];"
              else "  " +:+ frm +:+ " -> " +:+ to +:+ ";")
           (transitions graph) in
  lines ++ ["}"].

Definition fsm_graph_to_dot (graph : FSMGraph) : string :=
  join (String "010" "") (fsm_graph_to_dot_lines graph).

(** The loop [for i, g in enumerate(graphs)] of [fsm_graphs_to_dot],
    from index [i]: the lines of the clusters. *)
Fixpoint dot_clusters (i : nat) (graphs : list FSMGraph) : list string :=
  match graphs with
  | [] => []
  | g :: rest =>
      let scope := scope g in
      let state_var := state_var g in
      let cluster_name := "cluster_" +:+ of_int (Z.of_nat i) in
      let label := scope +:+ " (" +:+ state_var +:+ ")" in
      let lines := ["  subgraph " +:+ cluster_name +:+ " {";
                    "    label=" +:+ dquote +:+ label +:+ dquote +:+ ";"] in
      let reset_state := reset_state g in
      let lines :=
        lines
        ++ map (fun s =>
                  if otruthy reset_state && bool_decide (Some s = reset_state)
                  then "    " +:+ s +:+ " [shape=doublecircle];"
                  else "    " +:+ s +:+ " [shape=circle];")
               (states g) in
      let lines :=
        lines
        ++ map (fun t =>
                  let frm := t_from t in
                  let to := t_to t in
                  let cond := t_cond t in
                  if truthy cond && negb (String.eqb cond "1")
                  then "    " +:+ frm +:+ " -> " +:+ to +:+ " [label="
                       +:+ dquote +:+ cond +:+ dquote +:+ "];"
                  else "    " +:+ frm +:+ " -> " +:+ to +:+ ";")
               (transitions g) in
      (lines ++ ["  }"]) ++ dot_clusters (S i) rest
  end.

(** The lines of [fsm_graphs_to_dot] before they are joined. *)
Definition fsm_graphs_to_dot_lines (graphs : list FSMGraph) : list string :=
  ["digraph FSMs {"; "  compound=true;"] ++ dot_clusters 0 graphs ++ ["}"].

Definition fsm_graphs_to_dot (graphs : list FSMGraph) : string :=
  join (String "010" "") (fsm_graphs_to_dot_lines graphs).

End GraphBuilder.

(* ================================================================== *)
(** ** src/AST_CST/cst_service.py, class CSTService *)
(* ================================================================== *)

Module CstService.
Import PyStr Cst.

(** A [pyslang.SyntaxTree] as the service reads it: the attribute
    [name], if the object has one, and [root]. *)
Record SyntaxTree : Type := mkSyntaxTree {
  tree_name : option string;
  root : Node
}.

(** [_count_nodes]: [count] starts at one and every child adds its
    own count. *)
Fixpoint _count_nodes (node : Node) : Z :=
  match node with
  | mkNode _ _ _ cs =>
      (fix count_all (count : Z) (l : list Node) : Z :=
         match l with
         | [] => count
         | child :: r => count_all (count + _count_nodes child)%Z r
         end) 1%Z cs
  end.

(** The dictionary returned by [get_tree_info]. *)
Record TreeInfo : Type := mkTreeInfo {
  filename : string;
  root_kind : string;
  total_nodes : Z;
  modules_count : nat;
  interfaces_count : nat;
  classes_count : nat
}.

Definition get_tree_info (tree : SyntaxTree) : TreeInfo :=
  let root := root tree in
  mkTreeInfo (default "unknown" (tree_name tree))
             (kind root)
             (_count_nodes root)
             (length (find_all root "ModuleDeclaration"))
             (length (find_all root "InterfaceDeclaration"))
             (length (find_all root "ClassDeclaration")).

(** [_get_node_position]. *)
Definition _get_node_position (node : Node) : Position :=
  mkPosition (line (get_position node)) (column (get_position node))
             (pos_start (get_position node)) (pos_end (get_position node)).

(** An element of the result of [find_nodes_by_kind]. *)
Record FoundNode : Type := mkFoundNode {
  found_kind : string;
  found_text : option string;
  found_position : Position
}.

Definition find_nodes_by_kind (tree : SyntaxTree) (kind_name : string)
  : list FoundNode :=
  let nodes := find_all (root tree) kind_name in
  map (fun node => mkFoundNode kind_name (text_of node)
                               (_get_node_position node))
      nodes.

End CstService.

(* ================================================================== *)
(** ** src/FSM_core/fsm_graph_viz.py, the text helpers *)
(* ================================================================== *)

Module GraphViz.
Import PyStr.

Definition _escape_html (s : string) : string :=
  replace_char_with "034" "&quot;"
    (replace_char_with ">" "&gt;"
       (replace_char_with "<" "&lt;"
          (replace_char_with "&" "&amp;" s))).

Definition _normalize_cond (cond : option string) : string :=
  match cond with
  | None => ""
  | Some cond => join " " (split_ws (strip cond))
  end.

End GraphViz.

(* ================================================================== *)
(** ** src/test_fsm_graph_builder.py, the comparison helpers *)
(* ================================================================== *)

Module GraphBuilderTests.
Import PyStr.

Definition normalize_cond (cond : option string) : string :=
  match cond with
  | None => "1"
  | Some cond =>
      let c := strip cond in
      if truthy c then c else "1"
  end.

End GraphBuilderTests.

(* ================================================================== *)
(** ** src/backend/main.py *)
(* ================================================================== *)

Module Backend.
Import PyStr Cst GraphBuilder CodeGenerator.

(** A graph of [graphs_storage]: the dictionary of the extraction with
    the two keys [parse_code] adds to it. *)
Record StoredGraph : Type := mkStoredGraph {
  graph : FSMGraph;
  parse_id : Z;
  graph_id : string
}.

(** The three globals of the module. *)
Record Store : Type := mkStore {
  graphs_storage : list StoredGraph;
  current_parse_id : Z;
  original_code_storage : gmap Z string
}.

(** The globals when the module is loaded. *)
Definition initial_store : Store := mkStore [] 0%Z ∅.

Record ParseRequest : Type := mkParseRequest {
  code : string;
  request_filename : option string
}.

Record ParseResponse : Type := mkParseResponse {
  success : bool;
  graphs_count : nat;
  graphs : list StoredGraph;
  response_parse_id : Z
}.

(** The [detail] of an [HTTPException]: a fixed sentence, followed by
    the text of the exception caught where there is one. The sentence
    is kept by its meaning and the exception as it was raised;
    [UpdateError] stands for the sentence of [update_graph] with the
    [IndexError] of its list access. *)
Inductive Detail : Type :=
| GraphNotFound
| ParseError (e : exn)
| UpdateError
| GenerationError (e : exn).

(** What an endpoint gives back: its value, or the [HTTPException] it
    raises. *)
Inductive Response (A : Type) : Type :=
| Ok (a : A)
| HTTPException (status_code : Z) (detail : Detail).

Arguments Ok {A} a.
Arguments HTTPException {A} status_code detail.

(** [next((g for g in graphs_storage if g.get("graph_id") == graph_id),
    None)]. *)
Definition lookup_graph (st : Store) (id : string) : option StoredGraph :=
  List.find (fun g => String.eqb (graph_id g) id) (graphs_storage st).

(** [next((i for i, g in enumerate(graphs_storage) if ...), None)],
    from index [i]. *)
Fixpoint lookup_index (i : nat) (l : list StoredGraph) (id : string)
  : option nat :=
  match l with
  | [] => None
  | g :: r =>
      if String.eqb (graph_id g) id then Some i else lookup_index (S i) r id
  end.

(** The loop of [parse_code] that writes the two keys, from index [i]. *)
Fixpoint tag_graphs (parse_id : Z) (i : nat) (graphs : list FSMGraph)
  : list StoredGraph :=
  match graphs with
  | [] => []
  | g :: r =>
      mkStoredGraph g parse_id
                    (of_int parse_id +:+ "_" +:+ of_int (Z.of_nat i))
      :: tag_graphs parse_id (S i) r
  end.

Section Endpoints.
(** [CSTService.build_cst_from_text]: the parser, which is not part of
    this repository. *)
Variable build_cst_from_text : string -> string -> result Node.

(** [POST /api/parse]; [py_id] gives the identities of the nodes of
    the tree built for this request. *)
Definition parse_code (py_id : FindeENUM.Identities) (st : Store)
           (request : ParseRequest) : Store * Response ParseResponse :=
  match (tree <- build_cst_from_text
                   (code request)
                   (if otruthy (request_filename request)
                    then default "" (request_filename request)
                    else "source.sv") ;;
         build_fsm_graphs_from_cst py_id tree) with
  | Return graphs =>
      let parse_id := (current_parse_id st + 1)%Z in
      let original_code_storage :=
        <[ parse_id := code request ]> (original_code_storage st) in
      let graphs := tag_graphs parse_id 0 graphs in
      (mkStore graphs parse_id original_code_storage,
       Ok (mkParseResponse true (length graphs) graphs parse_id))
  | Raise e => (st, HTTPException 500 (ParseError e))
  end.

End Endpoints.

(** [GET /api/graphs]: the graphs and their number. *)
Definition get_all_graphs (st : Store) : list StoredGraph * nat :=
  (graphs_storage st, length (graphs_storage st)).

(** [GET /api/graph/{graph_id}]. *)
Definition get_graph (st : Store) (id : string) : Response StoredGraph :=
  match lookup_graph st id with
  | Some g => Ok g
  | None => HTTPException 404 GraphNotFound
  end.

(** [POST /api/graph/{graph_id}/update]: the graph sent takes the place
    of the stored one and is given its two keys. *)
Definition update_graph (st : Store) (id : string) (request_graph : FSMGraph)
  : Store * Response (bool * StoredGraph) :=
  match lookup_index 0 (graphs_storage st) id with
  | None => (st, HTTPException 404 GraphNotFound)
  | Some graph_index =>
      match graphs_storage st !! graph_index with
      | Some old =>
          let updated_graph :=
            mkStoredGraph request_graph (parse_id old) id in
          (mkStore (<[ graph_index := updated_graph ]> (graphs_storage st))
                   (current_parse_id st) (original_code_storage st),
           Ok (true, updated_graph))
      | None => (st, HTTPException 500 UpdateError)
      end
  end.

(** [POST /api/graph/{graph_id}/generate-code]. *)
Definition generate_code (st : Store) (id : string) : Response string :=
  match lookup_graph st id with
  | None => HTTPException 404 GraphNotFound
  | Some g =>
      let original_code :=
        default "" (original_code_storage st !! parse_id g) in
      let generator := mkGenerator original_code in
      let scope := scope (graph g) in
      let parts := split_ws scope in
      let module_name :=
        if 1 <? length parts then List.last parts "" else "fsm_example" in
      match generate_code_from_graph generator (graph g)
                                     (Some module_name) with
      | Return generated_code => Ok generated_code
      | Raise e => HTTPException 500 (GenerationError e)
      end
  end.

End Backend.

(* ================================================================== *)
(** ** Notions used to state the properties *)
(* ================================================================== *)

Import PyStr Cst FindeENUM EnumCandidates GraphBuilder CodeGenerator.

(** The assignment line of an edge in the next-state block, plain or
    under its condition. *)
Definition edge_line (g : FSMGraph) (t : Transition) : string :=
  (if unconditional (t_cond t) then "        " else "          ")
  +:+ comb_target g +:+ " = " +:+ t_to t +:+ ";".

(** The three preconditions of the generator. *)
Definition valid_graph (g : FSMGraph) : Prop :=
  NoDup (states g)
  /\ (forall t, t ∈ transitions g -> t_from t ∈ states g /\ t_to t ∈ states g)
  /\ (forall r, reset_state g = Some r -> r <> "" -> r ∈ states g).

Definition g_two : FSMGraph :=
  mkFSMGraph "module m" "state" (Some "next_state") "state_t"
    ["A"; "B"] None
    [mkTransition "A" "B" "1"; mkTransition "A" "A" "stay"] 2 2.

(** A block the classifier takes as clocked in which [name] is written. *)
Definition written_in_clocked (scope_node : Node) (name : string) : bool :=
  existsb (fun a => _var_written_in_always a name && _is_clocked_always a)
          (_collect_always_nodes scope_node).

(** A block the classifier takes as combinational (it is not clocked and
    its text shows [always_comb] or [@*]) in which [name] is written. *)
Definition written_in_comb (scope_node : Node) (name : string) : bool :=
  existsb (fun a => _var_written_in_always a name
                    && negb (_is_clocked_always a) && _is_comb_always a)
          (_collect_always_nodes scope_node).

(** [best] is the first of the names of greatest score. *)
Definition first_max (score : string -> Z) (names : list string)
           (best : string) : Prop :=
  exists i, names !! i = Some best
    /\ (forall j n, names !! j = Some n -> (score n <= score best)%Z)
    /\ (forall j n, j < i -> names !! j = Some n -> (score n < score best)%Z).

Definition nopos : Position := mkPosition None None None None.
Definition tok (t : string) : Node := mkNode "Token" (Some t) nopos [].
Definition ident (t : string) : Node := mkNode "Identifier" (Some t) nopos [].
Definition nd (k : string) (cs : list Node) : Node := mkNode k None nopos cs.

Definition single_register_module : Node :=
  nd "ModuleDeclaration"
     [nd "ModuleHeader" [tok "module "; ident "m"; tok ";"];
      nd "AlwaysCombBlock"
         [tok "always_comb "; ident "state"; tok "="; ident "RUN"; tok ";"];
      tok "endmodule"].

Definition single_register_group : list Candidate :=
  [mkCandidate (mkEnumVar "state" "state_t" ["IDLE"; "RUN"] "module m" nopos)
               (mkFsmReason true false false)].

(** The test [_detect_reset_state] makes on the block [a] for the
    member [m]: the block is clocked, and its text without whitespace
    holds [state_var], [=] or [<=], and [m] in a row, at any place. *)
Definition reset_assigned (a : Node) (state_var m : string) : bool :=
  _is_clocked_always a
  && contains state_var (collect_identifiers_inline a)
  && (contains (state_var +:+ "=" +:+ m)
               (remove_ws (collect_identifiers_inline a))
      || contains (state_var +:+ "<=" +:+ m)
                  (remove_ws (collect_identifiers_inline a))).

(** [m] stands in [text] at offset [i] and at no smaller offset. *)
Definition first_occurrence (text m : string) (i : nat) : Prop :=
  String.substring i (String.length m) text = m
  /\ forall p, p < i -> String.substring p (String.length m) text <> m.

(** [m] is a member that occurs in [text], and no member occurs at a
    smaller offset. *)
Definition first_member (enum_members : list string) (text m : string)
  : Prop :=
  In m enum_members
  /\ exists i, first_occurrence text m i
       /\ forall m' i', In m' enum_members -> first_occurrence text m' i' ->
                        i <= i'.

(** [im] is the last [if (COND)] of the text that starts before the
    offset [start]. *)
Definition nearest_if_before (text : string) (start : nat) (im : Match)
  : Prop :=
  In im (finditer if_match_at text)
  /\ m_start im < start
  /\ forall im', In im' (finditer if_match_at text) -> m_start im' < start ->
                 m_start im' <= m_start im.

(** The guard of an assignment that starts at [start]: the stripped
    condition of the nearest [if] before it, or ["1"] when no [if]
    starts before it. *)
Definition guard_at (text : string) (start : nat) (cond : string) : Prop :=
  (exists im, nearest_if_before text start im /\ cond = strip (m_group im))
  \/ ((forall im, In im (finditer if_match_at text) -> ~ m_start im < start)
      /\ cond = "1").

(** Every character of [s] is in the class [p]. *)
Fixpoint all_chars (p : ascii -> bool) (s : string) : bool :=
  match s with
  | "" => true
  | String c r => p c && all_chars p r
  end.

(** At offset [start] the text reads [if], spaces, [(], [cond_text], [)],
    and [cond_text] holds neither [)] nor a newline. *)
Definition if_at (text : string) (start : nat) (cond_text : string) : Prop :=
  exists before ws rest,
    text = before +:+ "if" +:+ ws +:+ "(" +:+ cond_text +:+ ")" +:+ rest
    /\ String.length before = start
    /\ all_chars is_space ws = true
    /\ all_chars (fun c => negb (Ascii.eqb c ")") && negb (Ascii.eqb c "010"))
                 cond_text = true.

(** At offset [start] the text reads [lhs_name], spaces, [=] or [<=],
    spaces and the identifier [rhs], which ends there. *)
Definition assignment_at (lhs_name text : string) (start : nat) (rhs : string)
  : Prop :=
  exists before ws1 op ws2 rest,
    text = before +:+ lhs_name +:+ ws1 +:+ op +:+ ws2 +:+ rhs +:+ rest
    /\ String.length before = start
    /\ all_chars is_space ws1 = true
    /\ (op = "=" \/ op = "<=")
    /\ all_chars is_space ws2 = true
    /\ match rhs with
       | "" => False
       | String c w => is_ident_start c = true /\ all_chars is_word w = true
       end
    /\ match rest with
       | "" => True
       | String c _ => is_word c = false
       end.

(** The variable the case branches are searched for assignments to. *)
Definition write_target (state_var : string) (next_state_var : option string)
  : string :=
  if otruthy next_state_var then default "" next_state_var else state_var.

(** The children part of [find_all]. *)
Definition find_all_children (kind_name : string) (cs : list Node)
  : list Node :=
  flat_map (fun ch => find_all ch kind_name) cs.

(** The children part of [dfs_collect], from the child index [i]. *)
Fixpoint dfs_collect_children (parent : path * Node) (i : nat)
         (cs : list Node) : list ((path * Node) * option (path * Node)) :=
  match cs with
  | [] => []
  | ch :: r =>
      dfs_collect (Some parent) (fst parent ++ [i]) ch
      ++ dfs_collect_children parent (S i) r
  end.

(** The children part of [find_all_at], from the child index [i]. *)
Fixpoint find_all_at_children (p : path) (kind_name : string) (i : nat)
         (cs : list Node) : list (path * Node) :=
  match cs with
  | [] => []
  | ch :: r =>
      find_all_at (p ++ [i]) ch kind_name
      ++ find_all_at_children p kind_name (S i) r
  end.

(** The members recorded for an enum are those of an [EnumType] node of
    the tree. *)
Definition members_of_enum_in (root : Node) (members : list string) : Prop :=
  exists en, In en (find_all root "EnumType")
             /\ members = find_enum_members en.

(** The children part of [dfs], from the child index [i]. *)
Fixpoint dfs_children (py_id : Identities) (infos : list (Z * EnumInfo))
         (tdefs : list (string * Z)) (stack : list string) (p : path)
         (i : nat) (cs : list Node) : result (list EnumVar) :=
  match cs with
  | [] => Return []
  | ch :: r =>
      here <- dfs py_id infos tdefs stack (p ++ [i]) ch ;;
      rest <- dfs_children py_id infos tdefs stack p (S i) r ;;
      Return (here ++ rest)
  end.

(** Every identity recorded for a type name is a key of the index. *)
Definition keys_known (infos : list (Z * EnumInfo))
           (tdefs : list (string * Z)) : Prop :=
  forall name id, In (name, id) tdefs -> is_Some (PyDict.get id infos).

(** What follows the last [_] of a string, if it has one. *)
Fixpoint after_last_underscore (s : string) : option string :=
  match s with
  | "" => None
  | String c r =>
      match after_last_underscore r with
      | Some t => Some t
      | None => if Ascii.eqb c "_" then Some r else None
      end
  end.

(** The name given to an anonymous enum. *)
Definition synthesized_name (suffix : string) (counter : Z) : string :=
  "anonymous_enum_" +:+ suffix +:+ "_" +:+ of_int counter.

(** An entry of [enum_info_by_id] without a declared name. *)
Definition anonymous (e : Z * EnumInfo) : bool :=
  negb (truthy (info_enum_name (snd e))).

(** The value of the running counter when entry [i] is reached: the
    number of anonymous entries up to and including it. *)
Definition anon_rank (items : list (Z * EnumInfo)) (i : nat) : Z :=
  Z.of_nat (length (List.filter anonymous (firstn (S i) items))).

(** The place of a collected enum node. *)
Definition item_path (item : (path * Node) * option (path * Node)) : path :=
  fst (fst item).

(** The declared name [index_enum] records for a collected enum: the
    first outer name of a [typedef] statement, the empty string
    otherwise. *)
Definition declared_name (py_id : Identities)
           (item : (path * Node) * option (path * Node)) : string :=
  match snd item with
  | Some parent =>
      let parent_text := collect_identifiers_inline (snd parent) in
      if contains "typedef" parent_text && contains "enum" parent_text
      then hd "" (outer_names py_id parent (fst item)
                              (find_enum_members (snd (fst item))))
      else ""
  | None => ""
  end.

(** The entry [index_enum] writes for a collected enum. *)
Definition index_entry (py_id : Identities)
           (item : (path * Node) * option (path * Node)) : Z * EnumInfo :=
  (py_id (item_path item),
   mkEnumInfo (snd (fst item)) (declared_name py_id item)
              (find_enum_members (snd (fst item)))).

(** The identities of a run in which every place of the tree has one
    object: distinct places, distinct numbers. *)
Definition path_id : Identities :=
  mkIdentities (fun p => Z.pos (encode p)) (fun _ p => Z.pos (encode p)).

(** Other ones, as a second run would give. *)
Definition other_id : Identities :=
  mkIdentities (fun p => (- Z.pos (encode p))%Z)
               (fun _ p => (- Z.pos (encode p))%Z).

(** The identities of a run in which every walk makes new objects for
    the identifiers (tokens that the syntax library hands out by value):
    the objects of two walks are different. *)
Definition fresh_id : Identities :=
  mkIdentities (fun p => Z.pos (encode p)) (fun w p => Z.pos (encode (w, p))).

(** Other ones of that kind, as a second run would give. *)
Definition other_fresh_id : Identities :=
  mkIdentities (fun p => (- Z.pos (encode p))%Z)
               (fun w p => (- Z.pos (encode (w, p)))%Z).

(** Every place has one [Identifier] object, whatever walk yields it,
    and different places have different objects. *)
Definition tokens_kept (ids : Identities) : Prop :=
  forall w w' p q, token_id ids w p = token_id ids w' q <-> p = q.

(** Every walk makes its own objects: an object of one walk is never an
    object of a walk started at another node. (The code compares the
    objects of the walk over a parent, which it keeps in a list, with
    those of the walk over the enum below it: objects that are alive
    together, hence different when each walk makes its own.) *)
Definition tokens_renewed (ids : Identities) : Prop :=
  forall w w' p q, w <> w' -> token_id ids w p <> token_id ids w' q.

(** Two runs in which the syntax library hands out the identifiers in
    the same manner. *)
Definition same_token_policy (ids ids' : Identities) : Prop :=
  (tokens_kept ids /\ tokens_kept ids')
  \/ (tokens_renewed ids /\ tokens_renewed ids').

Definition enumerator (m : string) : Node := nd "Enumerator" [ident m].

(** [module m; enum {A, B} x; enum {RED, GREEN} y; endmodule] *)
Definition inline_enums_module : Node :=
  nd "CompilationUnit"
     [nd "ModuleDeclaration"
         [nd "ModuleHeader" [tok "module "; ident "m"; tok ";"];
          nd "DataDeclaration"
             [nd "EnumType" [tok "enum "; tok "{"; enumerator "A"; tok ",";
                             enumerator "B"; tok "}"];
              ident "x"; tok ";"];
          nd "DataDeclaration"
             [nd "EnumType" [tok "enum "; tok "{"; enumerator "RED"; tok ",";
                             enumerator "GREEN"; tok "}"];
              ident "y"; tok ";"];
          tok "endmodule"]].

(** The state machine of the scenario: [typedef enum {IDLE, REQ, WAIT,
    GNT} state_t; state_t state, next_state;] with a clocked register
    block and a combinational case on [state]. *)
Definition fsm_example : Node :=
  nd "CompilationUnit"
   [nd "ModuleDeclaration"
     [nd "ModuleHeader" [tok "module "; ident "fsm_example"; tok ";"];
      nd "TypedefDeclaration"
        [tok "typedef ";
         nd "EnumType" [tok "enum "; tok "{"; enumerator "IDLE"; tok ",";
                        enumerator "REQ"; tok ","; enumerator "WAIT"; tok ",";
                        enumerator "GNT"; tok "}"];
         ident "state_t"; tok ";"];
      nd "DataDeclaration"
        [ident "state_t"; tok " "; ident "state"; tok ",";
         ident "next_state"; tok ";"];
      nd "AlwaysFFBlock"
        [tok "always_ff "; tok "@"; tok "("; tok "posedge "; ident "clk";
         tok ")"; tok "if"; tok "("; ident "rst"; tok ")"; ident "state";
         tok "<="; ident "IDLE"; tok ";"; tok "else "; ident "state";
         tok "<="; ident "next_state"; tok ";"];
      nd "AlwaysCombBlock"
        [tok "always_comb "; tok "begin "; ident "next_state"; tok "=";
         ident "state"; tok ";";
         nd "CaseStatement"
           [tok "unique "; tok "case"; tok "("; ident "state"; tok ")";
            nd "StandardCaseItem"
              [ident "IDLE"; tok ":"; tok "if"; tok "("; ident "req";
               tok ")"; ident "next_state"; tok "="; ident "REQ"; tok ";"];
            nd "StandardCaseItem"
              [ident "REQ"; tok ":"; ident "next_state"; tok "=";
               ident "WAIT"; tok ";"];
            nd "StandardCaseItem"
              [ident "WAIT"; tok ":"; tok "if"; tok "("; ident "gnt";
               tok ")"; ident "next_state"; tok "="; ident "GNT"; tok ";"];
            nd "StandardCaseItem"
              [ident "GNT"; tok ":"; ident "next_state"; tok "=";
               ident "IDLE"; tok ";"];
            tok "endcase"];
         tok "end"];
      tok "endmodule"]].

Definition fsm_example_graph : FSMGraph :=
  mkFSMGraph "module fsm_example" "state" (Some "next_state") "state_t"
    ["IDLE"; "REQ"; "WAIT"; "GNT"] (Some "IDLE")
    [mkTransition "IDLE" "REQ" "req"; mkTransition "REQ" "WAIT" "1";
     mkTransition "WAIT" "GNT" "gnt"; mkTransition "GNT" "IDLE" "1"] 4 4.

Definition idle_branch : Node :=
  nd "StandardCaseItem"
     [ident "IDLE"; tok ":"; tok "if"; tok "("; ident "req"; tok ")";
      ident "next_state"; tok "="; ident "REQ"; tok ";"].

Definition example_case : Node :=
  nd "CaseStatement"
     [tok "case"; tok "("; ident "state"; tok ")"; idle_branch;
      tok "endcase"].

(** No character of [s] is a whitespace character. *)
Definition nospace (s : string) : bool :=
  all_chars (fun c => negb (is_space c)) s.

(** What [_escape_html] writes for one character. *)
Definition escape_char (c : ascii) : string :=
  if Ascii.eqb c "&" then "&amp;"
  else if Ascii.eqb c "<" then "&lt;"
  else if Ascii.eqb c ">" then "&gt;"
  else if Ascii.eqb c "034" then "&quot;"
  else String c "".

(** One of the characters [<], [>] and the double quote, which end or
    open markup. *)
Definition is_markup (c : ascii) : bool :=
  Ascii.eqb c "<" || Ascii.eqb c ">" || Ascii.eqb c "034".

(** The children part of [find_first]. *)
Definition find_first_children (kind_name : string)
  : list Node -> option Node :=
  fix first_of (l : list Node) : option Node :=
    match l with
    | [] => None
    | ch :: r =>
        match find_first ch kind_name with
        | Some x => Some x
        | None => first_of r
        end
    end.

(** The children part of [_count_nodes], from the count so far. *)
Fixpoint count_children (count : Z) (cs : list Node) : Z :=
  match cs with
  | [] => count
  | child :: r => count_children (count + CstService._count_nodes child)%Z r
  end.

(** [enum {A = 1, B}] held as the text of a node without children. *)
Definition textual_enum : Node :=
  mkNode "EnumType" (Some "enum {A = 1, B}") nopos [].

(** The node at place [p] below [n]. *)
Fixpoint node_at (n : Node) (p : path) : option Node :=
  match p with
  | [] => Some n
  | i :: q =>
      match children n !! i with
      | Some ch => node_at ch q
      | None => None
      end
  end.

(** The scope stack of [dfs] on reaching the place [p] below [n],
    from the stack it has at [n]: every scope node passed on the way
    has pushed its label. *)
Fixpoint stack_along (stack : list string) (n : Node) (p : path)
  : list string :=
  match p with
  | [] => stack
  | i :: q =>
      let stack' := match scope_prefix (kind n) with
                    | Some prefix => stack ++ [scope_label prefix n]
                    | None => stack
                    end in
      match children n !! i with
      | Some ch => stack_along stack' ch q
      | None => stack'
      end
  end.

(** The label of the innermost scope node above the place [p] below
    [n], and [cur] when there is none. *)
Fixpoint scope_along (cur : string) (n : Node) (p : path) : string :=
  match p with
  | [] => cur
  | i :: q =>
      let cur' := match scope_prefix (kind n) with
                  | Some prefix => scope_label prefix n
                  | None => cur
                  end in
      match children n !! i with
      | Some ch => scope_along cur' ch q
      | None => cur'
      end
  end.

(** What [detect_enum_variables_from_cst] finds in the example. *)
Definition fsm_example_vars : list EnumVar :=
  [mkEnumVar "state" "state_t" ["IDLE"; "REQ"; "WAIT"; "GNT"]
             "module fsm_example" nopos;
   mkEnumVar "next_state" "state_t" ["IDLE"; "REQ"; "WAIT"; "GNT"]
             "module fsm_example" nopos].

(** One turn of the loop of [build_fsm_graphs_from_cst] that groups
    the candidates. *)
Definition group_step (groups : list ((string * string) * list Candidate))
           (cand : Candidate) : list ((string * string) * list Candidate) :=
  let scope := ev_scope (cand_var cand) in
  let enum_name := ev_enum_name (cand_var cand) in
  if negb (truthy enum_name) then groups
  else
    let key := (scope, enum_name) in
    PyDict.set key (default [] (PyDict.get key groups) ++ [cand]) groups.

(** The key under which a graph is built. *)
Definition graph_key (g : FSMGraph) : string * string :=
  (scope g, enum_name g).

(** What holds of the groups whatever candidates have been seen: the
    keys are different, and a group holds candidates of the list, with
    the scope and the non-empty enum name of its key. *)
Definition groups_ok (cands : list Candidate)
           (groups : list ((string * string) * list Candidate)) : Prop :=
  NoDup (map fst groups)
  /\ forall key vs, In (key, vs) groups ->
       forall c, In c vs ->
         In c cands
         /\ (ev_scope (cand_var c), ev_enum_name (cand_var c)) = key
         /\ ev_enum_name (cand_var c) <> "".

(** One turn of the loop of [_find_first_enum_in_text]. *)
Definition first_enum_step (text : string)
           (best : option Z * option string) (m : string)
  : option Z * option string :=
  let idx := find text m in
  if negb (idx =? -1)%Z
     && match fst best with
        | None => true
        | Some best_idx => (idx <? best_idx)%Z
        end
  then (Some idx, Some m) else best.

(** A register block without a reset edge. *)
Definition no_reset_edge : FSMCodeGenerator :=
  mkGenerator "always_ff @(posedge clk) state <= next_state;".

(** The module name [generate_code_from_graph] writes. *)
Definition module_name_used (g : FSMGraph) (module_name : option string)
  : string :=
  if otruthy module_name then default "" module_name
  else
    let parts := split_ws (scope g) in
    if 1 <? length parts then List.last parts "" else "fsm_example".

(** [g_two] with an edge that leaves a state that is not listed. *)
Definition g_two_stray : FSMGraph :=
  mkFSMGraph "module m" "state" (Some "next_state") "state_t"
    ["A"; "B"] None
    [mkTransition "Z" "A" "go"; mkTransition "A" "B" "1";
     mkTransition "A" "A" "stay"] 2 3.

(** The lines of one graph in [fsm_graph_to_dot] between the opening
    line and the closing brace: the nodes, then the edges. *)
Definition dot_body (g : FSMGraph) : list string :=
  removelast (tl (fsm_graph_to_dot_lines g)).

(** The lines of the cluster of the graph [g] at index [i] in
    [fsm_graphs_to_dot]: the body of its own export, two spaces
    further in. *)
Definition dot_cluster (i : nat) (g : FSMGraph) : list string :=
  ["  subgraph cluster_" +:+ of_int (Z.of_nat i) +:+ " {";
   "    label=" +:+ dquote +:+ (scope g +:+ " (" +:+ state_var g +:+ ")")
   +:+ dquote +:+ ";"]
  ++ map (fun line => "  " +:+ line) (dot_body g)
  ++ ["  }"].

(** The node line of a state that is not marked, and of one that is. *)
Definition circle_line (s : string) : string :=
  "  " +:+ s +:+ " [shape=circle];".

Definition doublecircle_line (s : string) : string :=
  "  " +:+ s +:+ " [shape=doublecircle];".

(** The edge line of a transition, without a label and with one. *)
Definition plain_edge_line (t : Transition) : string :=
  "  " +:+ t_from t +:+ " -> " +:+ t_to t +:+ ";".

Definition labelled_edge_line (t : Transition) : string :=
  "  " +:+ t_from t +:+ " -> " +:+ t_to t +:+ " [label=" +:+ dquote
  +:+ t_cond t +:+ dquote +:+ "];".

(** The identifier [parse_code] gives the graph at index [i] of the
    parse [parse_id]. *)
Definition graph_id_of (parse_id : Z) (i : nat) : string :=
  of_int parse_id +:+ "_" +:+ of_int (Z.of_nat i).

(** What holds of the store whatever requests have been served: the
    graph at index [i] carries the current parse number and the
    identifier made of that number and [i], the source of every
    parse so far, and of no other number, is kept, and graphs are
    stored only once a parse has been made. *)
Definition store_ok (st : Backend.Store) : Prop :=
  (0 <= Backend.current_parse_id st)%Z
  /\ (forall i g, Backend.graphs_storage st !! i = Some g ->
        Backend.parse_id g = Backend.current_parse_id st
        /\ Backend.graph_id g = graph_id_of (Backend.current_parse_id st) i)
  /\ (forall k, is_Some (Backend.original_code_storage st !! k)
                <-> (1 <= k <= Backend.current_parse_id st)%Z)
  /\ (Backend.graphs_storage st <> [] ->
      (1 <= Backend.current_parse_id st)%Z).

(** The stores the module can be in: the one it is loaded with, and
    those left by a parse or an update request. *)
Inductive reachable (build_cst_from_text : string -> string -> result Node)
  : Backend.Store -> Prop :=
| reach_initial : reachable build_cst_from_text Backend.initial_store
| reach_parse py_id st request :
    reachable build_cst_from_text st ->
    reachable build_cst_from_text
              (fst (Backend.parse_code build_cst_from_text py_id st request))
| reach_update st id g :
    reachable build_cst_from_text st ->
    reachable build_cst_from_text (fst (Backend.update_graph st id g)).

(** A parser that returns the tree of the example for every source. *)
Definition example_parser (source_text filename : string) : result Node :=
  Return fsm_example.

Definition example_request : Backend.ParseRequest :=
  Backend.mkParseRequest "module fsm_example; endmodule" None.

(** The store after one parse request. *)
Definition store_after_parse : Backend.Store :=
  fst (Backend.parse_code example_parser path_id Backend.initial_store
                          example_request).

(** A graph with an unknown target, then an unknown origin, and an
    unknown reset state. *)
Definition g_many_errors : FSMGraph :=
  mkFSMGraph "module m" "state" None "state_t" ["A"; "B"] (Some "R")
    [mkTransition "A" "B" "1"; mkTransition "A" "X" "go";
     mkTransition "Y" "A" "1"] 2 3.

(** A dictionary from names to places, read with the identities
    [py_id] gives the places. *)
Definition with_ids (py_id : Identities) (tp : list (string * path))
  : list (string * Z) :=
  map (fun e => (fst e, py_id (snd e))) tp.

(** The part of [index_enum] that writes [typedef_to_enum], with the
    place of the enum node where the source has its identity. *)
Definition typedef_step (py_id : Identities) (tp : list (string * path))
           (item : (path * Node) * option (path * Node))
  : list (string * path) :=
  let en := fst item in
  let members := find_enum_members (snd en) in
  match snd item with
  | Some parent =>
      let parent_text := collect_identifiers_inline (snd parent) in
      let tp1 :=
        if contains "typedef" parent_text && contains "enum" parent_text
        then
          let typedef_name := hd "" (outer_names py_id parent en members) in
          if truthy typedef_name
          then PyDict.set typedef_name (fst en) tp else tp
        else tp in
      if contains "enum" parent_text && negb (contains "typedef" parent_text)
      then foldl (fun d alias => PyDict.set alias (fst en) d)
                 tp1 (outer_names py_id parent en members)
      else tp1
  | None => tp
  end.

(** The places of the [EnumType] nodes of the tree, in the order of
    the walk. *)
Definition enum_places (root : Node) : list path :=
  map fst (find_all_at [] root "EnumType").

(** The [EnumType] objects of a run have different identities: the
    index holds them together, and Python gives objects that are alive
    together different identities. *)
Definition distinct_enum_nodes (ids : Identities) (root : Node) : Prop :=
  NoDup (map (node_id ids) (enum_places root)).

(** A collected enum stands in the tree at its place, and the parent
    collected with it is the node directly above it; the root has
    none. *)
Definition collected_in (root : Node)
           (item : (path * Node) * option (path * Node)) : Prop :=
  node_at root (item_path item) = Some (snd (fst item))
  /\ match snd item with
     | Some parent =>
         node_at root (fst parent) = Some (snd parent)
         /\ exists i, item_path item = fst parent ++ [i]
     | None => item_path item = []
     end.

(** The branch [ER_MONITOR] of the error manager in the example source
    that the viewer loads ([_fill_example_code] of fsm_graph_viz.py):
    the condition of its first [if] has parentheses of its own. *)
Definition er_monitor_branch : Node :=
  nd "StandardCaseItem"
     [ident "ER_MONITOR"; tok ": "; tok "begin "; tok "if "; tok "(";
      ident "wd_expired_i"; tok " || "; tok "("; ident "ing_error_i";
      tok " && "; ident "eg_error_i"; tok ")"; tok " || ";
      ident "cr_error_i"; tok ") "; tok "begin "; ident "next_state";
      tok " = "; ident "ER_GLOBAL_FAULT"; tok "; "; tok "end ";
      tok "else "; tok "if "; tok "("; ident "ing_error_i"; tok " || ";
      ident "eg_error_i"; tok ") "; tok "begin "; ident "next_state";
      tok " = "; ident "ER_LOCAL_FAULT"; tok "; "; tok "end "; tok "end"].

Definition er_case : Node :=
  nd "CaseStatement"
     [tok "unique "; tok "case "; tok "("; ident "state"; tok ") ";
      er_monitor_branch; tok "endcase"].

(** The members of [error_state_t] in that source. *)
Definition er_members : list string :=
  ["ER_IDLE"; "ER_MONITOR"; "ER_LOCAL_FAULT"; "ER_GLOBAL_FAULT";
   "ER_ISOLATE"; "ER_CLEAR"; "ER_RECOVER"].

(** The condition of the first [if] of the branch, as the source has
    it. *)
Definition er_first_condition : string :=
  "wd_expired_i || (ing_error_i && eg_error_i) || cr_error_i".

(** The graph with the edges read off that branch. *)
Definition er_graph : FSMGraph :=
  mkFSMGraph "module error_manager" "state" (Some "next_state")
    "error_state_t" er_members (Some "ER_IDLE")
    (_build_transitions_from_cases [er_case] "state" (Some "next_state")
                                   er_members)
    7 2.

(** [always_ff @(posedge clk) if (rst) state <= S10; else state <=
    next_state;]: the register is reset to [S10]. *)
Definition reset_to_S10 : Node :=
  nd "AlwaysFFBlock"
     [tok "always_ff "; tok "@"; tok "("; tok "posedge "; ident "clk";
      tok ") "; tok "if "; tok "("; ident "rst"; tok ") "; ident "state";
      tok " <= "; ident "S10"; tok "; "; tok "else "; ident "state";
      tok " <= "; ident "next_state"; tok ";"].

(** [always_ff @(posedge clk) next_state <= RUN;]: the block never
    writes [state]. *)
Definition writes_next_state_only : Node :=
  nd "AlwaysFFBlock"
     [tok "always_ff "; tok "@"; tok "("; tok "posedge "; ident "clk";
      tok ") "; ident "next_state"; tok " <= "; ident "RUN"; tok ";"].

(** The two runs look up the same entries for the enum nodes at
    [places] and hold the same names for the same places. *)
Definition same_index (py_id py_id' : Identities) (places : list path)
           (infos : list (Z * EnumInfo)) (tdefs : list (string * Z))
           (infos' : list (Z * EnumInfo)) (tdefs' : list (string * Z))
  : Prop :=
  (forall q, In q places ->
             PyDict.get (py_id q) infos = PyDict.get (py_id' q) infos')
  /\ exists tp,
       (forall e, In e tp -> In (snd e) places)
       /\ tdefs = with_ids py_id tp /\ tdefs' = with_ids py_id' tp.

(** [typedef enum logic [W-1:0] {IDLE, RUN} state_t; state_t state;]:
    the enum holds an identifier that is no member. *)
Definition sized_enum_module : Node :=
  nd "CompilationUnit"
     [nd "ModuleDeclaration"
         [nd "ModuleHeader" [tok "module "; ident "m"; tok ";"];
          nd "TypedefDeclaration"
             [tok "typedef ";
              nd "EnumType" [tok "enum "; tok "logic "; tok "["; ident "W";
                             tok "-1:0] "; tok "{"; enumerator "IDLE";
                             tok ","; enumerator "RUN"; tok "}"];
              ident "state_t"; tok ";"];
          nd "DataDeclaration"
             [ident "state_t"; tok " "; ident "state"; tok ";"];
          tok "endmodule"]].

(* ================================================================== *)
(** ** Properties *)
(* ================================================================== *)

Lemma group_transitions_lookup (ts : list Transition)
      (by_state : gmap string (list Transition)) (s : string) :
  default [] (foldl (fun by_state trans =>
                       <[ t_from trans :=
                            default [] (by_state !! t_from trans) ++ [trans] ]>
                         by_state) by_state ts !! s)
  = default [] (by_state !! s)
    ++ List.filter (fun t => String.eqb (t_from t) s) ts.
Proof.
  revert by_state. induction ts as [|t ts IH]; intros by_state; simpl.
  - by rewrite app_nil_r.
  - rewrite IH. destruct (String.eqb (t_from t) s) eqn:Heq.
    + apply String.eqb_eq in Heq. subst s. rewrite lookup_insert_eq. simpl.
      by rewrite <- app_assoc.
    + apply String.eqb_neq in Heq. by rewrite lookup_insert_ne.
Qed.

Lemma emit_transitions_edge target i ts t :
  In t ts ->
  In ((if unconditional (t_cond t) then "        " else "          ")
      +:+ target +:+ " = " +:+ t_to t +:+ ";")
     (emit_transitions target i ts).
Proof.
  revert i. induction ts as [|t0 ts IH]; intros i; simpl; [done|].
  intros [-> | Hin].
  - apply in_or_app. left.
    destruct (unconditional (t_cond t)); simpl; auto.
  - apply in_or_app. right. by apply IH.
Qed.

Lemma every_edge_written (g : FSMGraph) (t : Transition) :
  In t (transitions g) -> In (t_from t) (states g) ->
  In (edge_line g t) (always_comb_lines g).
Proof.
  intros Ht Hfrom. unfold always_comb_lines.
  apply in_or_app. right. apply in_or_app. right. apply in_or_app. right.
  apply in_or_app. left. apply in_concat.
  exists (emit_state (comb_target g) (group_transitions (transitions g))
                     (t_from t)).
  split; [by apply in_map|].
  unfold emit_state. apply in_or_app. right. apply in_or_app. left.
  unfold group_transitions. rewrite group_transitions_lookup.
  rewrite lookup_empty. simpl.
  assert (Hin : In t (List.filter (fun t' => String.eqb (t_from t') (t_from t))
                                  (transitions g))).
  { apply filter_In. split; [done|]. apply String.eqb_refl. }
  destruct (List.filter _ (transitions g)) as [|t0 ts] eqn:Hf; [done|].
  by apply emit_transitions_edge.
Qed.

(* ---------------- code generator ---------------- *)

Lemma mem_true (x : string) (l : list string) : mem x l = true <-> x ∈ l.
Proof. unfold mem. rewrite bool_decide_eq_true. tauto. Qed.

Lemma mem_false (x : string) (l : list string) : mem x l = false <-> x ∉ l.
Proof. unfold mem. rewrite bool_decide_eq_false. tauto. Qed.

Lemma truthy_true (s : string) : truthy s = true <-> s <> "".
Proof. destruct s; simpl; split; congruence. Qed.

Lemma size_list_to_set_le (l : list string) :
  size (list_to_set l : gset string) <= length l.
Proof.
  induction l as [|x l IH].
  - rewrite list_to_set_nil, size_empty. simpl. lia.
  - rewrite list_to_set_cons, size_union_alt, size_singleton. simpl.
    assert (Hsub : list_to_set l ∖ {[x]} ⊆ (list_to_set l : gset string))
      by apply subseteq_difference_l, reflexivity.
    pose proof (subseteq_size _ _ Hsub). lia.
Qed.

Lemma no_duplicates_iff (l : list string) :
  length l = size (list_to_set l : gset string) <-> NoDup l.
Proof.
  split.
  - induction l as [|x l IH]; intros Hlen.
    + constructor.
    + rewrite list_to_set_cons, size_union_alt, size_singleton in Hlen.
      simpl in Hlen.
      pose proof (size_list_to_set_le l) as Hle.
      assert (Hsub : list_to_set l ∖ {[x]} ⊆ (list_to_set l : gset string))
        by apply subseteq_difference_l, reflexivity.
      pose proof (subseteq_size _ _ Hsub) as Hle'.
      assert (Hsz : size (list_to_set l ∖ {[x]} : gset string)
                    = size (list_to_set l : gset string)) by lia.
      constructor.
      * intros Hin.
        assert (Hx : x ∈ (list_to_set l : gset string)) by set_solver.
        assert (Hne : list_to_set l ∖ {[x]} ⊂ (list_to_set l : gset string))
          by set_solver.
        apply subset_size in Hne. lia.
      * apply IH. lia.
  - intros H. symmetry. by apply size_list_to_set.
Qed.

Lemma validate_transitions_ok states ts :
  validate_transitions states ts = Return tt <->
  (forall t, t ∈ ts -> t_from t ∈ states /\ t_to t ∈ states).
Proof.
  induction ts as [|t ts IH]; simpl.
  - split; [intros _ t Ht; inversion Ht | done].
  - destruct (mem (t_from t) states) eqn:Hf; simpl.
    + destruct (mem (t_to t) states) eqn:Ht; simpl.
      * rewrite IH. apply mem_true in Hf, Ht. split.
        -- intros H t' Hin. apply elem_of_cons in Hin as [->|Hin]; auto.
        -- intros H t' Hin. apply H. by right.
      * apply mem_false in Ht. split; [done|].
        intros H. destruct (H t) as [_ ?]; [by left | done].
    + apply mem_false in Hf. split; [done|].
      intros H. destruct (H t) as [? _]; [by left | done].
Qed.

Lemma validate_transitions_raise states ts e :
  validate_transitions states ts = Raise e ->
  exists t, t ∈ ts /\
    (((t_from t ∉ states) /\
      e = ValueError ("Transition from unknown state: " +:+ t_from t))
     \/ ((t_to t ∉ states) /\
         e = ValueError ("Transition to unknown state: " +:+ t_to t))).
Proof.
  induction ts as [|t ts IH]; simpl; [done|].
  destruct (mem (t_from t) states) eqn:Hf; simpl.
  - destruct (mem (t_to t) states) eqn:Ht; simpl.
    + intros H. destruct (IH H) as (t' & Hin & Hc).
      exists t'. split; [by right | done].
    + intros [= <-]. apply mem_false in Ht.
      exists t. split; [by left | by right].
  - intros [= <-]. apply mem_false in Hf.
    exists t. split; [by left | by left].
Qed.

Lemma validate_graph_ok g : _validate_graph g = Return tt <-> valid_graph g.
Proof.
  unfold _validate_graph, valid_graph.
  destruct (length (states g) =? size (list_to_set (states g) : gset string))
    eqn:Hlen; simpl.
  - apply Nat.eqb_eq in Hlen. apply no_duplicates_iff in Hlen.
    destruct (validate_transitions (states g) (transitions g)) as [[]|e] eqn:Hv;
      simpl.
    + pose proof (proj1 (validate_transitions_ok _ _) Hv) as Hv'; clear Hv; rename Hv' into Hv.
      destruct (reset_state g) as [r|] eqn:Hr.
      * destruct (truthy r) eqn:Htr; simpl.
        -- destruct (mem r (states g)) eqn:Hm; simpl.
           ++ apply mem_true in Hm. split; [|done].
              intros _. repeat split; try apply Hv; auto.
              intros r' [= <-] _. done.
           ++ apply mem_false in Hm. apply truthy_true in Htr.
              split; [done|]. intros (_ & _ & H). destruct Hm. by apply H.
        -- split; [|done]. intros _. repeat split; try apply Hv; auto.
           intros r' [= <-] Hne. apply truthy_true in Hne. congruence.
      * split; [|done]. intros _. repeat split; try apply Hv; auto. done.
    + split; [done|]. intros (_ & H & _).
      apply (proj2 (validate_transitions_ok _ _)) in H. congruence.
  - apply Nat.eqb_neq in Hlen. split; [done|]. intros (H & _).
    apply no_duplicates_iff in H. done.
Qed.

Lemma validate_graph_raise g e :
  _validate_graph g = Raise e ->
  (~ NoDup (states g) /\ e = ValueError "Duplicate states found")
  \/ (exists t, t ∈ transitions g /\ (t_from t ∉ states g) /\
        e = ValueError ("Transition from unknown state: " +:+ t_from t))
  \/ (exists t, t ∈ transitions g /\ (t_to t ∉ states g) /\
        e = ValueError ("Transition to unknown state: " +:+ t_to t))
  \/ (exists r, reset_state g = Some r /\ r <> "" /\ (r ∉ states g) /\
        e = ValueError ("Reset state " +:+ r +:+ " not in states list")).
Proof.
  unfold _validate_graph.
  destruct (length (states g) =? size (list_to_set (states g) : gset string))
    eqn:Hlen; simpl.
  - destruct (validate_transitions (states g) (transitions g)) as [[]|e'] eqn:Hv;
      simpl.
    + destruct (reset_state g) as [r|] eqn:Hr; [|done].
      destruct (truthy r) eqn:Htr; simpl; [|done].
      destruct (mem r (states g)) eqn:Hm; simpl; [done|].
      intros [= <-]. apply mem_false in Hm. apply truthy_true in Htr.
      right; right; right. by exists r.
    + intros [= <-]. apply validate_transitions_raise in Hv.
      destruct Hv as (t & Hin & [[? ?]|[? ?]]).
      * right; left. by exists t.
      * right; right; left. by exists t.
  - intros [= <-]. apply Nat.eqb_neq in Hlen. left. split; [|done].
    intros H. apply no_duplicates_iff in H. done.
Qed.

(** C1. Generation raises exactly when the states list has a duplicate,
    or an end of some transition is not a state, or the reset state is a
    non-empty string that is not a state; the error raised names what is
    wrong (the duplicated states, the unknown end of the transition, the
    unknown reset state); a graph that meets the three conditions gives a
    source text, in whose next-state block every edge has its assignment
    line. *)
Theorem C1_validation self g mn :
  ((exists e, generate_code_from_graph self g mn = Raise e) <->
   (~ NoDup (states g)
    \/ (exists t, t ∈ transitions g /\
          ((t_from t ∉ states g) \/ (t_to t ∉ states g)))
    \/ (exists r, reset_state g = Some r /\ r <> "" /\ (r ∉ states g))))
  /\ (forall e, generate_code_from_graph self g mn = Raise e ->
        (~ NoDup (states g) /\ e = ValueError "Duplicate states found")
        \/ (exists t, t ∈ transitions g /\ (t_from t ∉ states g) /\
              e = ValueError ("Transition from unknown state: " +:+ t_from t))
        \/ (exists t, t ∈ transitions g /\ (t_to t ∉ states g) /\
              e = ValueError ("Transition to unknown state: " +:+ t_to t))
        \/ (exists r, reset_state g = Some r /\ r <> "" /\ (r ∉ states g) /\
              e = ValueError
                    ("Reset state " +:+ r +:+ " not in states list")))
  /\ (valid_graph g ->
      exists code, generate_code_from_graph self g mn = Return code)
  /\ (valid_graph g ->
      forall t, In t (transitions g) ->
                In (edge_line g t) (always_comb_lines g)).
Proof.
  assert (Hraise : forall e, generate_code_from_graph self g mn = Raise e ->
                             _validate_graph g = Raise e).
  { intros e. unfold generate_code_from_graph.
    destruct (_validate_graph g); simpl.
    - intros H; discriminate H.
    - intros [= ->]. reflexivity. }
  assert (Hok : valid_graph g ->
                exists code, generate_code_from_graph self g mn = Return code).
  { intros Hv. apply validate_graph_ok in Hv.
    unfold generate_code_from_graph. rewrite Hv. simpl. eauto. }
  split; [|split; [|split]]; [| |done|].
  - split.
    + intros [e He]. apply Hraise, validate_graph_raise in He.
      destruct He as [[? _]|[(t & ? & ? & _)|[(t & ? & ? & _)|(r & ? & ? & ? & _)]]].
      * by left.
      * right; left. exists t. auto.
      * right; left. exists t. auto.
      * right; right. by exists r.
    + intros Hbad.
      destruct (generate_code_from_graph self g mn) as [code|e] eqn:Hg; [|eauto].
      exfalso.
      assert (Hv : valid_graph g).
      { apply validate_graph_ok. revert Hg. unfold generate_code_from_graph.
        destruct (_validate_graph g) as [[]|]; simpl; done. }
      destruct Hv as (Hnd & Htr & Hrs).
      destruct Hbad as [?|[(t & Hin & Hc)|(r & ? & ? & ?)]]; [done| |].
      * destruct (Htr t Hin). tauto.
      * eauto.
  - intros e He. by apply validate_graph_raise, Hraise.
  - intros (_ & Hends & _) t Ht. apply every_edge_written; [done|].
    apply list_elem_of_In. apply Hends. by apply list_elem_of_In.
Qed.

Lemma calculate_enum_width_spec (n : Z) :
  (1 <= n)%Z -> _calculate_enum_width n = Z.max 1 (Z.log2_up n).
Proof.
  intros Hn. unfold _calculate_enum_width, ceil_log2.
  destruct (n <=? 2)%Z eqn:H2.
  { apply Z.leb_le in H2.
    assert (Hc : n = 1%Z \/ n = 2%Z) by lia. by destruct Hc as [-> | ->]. }
  apply Z.leb_gt in H2.
  destruct (n <=? 4)%Z eqn:H4.
  { apply Z.leb_le in H4. rewrite (Z.log2_up_unique n 2); [done | lia |].
    simpl. lia. }
  apply Z.leb_gt in H4.
  destruct (n <=? 8)%Z eqn:H8.
  { apply Z.leb_le in H8. rewrite (Z.log2_up_unique n 3); [done | lia |].
    simpl. lia. }
  apply Z.leb_gt in H8.
  destruct (n <=? 16)%Z eqn:H16.
  { apply Z.leb_le in H16. rewrite (Z.log2_up_unique n 4); [done | lia |].
    simpl. lia. }
  apply Z.leb_gt in H16.
  assert (4 < Z.log2_up n)%Z; [|lia].
  apply Z.log2_up_lt_pow2; [lia|]. simpl. lia.
Qed.

(** C6. For a graph with at least one state the width written in the
    enum declaration is the ceiling of the binary logarithm of the number
    of states, and at least 1: the least positive [w] with
    [2 ^ w >= |states|] (the least [w] at all from two states on). *)
Theorem C6_enum_width (g : FSMGraph) :
  states g <> [] ->
  let n := Z.of_nat (length (states g)) in
  let w := _calculate_enum_width n in
  w = Z.max 1 (Z.log2_up n)
  /\ (1 <= w)%Z /\ (n <= 2 ^ w)%Z
  /\ (forall w', (1 <= w')%Z -> (n <= 2 ^ w')%Z -> (w <= w')%Z)
  /\ ((2 <= n)%Z ->
      forall w', (0 <= w')%Z -> (n <= 2 ^ w')%Z -> (w <= w')%Z)
  /\ _generate_enum g
     = join (String "010" "")
         ["  typedef enum logic [" +:+ of_int (w - 1) +:+ ":0] {";
          join ("," +:+ String "010" "")
               (map (fun state => "    " +:+ state) (states g));
          "  } " +:+ enum_name g +:+ ";"].
Proof.
  intros Hne n w.
  assert (Hn : (1 <= n)%Z).
  { subst n. destruct (states g); [done | simpl; lia]. }
  assert (Hw : w = Z.max 1 (Z.log2_up n)) by by apply calculate_enum_width_spec.
  pose proof (Z.log2_up_nonneg n) as Hnn.
  split; [done|]. split; [lia|]. split; [|split; [|split]].
  - rewrite Hw. apply Z.le_trans with (2 ^ Z.log2_up n)%Z.
    + apply Z.log2_up_le_pow2; lia.
    + apply Z.pow_le_mono_r; lia.
  - intros w' Hw' Hle. apply Z.log2_up_le_pow2 in Hle; lia.
  - intros Hn2 w' Hw' Hle. apply Z.log2_up_le_pow2 in Hle; [|lia].
    assert (0 < Z.log2_up n)%Z by (apply Z.log2_up_pos; lia). lia.
  - unfold _generate_enum. fold n. fold w. destruct (states g); [done|].
    reflexivity.
Qed.

Lemma C6_witness :
  states g_two <> [] /\
  _calculate_enum_width (Z.of_nat (length (states g_two))) = 1%Z.
Proof.
  split; [discriminate|].
  pose proof (C6_enum_width g_two) as H.
  destruct H as (H & _); [discriminate|]. rewrite H. reflexivity.
Defined.

(** The keyword before a conditional edge is chosen by the place of the
    edge in its whole group, unconditional edges counted. *)
Lemma emit_transitions_keyword target i before t after :
  unconditional (t_cond t) = false ->
  In ((if i + length before =? 0 then "        if (" else "        else if (")
      +:+ t_cond t +:+ ")")
     (emit_transitions target i (before ++ t :: after)).
Proof.
  intros Hc. revert i. induction before as [|t0 before IH]; intros i; simpl.
  - rewrite Hc. left. rewrite Nat.add_0_r. by destruct (i =? 0).
  - apply in_or_app. right.
    replace (i + S (length before)) with (S i + length before) by lia.
    apply IH.
Qed.

(** C3 (the code at the failing input). In a group whose first edge is
    unconditional, the first conditional edge is introduced by [else if]:
    the index tested is the one in the whole group. *)
Theorem C3_else_if_without_if :
  always_comb_lines g_two
  = ["  always_comb begin";
     "    next_state = state;";
     "    unique case (state)";
     "      A: begin";
     "        next_state = B;";
     "        else if (stay)";
     "          next_state = A;";
     "      end";
     "      B: begin";
     "        next_state = B;";
     "      end";
     "      default: begin";
     "        next_state = state;";
     "      end";
     "    endcase";
     "  end"].
Proof. vm_compute. reflexivity. Qed.

Lemma written_flags_spec always name f0 :
  foldl (fun flags a =>
           if _var_written_in_always a name then
             if _is_clocked_always a then (true, snd flags)
             else if _is_comb_always a then (fst flags, true)
             else flags
           else flags) f0 always
  = (fst f0 || existsb (fun a => _var_written_in_always a name
                                 && _is_clocked_always a) always,
     snd f0 || existsb (fun a => _var_written_in_always a name
                                 && negb (_is_clocked_always a)
                                 && _is_comb_always a) always).
Proof.
  revert f0. induction always as [|a l IH]; intros [c b]; simpl.
  - by rewrite !orb_false_r.
  - rewrite IH.
    destruct (_var_written_in_always a name), (_is_clocked_always a),
      (_is_comb_always a); simpl; rewrite ?orb_true_r, ?orb_false_r;
      reflexivity.
Qed.

Lemma written_maps_spec always vars (mc mb : gmap string bool) name :
  let maps := foldl (fun maps v =>
                let name := cand_name v in
                let flags := written_flags always name in
                (<[ name := fst flags ]> (fst maps),
                 <[ name := snd flags ]> (snd maps)))
             (mc, mb) vars in
  (fst maps !! name
   = if bool_decide (name ∈ map cand_name vars)
     then Some (fst (written_flags always name)) else mc !! name)
  /\ (snd maps !! name
      = if bool_decide (name ∈ map cand_name vars)
        then Some (snd (written_flags always name)) else mb !! name).
Proof.
  revert mc mb. induction vars as [|v vars IH]; intros mc mb; simpl.
  - split; reflexivity.
  - destruct (IH (<[cand_name v := fst (written_flags always (cand_name v))]> mc)
                 (<[cand_name v := snd (written_flags always (cand_name v))]> mb))
      as [H1 H2].
    simpl in H1, H2. rewrite H1, H2.
    destruct (decide (name = cand_name v)) as [->|Hne].
    + rewrite !lookup_insert_eq.
      rewrite (bool_decide_eq_true_2 (cand_name v ∈ cand_name v :: _))
        by apply list_elem_of_here.
      split; by case_bool_decide.
    + rewrite !lookup_insert_ne by done.
      split; repeat case_bool_decide; try reflexivity;
        exfalso; set_solver.
Qed.

Lemma map_is_fmap {A B : Type} (f : A -> B) (l : list A) : map f l = f <$> l.
Proof. reflexivity. Qed.

Lemma filter_written_clock scope_node vars :
  let maps := written_maps (_collect_always_nodes scope_node) vars in
  List.filter (fun v => default false (fst maps !! cand_name v)) vars
  = List.filter (fun v => written_in_clocked scope_node (cand_name v)) vars
  /\ List.filter (fun v => default false (snd maps !! cand_name v)) vars
     = List.filter (fun v => written_in_comb scope_node (cand_name v)) vars.
Proof.
  intros maps.
  assert (Hl : forall v, In v vars ->
             default false (fst maps !! cand_name v)
             = written_in_clocked scope_node (cand_name v)
             /\ default false (snd maps !! cand_name v)
                = written_in_comb scope_node (cand_name v)).
  { intros v Hv. subst maps. unfold written_maps.
    destruct (written_maps_spec (_collect_always_nodes scope_node) vars ∅ ∅
                                (cand_name v)) as [H1 H2].
    simpl in H1, H2. rewrite H1, H2.
    rewrite bool_decide_eq_true_2 by (apply list_elem_of_In, in_map, Hv).
    simpl. unfold written_flags. rewrite written_flags_spec. simpl.
    done. }
  split; apply filter_ext_in; intros v Hv; destruct (Hl v Hv) as [H1 H2];
    done.
Qed.

Lemma pick_best_spec score cands b0 s0 :
  let r := pick_best score cands (b0, s0) in
  ((forall v, v ∈ cands -> (score (cand_name v) <= s0)%Z) /\ r = (b0, s0))
  \/ exists i v,
       cands !! i = Some v /\ r = (Some (cand_name v), score (cand_name v))
       /\ (s0 < score (cand_name v))%Z
       /\ (forall j v', cands !! j = Some v' ->
             (score (cand_name v') <= score (cand_name v))%Z)
       /\ (forall j v', j < i -> cands !! j = Some v' ->
             (score (cand_name v') < score (cand_name v))%Z).
Proof.
  revert b0 s0. induction cands as [|v cands IH]; intros b0 s0; simpl.
  - left. split; [intros v Hv; inversion Hv | done].
  - unfold pick_best in *. simpl.
    destruct (s0 <? score (cand_name v))%Z eqn:Hlt.
    + apply Z.ltb_lt in Hlt.
      destruct (IH (Some (cand_name v)) (score (cand_name v)))
        as [[Hall Hr] | (i & v' & Hi & Hr & Hs & Hle & Hbefore)].
      * right. exists 0, v. simpl. split; [done|]. split; [done|].
        split; [done|]. split.
        -- intros [|j] v' Hj; simpl in Hj.
           ++ injection Hj as <-. lia.
           ++ apply Hall. by eapply list_elem_of_lookup_2.
        -- intros j v' Hj. lia.
      * right. exists (S i), v'. simpl. split; [done|]. split; [done|].
        split; [lia|]. split.
        -- intros [|j] v'' Hj; simpl in Hj.
           ++ injection Hj as <-. lia.
           ++ by eapply Hle.
        -- intros [|j] v'' Hji Hj; simpl in Hj.
           ++ injection Hj as <-. lia.
           ++ eapply Hbefore; [|done]. lia.
    + apply Z.ltb_ge in Hlt.
      destruct (IH b0 s0)
        as [[Hall Hr] | (i & v' & Hi & Hr & Hs & Hle & Hbefore)].
      * left. split; [|done]. intros v' Hv'.
        apply elem_of_cons in Hv' as [->|Hv']; [lia | by apply Hall].
      * right. exists (S i), v'. simpl. split; [done|]. split; [done|].
        split; [lia|]. split.
        -- intros [|j] v'' Hj; simpl in Hj.
           ++ injection Hj as <-. lia.
           ++ by eapply Hle.
        -- intros [|j] v'' Hji Hj; simpl in Hj.
           ++ injection Hj as <-. lia.
           ++ eapply Hbefore; [|done]. lia.
Qed.

Lemma score_state_name_bounds name : (-2 <= score_state_name name <= 5)%Z.
Proof.
  unfold score_state_name.
  repeat match goal with |- context [if ?b then _ else _] => destruct b end;
    lia.
Qed.

Lemma score_next_name_bounds sv name : (-3 <= score_next_name sv name <= 6)%Z.
Proof.
  unfold score_next_name.
  repeat match goal with |- context [if ?b then _ else _] => destruct b end;
    lia.
Qed.

(** The result of a selection loop started below every score. *)
Lemma pick_best_first_max score cands :
  (forall n, (-999 < score n)%Z) ->
  match pick_best score cands (None, (-999)%Z) with
  | (Some best, s) =>
      first_max score (map cand_name cands) best /\ s = score best
  | (None, s) => cands = [] /\ s = (-999)%Z
  end.
Proof.
  intros Hlow.
  destruct (pick_best_spec score cands None (-999)%Z)
    as [[Hall Hr] | (i & v & Hi & Hr & Hs & Hle & Hbefore)].
  - rewrite Hr. split; [|done]. destruct cands as [|v ?]; [done|].
    specialize (Hall v (list_elem_of_here _ _)). specialize (Hlow (cand_name v)).
    lia.
  - rewrite Hr. split; [|done]. exists i. split; [|split].
    + by rewrite map_is_fmap, list_lookup_fmap, Hi.
    + intros j n Hj. rewrite map_is_fmap, list_lookup_fmap in Hj.
      destruct (cands !! j) as [v'|] eqn:Hv'; [|done].
      injection Hj as <-. by eapply Hle.
    + intros j n Hji Hj. rewrite map_is_fmap, list_lookup_fmap in Hj.
      destruct (cands !! j) as [v'|] eqn:Hv'; [|done].
      injection Hj as <-. by eapply Hbefore.
Qed.

Lemma choose_state_and_next_eq scope_node vars :
  _choose_state_and_next scope_node vars
  = let clocked :=
      List.filter (fun v => written_in_clocked scope_node (cand_name v)) vars in
    let comb :=
      List.filter (fun v => written_in_comb scope_node (cand_name v)) vars in
    let state_candidates := match clocked with [] => vars | _ => clocked end in
    let best := pick_best score_state_name state_candidates (None, (-999)%Z) in
    let next := pick_best (score_next_name (fst best)) comb (None, (-999)%Z) in
    (fst best, if (-999 <? snd next)%Z then fst next else None).
Proof.
  unfold _choose_state_and_next.
  destruct (filter_written_clock scope_node vars) as [Hc Hb].
  destruct (written_maps (_collect_always_nodes scope_node) vars)
    as [written_clock written_comb].
  simpl in Hc, Hb. rewrite Hc, Hb. simpl.
  destruct (pick_best score_state_name _ _) as [best_state_var best_score].
  simpl.
  destruct (pick_best (score_next_name best_state_var) _ _)
    as [best_next_var best_next_score].
  reflexivity.
Qed.

(** C5. The primary state variable: the score of a name is the sum of +3
    (the lowered name is "state"), +2 (it contains "state") and -2 (it
    contains "next" or "nxt", or ends in "_d" or "_ns"); the variable
    returned is the first of greatest score among the variables written in
    a clocked block, and among the whole group when none is. *)
Theorem C5_primary_state_variable (scope_node : Node) (vars : list Candidate) :
  (forall name,
      score_state_name name
      = ((if String.eqb (lower name) "state" then 3 else 0)
         + (if contains "state" (lower name) then 2 else 0)
         - (if contains "next" (lower name) || contains "nxt" (lower name)
               || endswith (lower name) "_d" || endswith (lower name) "_ns"
            then 2 else 0))%Z)
  /\ (let clocked :=
        List.filter (fun v => written_in_clocked scope_node (cand_name v))
                    vars in
      let candidates := match clocked with [] => vars | _ => clocked end in
      match fst (_choose_state_and_next scope_node vars) with
      | Some best => first_max score_state_name (map cand_name candidates) best
      | None => vars = []
      end)
  /\ ((forall v, In v vars ->
         written_in_clocked scope_node (cand_name v) = false) ->
      match fst (_choose_state_and_next scope_node vars) with
      | Some best => first_max score_state_name (map cand_name vars) best
      | None => vars = []
      end).
Proof.
  assert (Hmain :
    let clocked :=
      List.filter (fun v => written_in_clocked scope_node (cand_name v))
                  vars in
    let candidates := match clocked with [] => vars | _ => clocked end in
    match fst (_choose_state_and_next scope_node vars) with
    | Some best => first_max score_state_name (map cand_name candidates) best
    | None => vars = []
    end).
  { intros clocked candidates. rewrite choose_state_and_next_eq. simpl.
    fold clocked. fold candidates.
    pose proof (pick_best_first_max score_state_name candidates) as H.
    destruct (pick_best score_state_name candidates (None, (-999)%Z))
      as [[best|] s]; simpl.
    - apply H. intros n. pose proof (score_state_name_bounds n). lia.
    - destruct H as [H _].
      { intros n. pose proof (score_state_name_bounds n). lia. }
      subst candidates. destruct clocked; [done | discriminate]. }
  split; [|split].
  - intros name. unfold score_state_name.
    repeat match goal with |- context [if ?b then _ else _] => destruct b end;
      reflexivity.
  - exact Hmain.
  - intros Hnone. simpl in Hmain.
    replace (List.filter (fun v => written_in_clocked scope_node (cand_name v))
                         vars) with (@nil Candidate) in Hmain; [exact Hmain|].
    symmetry. clear Hmain. induction vars as [|v vars IH]; [done|].
    simpl. rewrite (Hnone v) by (by left). apply IH.
    intros v' Hv'. apply Hnone. by right.
Qed.

(** C10. When a variable of the group is written in a combinational
    block, the classifier returns a next-state variable: the first of
    greatest next-state score among the variables written in
    combinational blocks, whatever the sign of that score. It can be the
    primary variable itself, with a negative score. *)
Theorem C10_next_state_variable :
  (forall (scope_node : Node) (vars : list Candidate),
      (exists v, In v vars /\ written_in_comb scope_node (cand_name v) = true) ->
      let state_var := fst (_choose_state_and_next scope_node vars) in
      let comb :=
        List.filter (fun v => written_in_comb scope_node (cand_name v)) vars in
      exists next,
        snd (_choose_state_and_next scope_node vars) = Some next
        /\ first_max (score_next_name state_var) (map cand_name comb) next)
  /\ (_choose_state_and_next single_register_module single_register_group
      = (Some "state", Some "state")
      /\ score_next_name (Some "state") "state" = (-2)%Z).
Proof.
  split; [|split; vm_compute; reflexivity].
  intros scope_node vars (v & Hv & Hw) state_var comb.
  subst state_var. rewrite choose_state_and_next_eq. simpl. fold comb.
  set (sv := fst (pick_best score_state_name _ _)).
  pose proof (pick_best_first_max (score_next_name sv) comb) as H.
  assert (Hlow : forall n, (-999 < score_next_name sv n)%Z).
  { intros n. pose proof (score_next_name_bounds sv n). lia. }
  specialize (H Hlow).
  destruct (pick_best (score_next_name sv) comb (None, (-999)%Z))
    as [[next|] s]; simpl.
  - destruct H as [H ->]. exists next.
    specialize (Hlow next). apply Z.ltb_lt in Hlow. rewrite Hlow. done.
  - destruct H as [H _]. exfalso.
    assert (Hin : In v comb) by (apply filter_In; done).
    rewrite H in Hin. done.
Qed.

Lemma C10_witness :
  exists next,
    snd (_choose_state_and_next single_register_module single_register_group)
    = Some next.
Proof.
  destruct (proj1 C10_next_state_variable single_register_module
                  single_register_group) as (next & Hn & _).
  - exists (mkCandidate
              (mkEnumVar "state" "state_t" ["IDLE"; "RUN"] "module m" nopos)
              (mkFsmReason true false false)).
    split; [left; reflexivity | vm_compute; reflexivity].
  - exists next. exact Hn.
Defined.

Lemma C5_witness :
  match fst (_choose_state_and_next single_register_module
                                    single_register_group) with
  | Some best =>
      first_max score_state_name (map cand_name single_register_group) best
  | None => single_register_group = []
  end.
Proof.
  apply (proj2 (proj2 (C5_primary_state_variable single_register_module
                                                 single_register_group))).
  intros v [<- | []]. vm_compute. reflexivity.
Defined.

Lemma find_first_split {A : Type} (f : A -> bool) (l : list A) (x : A) :
  List.find f l = Some x ->
  exists l1 l2, l = l1 ++ x :: l2 /\ f x = true
                /\ forall y, In y l1 -> f y = false.
Proof.
  induction l as [|y l IH]; simpl; [done|].
  destruct (f y) eqn:Hy.
  - intros [= ->]. exists [], l. split; [done|]. split; [done|].
    intros ? [].
  - intros H. destruct (IH H) as (l1 & l2 & -> & Hx & Hl1).
    exists (y :: l1), l2. split; [done|]. split; [done|].
    intros z [<- | Hz]; auto.
Qed.

(** What the loops of [_detect_reset_state] return: the first member,
    in the order of the enum, that passes the test of the inner loop in
    the first clocked block in which a member passes it; nothing when no
    member passes it in any block. *)
Lemma detect_reset_state_first_hit (always_nodes : list Node)
      (state_var : string) (enum_members : list string) :
  match _detect_reset_state always_nodes state_var enum_members with
  | Some m =>
      exists before a after earlier later,
        always_nodes = before ++ a :: after
        /\ enum_members = earlier ++ m :: later
        /\ reset_assigned a state_var m = true
        /\ (forall m', In m' earlier -> reset_assigned a state_var m' = false)
        /\ (forall a' m', In a' before -> In m' enum_members ->
              reset_assigned a' state_var m' = false)
  | None =>
      forall a m, In a always_nodes -> In m enum_members ->
                  reset_assigned a state_var m = false
  end.
Proof.
  induction always_nodes as [|a rest IH]; simpl.
  - intros a m [].
  - assert (Hskip :
      (forall m, In m enum_members -> reset_assigned a state_var m = false) ->
      match _detect_reset_state rest state_var enum_members with
      | Some m =>
          exists before a0 after earlier later,
            a :: rest = before ++ a0 :: after
            /\ enum_members = earlier ++ m :: later
            /\ reset_assigned a0 state_var m = true
            /\ (forall m', In m' earlier ->
                  reset_assigned a0 state_var m' = false)
            /\ (forall a' m', In a' before -> In m' enum_members ->
                  reset_assigned a' state_var m' = false)
      | None =>
          forall a0 m, a = a0 \/ In a0 rest -> In m enum_members ->
                       reset_assigned a0 state_var m = false
      end).
    { intros Ha. destruct (_detect_reset_state rest state_var enum_members).
      - destruct IH as (before & a0 & after & earlier & later
                        & -> & Hm & Hr & He & Hb).
        exists (a :: before), a0, after, earlier, later.
        repeat split; try done.
        intros a' m' [<- | Ha'] Hm'; auto.
      - intros a0 m [<- | Ha0] Hm; auto. }
    destruct (_is_clocked_always a) eqn:Hclk; simpl.
    2:{ apply Hskip. intros m _. unfold reset_assigned. by rewrite Hclk. }
    destruct (contains state_var (collect_identifiers_inline a)) eqn:Hsv; simpl.
    2:{ apply Hskip. intros m _. unfold reset_assigned.
        by rewrite Hclk, Hsv. }
    unfold reset_in_block.
    destruct (List.find _ enum_members) as [m|] eqn:Hfind.
    + apply find_first_split in Hfind.
      destruct Hfind as (earlier & later & Hm & Hr & He).
      exists [], a, rest, earlier, later. split; [done|]. split; [done|].
      unfold reset_assigned. rewrite Hclk, Hsv. simpl.
      split; [done|]. split; [exact He|]. intros ? ? [].
    + apply Hskip. intros m Hm. unfold reset_assigned.
      rewrite Hclk, Hsv. simpl.
      exact (find_none _ _ Hfind m Hm).
Qed.

Lemma index_first_occurrence text m i :
  String.index 0 m text = Some i <-> first_occurrence text m i.
Proof.
  split.
  - intros H. split.
    + by eapply String.index_correct1.
    + intros p Hp. eapply String.index_correct2; [done | lia | done].
  - intros [Hs Hmin].
    destruct (String.index 0 m text) as [j|] eqn:Hj.
    + f_equal. destruct (Nat.lt_trichotomy j i) as [Hlt | [-> | Hgt]]; [|done|].
      * exfalso. apply (Hmin j Hlt). by eapply String.index_correct1.
      * exfalso. eapply String.index_correct2; [exact Hj | lia | exact Hgt |].
        exact Hs.
    + exfalso. destruct m as [|c m].
      * apply String.index_correct4 in Hj. destruct text; simpl in *; lia.
      * eapply String.index_correct3; [exact Hj | done | | exact Hs]. lia.
Qed.

Lemma find_nonneg text m :
  (find text m =? -1)%Z = false ->
  exists i, find text m = Z.of_nat i /\ first_occurrence text m i.
Proof.
  unfold find. destruct (String.index 0 m text) as [i|] eqn:Hi.
  - intros _. exists i. split; [done|]. by apply index_first_occurrence.
  - done.
Qed.

Lemma find_absent text m :
  (find text m =? -1)%Z = true -> forall i, ~ first_occurrence text m i.
Proof.
  unfold find. destruct (String.index 0 m text) as [j|] eqn:Hj.
  - intros H. apply Z.eqb_eq in H. lia.
  - intros _ i Hi. apply index_first_occurrence in Hi. congruence.
Qed.

Lemma find_of_first_occurrence text m i :
  first_occurrence text m i -> find text m = Z.of_nat i.
Proof.
  intros H. apply index_first_occurrence in H. unfold find. by rewrite H.
Qed.

(** The state of the loop of [_find_first_enum_in_text] after the members
    [l], from a state where nothing or the member [m0] at [i0] is held. *)
Lemma find_first_enum_loop text (l : list string) (start : option (nat * string)) :
  let step := fun (best : option Z * option string) m =>
                let idx := find text m in
                if negb (idx =? -1)%Z
                   && match fst best with
                      | None => true
                      | Some best_idx => (idx <? best_idx)%Z
                      end
                then (Some idx, Some m) else best in
  let init := match start with
              | None => (None, None)
              | Some (i0, m0) => (Some (Z.of_nat i0), Some m0)
              end in
  match foldl step init l with
  | (Some idx, Some m) =>
      exists i, idx = Z.of_nat i
        /\ (forall m' i', In m' l -> first_occurrence text m' i' -> i <= i')
        /\ ((Some (i, m) = start)
            \/ (In m l /\ first_occurrence text m i
                /\ match start with None => True | Some (i0, _) => i < i0 end))
        /\ match start with None => True | Some (i0, _) => i <= i0 end
  | (None, None) =>
      start = None /\ forall m i, In m l -> ~ first_occurrence text m i
  | _ => False
  end.
Proof.
  intros step init. subst init. revert start.
  induction l as [|m l IH]; intros start; simpl.
  - destruct start as [[i0 m0]|]; simpl.
    + exists i0. split; [done|]. split; [intros ? ? []|]. split; [by left|done].
    + split; [done|]. intros ? ? [].
  - unfold step at 2. simpl.
    destruct (find text m =? -1)%Z eqn:Hf; simpl.
    + (* [m] does not occur *)
      pose proof (find_absent _ _ Hf) as Habs.
      replace (match start with
               | Some (i0, m0) => (Some (Z.of_nat i0), Some m0)
               | None => (None, None)
               end)
        with (match start with
              | None => (@None Z, @None string)
              | Some (i0, m0) => (Some (Z.of_nat i0), Some m0)
              end) by by destruct start as [[]|].
      specialize (IH start).
      destruct (foldl step _ l) as [[idx|] [mm|]]; try done.
      * destruct IH as (i & -> & Hmin & Hwho & Hle). exists i.
        split; [done|]. split.
        { intros m' i' [<- | Hin] Hocc; [by destruct (Habs i') | eauto]. }
        split; [|done].
        destruct Hwho as [? | (? & ? & ?)]; [by left | right; auto].
      * destruct IH as [-> Hno]. split; [done|].
        intros m' i' [<- | Hin]; [apply Habs | by apply Hno].
    + destruct (find_nonneg _ _ Hf) as (i & Hfi & Hocc).
      assert (Hnew : match start with
                     | None => true
                     | Some (i0, _) => (find text m <? Z.of_nat i0)%Z
                     end = true ->
                foldl step
                  (if match
                        (match start with
                         | Some (i0, m0) => (Some (Z.of_nat i0), Some m0)
                         | None => (None, None)
                         end).1
                      with
                      | Some best_idx => (find text m <? best_idx)%Z
                      | None => true
                      end
                   then (Some (find text m), Some m)
                   else match start with
                        | Some (i0, m0) => (Some (Z.of_nat i0), Some m0)
                        | None => (None, None)
                        end) l
                = foldl step (Some (Z.of_nat i), Some m) l).
      { intros H. destruct start as [[i0 m0]|]; simpl in *; rewrite ?H, Hfi;
          done. }
      destruct (match start with
                | None => true
                | Some (i0, _) => (find text m <? Z.of_nat i0)%Z
                end) eqn:Hcmp.
      * rewrite (Hnew eq_refl). clear Hnew.
        specialize (IH (Some (i, m))). simpl in IH.
        destruct (foldl step _ l) as [[idx|] [mm|]]; try done;
          [|by destruct IH].
        destruct IH as (j & -> & Hmin & Hwho & Hle). exists j.
        split; [done|]. split.
        { intros m' i' [<- | Hin] Ho'; [|eauto].
          apply find_of_first_occurrence in Ho'. lia. }
        assert (Hltstart : match start with
                           | None => True
                           | Some (i0, _) => i < i0
                           end).
        { destruct start as [[i0 ?]|]; [|done].
          apply Z.ltb_lt in Hcmp. lia. }
        split.
        { right. destruct Hwho as [[= -> ->] | (Hin & Ho & Hlt)].
          - split; [by left|]. split; [done|]. done.
          - split; [by right|]. split; [done|].
            destruct start as [[i0 ?]|]; [lia | done]. }
        destruct start as [[i0 ?]|]; [lia | done].
      * destruct start as [[i0 m0]|]; [|done]. simpl in *.
        rewrite Hcmp. apply Z.ltb_ge in Hcmp.
        specialize (IH (Some (i0, m0))). simpl in IH.
        destruct (foldl step _ l) as [[idx|] [mm|]]; try done;
          [|by destruct IH].
        destruct IH as (j & -> & Hmin & Hwho & Hle). exists j.
        split; [done|]. split.
        { intros m' i' [<- | Hin] Ho'; [|eauto].
          apply find_of_first_occurrence in Ho'. lia. }
        split; [|done].
        destruct Hwho as [? | (? & ? & ?)]; [by left | right; auto].
Qed.

Lemma find_first_enum_spec enum_members text :
  match _find_first_enum_in_text enum_members text with
  | Some m => first_member enum_members text m
  | None => forall m i, In m enum_members -> ~ first_occurrence text m i
  end.
Proof.
  unfold _find_first_enum_in_text.
  pose proof (find_first_enum_loop text enum_members None) as H.
  simpl in H.
  destruct (foldl _ (None, None) enum_members) as [[idx|] [m|]]; simpl;
    try done.
  - destruct H as (i & -> & Hmin & [? | (Hin & Ho & _)] & _); [done|].
    split; [done|]. exists i. split; [done|]. exact Hmin.
  - by destruct H.
Qed.

(* ---------------- finditer ---------------- *)

Lemma finditer_from_starts match_at skip pos text m :
  In m (finditer_from match_at skip pos text) -> pos <= m_start m.
Proof.
  revert skip pos. induction text as [|c text IH]; intros skip pos.
  - destruct skip; simpl; [|done].
    destruct (match_at "") as [[g len]|]; simpl; [|done].
    intros [<- | []]. simpl. lia.
  - destruct skip; simpl.
    + destruct (match_at (String c text)) as [[g len]|]; simpl.
      * intros [<- | Hin]; [simpl; lia|]. apply IH in Hin. lia.
      * intros Hin. apply IH in Hin. lia.
    + intros Hin. apply IH in Hin. lia.
Qed.

Lemma finditer_from_sorted match_at skip pos text :
  StronglySorted (fun a b => m_start a < m_start b)
                 (finditer_from match_at skip pos text).
Proof.
  revert skip pos. induction text as [|c text IH]; intros skip pos.
  - destruct skip; simpl; [|constructor].
    destruct (match_at "") as [[g len]|]; simpl; repeat constructor.
  - destruct skip; simpl; [|apply IH].
    destruct (match_at (String c text)) as [[g len]|]; simpl; [|apply IH].
    constructor; [apply IH|].
    apply List.Forall_forall. intros m Hm.
    apply finditer_from_starts in Hm. simpl. lia.
Qed.

Lemma finditer_sorted match_at text :
  StronglySorted (fun a b => m_start a < m_start b) (finditer match_at text).
Proof. apply finditer_from_sorted. Qed.

Lemma sorted_filter {A : Type} (R : A -> A -> Prop) (f : A -> bool) l :
  StronglySorted R l -> StronglySorted R (List.filter f l).
Proof.
  induction 1 as [|x l Hs IH Hall]; simpl; [constructor|].
  destruct (f x); [|done]. constructor; [done|].
  apply List.Forall_forall. intros y Hy. apply filter_In in Hy as [Hy _].
  rewrite List.Forall_forall in Hall. by apply Hall.
Qed.

Lemma last_In {A : Type} (l : list A) (d : A) : l <> [] -> In (List.last l d) l.
Proof.
  intros H. destruct (exists_last H) as (l' & a & ->).
  rewrite last_last. apply in_or_app. right. by left.
Qed.

Lemma sorted_last {A : Type} (R : A -> A -> Prop) (l : list A) (d x : A) :
  StronglySorted R l -> In x l -> x = List.last l d \/ R x (List.last l d).
Proof.
  induction 1 as [|y l Hs IH Hall]; [done|].
  intros [<- | Hin].
  - destruct l as [|z l]; [by left|]. right.
    rewrite List.Forall_forall in Hall. apply Hall.
    change (List.last (y :: z :: l) d) with (List.last (z :: l) d).
    by apply last_In.
  - destruct l as [|z l]; [done|].
    change (List.last (y :: z :: l) d) with (List.last (z :: l) d). auto.
Qed.

Lemma guard_before_spec text start :
  guard_at text start (guard_before (finditer if_match_at text) start).
Proof.
  unfold guard_before.
  set (ifs := finditer if_match_at text).
  destruct (List.filter (fun m => m_start m <? start) ifs) as [|im0 prev]
    eqn:Hprev.
  - right. split; [|done]. intros im Hin Hlt.
    assert (Hf : In im (List.filter (fun m => m_start m <? start) ifs)).
    { apply filter_In. split; [done|]. by apply Nat.ltb_lt. }
    rewrite Hprev in Hf. done.
  - left. rewrite <- Hprev.
    set (prev_ifs := List.filter (fun m => m_start m <? start) ifs).
    assert (Hne : prev_ifs <> []) by (subst prev_ifs; by rewrite Hprev).
    exists (List.last prev_ifs (mkMatch 0 "")). split; [|done].
    pose proof (last_In prev_ifs (mkMatch 0 "") Hne) as Hlast.
    apply filter_In in Hlast as [Hin Hlt]. apply Nat.ltb_lt in Hlt.
    split; [done|]. split; [done|].
    intros im' Hin' Hlt'.
    assert (Hf : In im' prev_ifs).
    { apply filter_In. split; [done|]. by apply Nat.ltb_lt. }
    destruct (sorted_last (fun a b => m_start a < m_start b) prev_ifs
                          (mkMatch 0 "") im') as [-> | Hr]; [|done|lia|lia].
    apply sorted_filter, finditer_sorted.
Qed.

Lemma guard_at_unique text start c1 c2 :
  guard_at text start c1 -> guard_at text start c2 -> c1 = c2.
Proof.
  intros [(im1 & (Hin1 & Hlt1 & Hmax1) & ->) | [Hno1 ->]]
         [(im2 & (Hin2 & Hlt2 & Hmax2) & ->) | [Hno2 ->]].
  - assert (Heq : m_start im1 = m_start im2).
    { specialize (Hmax1 im2 Hin2 Hlt2). specialize (Hmax2 im1 Hin1 Hlt1). lia. }
    pose proof (finditer_sorted if_match_at text) as Hs.
    assert (im1 = im2); [|by subst].
    clear -Hs Hin1 Hin2 Heq. induction Hs as [|x l Hs IH Hall]; [done|].
    rewrite List.Forall_forall in Hall.
    destruct Hin1 as [<- | Hin1], Hin2 as [<- | Hin2]; auto.
    + specialize (Hall _ Hin2). lia.
    + specialize (Hall _ Hin1). lia.
  - destruct (Hno2 im1); done.
  - destruct (Hno1 im2); done.
  - done.
Qed.

(* ---------------- dedup ---------------- *)

Lemma dedup_from_In {A K : Type} `{EqDecision K} (key : A -> K) seen l x :
  In x (dedup_from key seen l) -> In x l /\ key x ∉ seen.
Proof.
  revert seen. induction l as [|y l IH]; intros seen; simpl; [done|].
  case_bool_decide as Hy.
  - intros H. apply IH in H as [? ?]. auto.
  - intros [<- | H]; [auto|]. apply IH in H as [? Hn]. split; [auto|].
    intros Hs. apply Hn. by right.
Qed.

Lemma dedup_from_complete {A K : Type} `{EqDecision K} (key : A -> K) seen l x :
  In x l -> key x ∉ seen ->
  exists y, In y (dedup_from key seen l) /\ key y = key x.
Proof.
  revert seen. induction l as [|y l IH]; intros seen; simpl; [done|].
  intros [<- | Hin] Hns.
  - rewrite bool_decide_eq_false_2 by done. exists y. split; [by left|done].
  - case_bool_decide as Hy; [by apply IH|].
    destruct (decide (key x = key y)) as [Heq|Hne].
    + exists y. split; [by left|done].
    + destruct (IH (key y :: seen) Hin) as (z & Hz & Hk).
      { intros [?|?]%elem_of_cons; done. }
      exists z. split; [by right|done].
Qed.

Lemma dedup_from_NoDup {A K : Type} `{EqDecision K} (key : A -> K) seen l :
  NoDup (map key (dedup_from key seen l)).
Proof.
  revert seen. induction l as [|y l IH]; intros seen; simpl; [constructor|].
  case_bool_decide as Hy; [apply IH|]. simpl. constructor; [|apply IH].
  intros Hin. apply list_elem_of_In, in_map_iff in Hin as (z & Hk & Hz).
  apply dedup_from_In in Hz as [_ Hn]. apply Hn. rewrite Hk. by left.
Qed.

Lemma dedup_by_id_In {A : Type} `{EqDecision A} (l : list A) x :
  In x (dedup_by (fun r => r) l) <-> In x l.
Proof.
  unfold dedup_by. split.
  - intros H. by apply dedup_from_In in H as [? _].
  - intros H. destruct (dedup_from_complete (fun r => r) [] l x H) as (y & ? & ->);
      [apply not_elem_of_nil | done].
Qed.

Lemma string_app_cons a s1 s2 : String a s1 +:+ s2 = String a (s1 +:+ s2).
Proof. reflexivity. Qed.

Lemma string_app_length s1 s2 :
  String.length (s1 +:+ s2) = String.length s1 + String.length s2.
Proof.
  induction s1 as [|a s1 IH]; [done|].
  rewrite string_app_cons. simpl. by rewrite IH.
Qed.

Lemma string_app_assoc s1 s2 s3 : (s1 +:+ s2) +:+ s3 = s1 +:+ s2 +:+ s3.
Proof.
  induction s1 as [|a s1 IH]; [done|].
  rewrite !string_app_cons. by rewrite IH.
Qed.

Lemma drop_prefix_Some p s r : drop_prefix p s = Some r -> s = p +:+ r.
Proof.
  revert s. induction p as [|a p IH]; intros s; simpl.
  - by intros [= ->].
  - destruct s as [|b s]; [done|].
    destruct (Ascii.eqb a b) eqn:Hab; [|done].
    apply Ascii.eqb_eq in Hab as ->. intros H. by rewrite (IH _ H).
Qed.

Lemma span_spec p s a b :
  span p s = (a, b) ->
  s = a +:+ b /\ all_chars p a = true
  /\ match b with "" => True | String c _ => p c = false end.
Proof.
  revert a b. induction s as [|c s IH]; intros a b; simpl.
  - by intros [= <- <-].
  - destruct (p c) eqn:Hc.
    + destruct (span p s) as [a' b'] eqn:Hs. intros [= <- <-].
      destruct (IH a' b' eq_refl) as (-> & Ha & Hb). simpl.
      by rewrite Hc, Ha.
    + intros [= <- <-]. simpl. by rewrite Hc.
Qed.

Lemma until_paren_spec s g :
  until_paren s = Some g ->
  exists rest,
    s = g +:+ ")" +:+ rest
    /\ all_chars (fun c => negb (Ascii.eqb c ")") && negb (Ascii.eqb c "010"))
                 g = true.
Proof.
  revert g. induction s as [|c s IH]; intros g; simpl; [done|].
  destruct (Ascii.eqb c ")") eqn:Hp.
  - intros [= <-]. apply Ascii.eqb_eq in Hp as ->. exists s.
    split; reflexivity.
  - destruct (Ascii.eqb c "010") eqn:Hn; [done|].
    destruct (until_paren s) as [g'|]; cbn [mbind option_bind]; [|done].
    intros [= <-]. destruct (IH g' eq_refl) as (rest & -> & Hg).
    exists rest. simpl. by rewrite Hp, Hn, Hg.
Qed.

Lemma if_match_at_spec s g n :
  if_match_at s = Some (g, n) ->
  exists ws rest,
    s = "if" +:+ ws +:+ "(" +:+ g +:+ ")" +:+ rest
    /\ all_chars is_space ws = true
    /\ all_chars (fun c => negb (Ascii.eqb c ")") && negb (Ascii.eqb c "010"))
                 g = true
    /\ n = String.length ("if" +:+ ws +:+ "(" +:+ g +:+ ")").
Proof.
  unfold if_match_at.
  destruct (drop_prefix "if" s) as [r1|] eqn:H1;
    cbn [mbind option_bind]; [|done].
  destruct (span is_space r1) as [ws r2] eqn:H2.
  destruct (drop_prefix "(" r2) as [r3|] eqn:H3;
    cbn [mbind option_bind]; [|done].
  destruct (until_paren r3) as [g'|] eqn:H4;
    cbn [mbind option_bind]; [|done].
  intros [= <- <-].
  apply drop_prefix_Some in H1, H3.
  apply span_spec in H2 as (H2 & Hws & _).
  apply until_paren_spec in H4 as (rest & H4 & Hg).
  exists ws, rest. subst. split; [done|]. split; [done|]. split; [done|].
  rewrite !string_app_length. simpl. lia.
Qed.

Lemma assign_match_at_spec lhs_name s g n :
  assign_match_at lhs_name s = Some (g, n) ->
  exists ws1 op ws2 rest,
    s = lhs_name +:+ ws1 +:+ op +:+ ws2 +:+ g +:+ rest
    /\ all_chars is_space ws1 = true
    /\ (op = "=" \/ op = "<=")
    /\ all_chars is_space ws2 = true
    /\ match g with
       | "" => False
       | String c w => is_ident_start c = true /\ all_chars is_word w = true
       end
    /\ match rest with
       | "" => True
       | String c _ => is_word c = false
       end
    /\ n = String.length (lhs_name +:+ ws1 +:+ op +:+ ws2 +:+ g).
Proof.
  unfold assign_match_at.
  destruct (drop_prefix lhs_name s) as [r1|] eqn:H1;
    cbn [mbind option_bind]; [|done].
  destruct (span is_space r1) as [ws1 r2] eqn:H2.
  apply drop_prefix_Some in H1.
  apply span_spec in H2 as (H2 & Hws1 & _).
  assert (Hgen : forall lt r3 op,
    r2 = op +:+ r3 -> (op = "" \/ op = "<") -> lt = String.length op ->
    match
      mbind (fun r4 =>
               let '(ws2, r5) := span is_space r4 in
               match r5 with
               | "" => None
               | String c r6 =>
                   if is_ident_start c
                   then let '(w, _) := span is_word r6 in
                        Some (String c w,
                              String.length lhs_name + String.length ws1 + lt
                              + 1 + String.length ws2 + S (String.length w))
                   else None
               end) (drop_prefix "=" r3)
    with
    | Some (g', n') =>
        exists ws2 rest,
          s = lhs_name +:+ ws1 +:+ (op +:+ "=") +:+ ws2 +:+ g' +:+ rest
          /\ all_chars is_space ws2 = true
          /\ match g' with
             | "" => False
             | String c w =>
                 is_ident_start c = true /\ all_chars is_word w = true
             end
          /\ match rest with
             | "" => True
             | String c _ => is_word c = false
             end
          /\ n' = String.length (lhs_name +:+ ws1 +:+ (op +:+ "=") +:+ ws2
                                 +:+ g')
    | None => True
    end).
  { intros lt r3 op Hr2 Hop ->.
    destruct (drop_prefix "=" r3) as [r4|] eqn:H4;
      cbn [mbind option_bind]; [|done].
    destruct (span is_space r4) as [ws2 r5] eqn:H5.
    destruct r5 as [|c r6]; [done|].
    destruct (is_ident_start c) eqn:Hc; [|done].
    destruct (span is_word r6) as [w rest] eqn:H6.
    apply drop_prefix_Some in H4.
    apply span_spec in H5 as (H5 & Hws2 & _).
    apply span_spec in H6 as (H6 & Hw & Hrest).
    exists ws2, rest. split.
    { subst. by rewrite string_app_assoc. }
    split; [done|]. split; [done|]. split; [done|].
    rewrite !string_app_length. simpl. lia. }
  destruct (drop_prefix "<" r2) as [r3|] eqn:H3.
  - apply drop_prefix_Some in H3.
    specialize (Hgen 1 r3 "<" H3 (or_intror eq_refl) eq_refl).
    intros Hm. rewrite Hm in Hgen.
    destruct Hgen as (ws2 & rest & Hs & Hws2 & Hg & Hrest & Hn).
    exists ws1, "<=", ws2, rest. repeat split; auto.
  - specialize (Hgen 0 r2 "" eq_refl (or_introl eq_refl) eq_refl).
    intros Hm. rewrite Hm in Hgen.
    destruct Hgen as (ws2 & rest & Hs & Hws2 & Hg & Hrest & Hn).
    exists ws1, "=", ws2, rest. repeat split; auto.
Qed.

(** A match reported at [m_start] is a match at the head of the text
    that is left when the [m_start - pos] first characters are passed. *)
Lemma finditer_from_at match_at skip pos text m :
  In m (finditer_from match_at skip pos text) ->
  exists before rest len,
    text = before +:+ rest
    /\ pos + String.length before = m_start m
    /\ match_at rest = Some (m_group m, len).
Proof.
  revert skip pos. induction text as [|c text IH]; intros skip pos.
  - destruct skip; simpl; [|done].
    destruct (match_at "") as [[g len]|] eqn:Hm; simpl; [|done].
    intros [<- | []]. exists "", "", len. simpl. split; [done|].
    split; [lia | done].
  - assert (Hnext : forall skip',
               In m (finditer_from match_at skip' (S pos) text) ->
               exists before rest len,
                 String c text = before +:+ rest
                 /\ pos + String.length before = m_start m
                 /\ match_at rest = Some (m_group m, len)).
    { intros skip' Hin. apply IH in Hin as (before & rest & len & -> & Hp & Hm).
      exists (String c before), rest, len. simpl. split; [done|].
      split; [lia | done]. }
    destruct skip; simpl.
    + destruct (match_at (String c text)) as [[g len]|] eqn:Hm; simpl.
      * intros [<- | Hin]; [|by eapply Hnext].
        exists "", (String c text), len. simpl. split; [done|].
        split; [lia | done].
      * apply Hnext.
    + apply Hnext.
Qed.

Lemma finditer_if_at text im :
  In im (finditer if_match_at text) -> if_at text (m_start im) (m_group im).
Proof.
  intros H. apply finditer_from_at in H as (before & rest & len & -> & Hp & Hm).
  apply if_match_at_spec in Hm as (ws & rest' & -> & Hws & Hg & _).
  exists before, ws, rest'. split; [done|]. split; [simpl in Hp; lia|]. done.
Qed.

Lemma finditer_assignment_at lhs_name text am :
  In am (finditer (assign_match_at lhs_name) text) ->
  assignment_at lhs_name text (m_start am) (m_group am).
Proof.
  intros H. apply finditer_from_at in H as (before & rest & len & -> & Hp & Hm).
  apply assign_match_at_spec in Hm
    as (ws1 & op & ws2 & rest' & -> & Hws1 & Hop & Hws2 & Hg & Hrest & _).
  exists before, ws1, op, ws2, rest'. split; [done|].
  split; [simpl in Hp; lia|]. done.
Qed.

Lemma find_assignments_In text lhs_name enum_members to_state cond :
  In (to_state, cond)
     (_find_assignments_with_conditions text lhs_name enum_members)
  <-> exists am, In am (finditer (assign_match_at lhs_name) text)
        /\ m_group am = to_state /\ In to_state enum_members
        /\ guard_at text (m_start am) cond.
Proof.
  unfold _find_assignments_with_conditions.
  rewrite dedup_by_id_In, in_flat_map. split.
  - intros (am & Hin & Hr). exists am. split; [done|].
    destruct (mem (m_group am) enum_members) eqn:Hm; simpl in Hr; [|done].
    destruct Hr as [[= <- <-] | []].
    apply bool_decide_eq_true in Hm. apply list_elem_of_In in Hm.
    split; [done|]. split; [done|]. apply guard_before_spec.
  - intros (am & Hin & <- & Hmem & Hg). exists am. split; [done|].
    unfold mem. rewrite bool_decide_eq_true_2 by by apply list_elem_of_In.
    simpl. left. f_equal.
    eapply guard_at_unique; [apply guard_before_spec | done].
Qed.

Lemma substring_empty i n : String.substring i n "" = "".
Proof. destruct i, n; reflexivity. Qed.

Lemma item_transitions_In lhs_name enum_members item t :
  In t (item_transitions lhs_name enum_members item) ->
  let text := collect_identifiers_inline item in
  first_member enum_members text (t_from t)
  /\ exists am, In am (finditer (assign_match_at lhs_name) text)
       /\ m_group am = t_to t /\ In (t_to t) enum_members
       /\ guard_at text (m_start am) (t_cond t).
Proof.
  intros H text. unfold item_transitions in H. fold text in H.
  destruct (truthy text); simpl in H; [|done].
  pose proof (find_first_enum_spec enum_members text) as Hfrom.
  destruct (_find_first_enum_in_text enum_members text) as [from_state|];
    [|done].
  destruct (truthy from_state); simpl in H; [|done].
  apply in_map_iff in H as ([to_state cond] & <- & Hin). simpl.
  split; [done|]. by apply find_assignments_In.
Qed.

Lemma item_transitions_complete lhs_name enum_members item am :
  let text := collect_identifiers_inline item in
  (forall m, In m enum_members -> m <> "") ->
  (exists m i, In m enum_members /\ first_occurrence text m i) ->
  In am (finditer (assign_match_at lhs_name) text) ->
  In (m_group am) enum_members ->
  exists from_state cond,
    first_member enum_members text from_state
    /\ guard_at text (m_start am) cond
    /\ In (mkTransition from_state (m_group am) cond)
          (item_transitions lhs_name enum_members item).
Proof.
  intros text Hne (m & i & Hm & Hocc) Ham Hmem.
  unfold item_transitions. fold text.
  assert (Htext : truthy text = true).
  { destruct text; [|done]. destruct Hocc as [Hs _].
    rewrite substring_empty in Hs. symmetry in Hs. by apply Hne in Hs. }
  rewrite Htext. simpl.
  pose proof (find_first_enum_spec enum_members text) as Hfrom.
  destruct (_find_first_enum_in_text enum_members text) as [from_state|].
  2:{ by destruct (Hfrom m i Hm). }
  assert (Hf : truthy from_state = true).
  { apply truthy_true. apply Hne. by destruct Hfrom. }
  rewrite Hf. simpl.
  exists from_state, (guard_before (finditer if_match_at text) (m_start am)).
  split; [done|]. split; [apply guard_before_spec|].
  apply in_map_iff. exists (m_group am, guard_before (finditer if_match_at text)
                                                  (m_start am)).
  split; [done|]. apply find_assignments_In. exists am.
  split; [done|]. split; [done|]. split; [done|]. apply guard_before_spec.
Qed.

Lemma build_transitions_In case_nodes state_var next_state_var enum_members t :
  write_target state_var next_state_var <> "" ->
  In t (_build_transitions_from_cases case_nodes state_var next_state_var
                                      enum_members)
  <-> exists case_node item,
        In case_node case_nodes /\ In item (dfs_items case_node)
        /\ In t (item_transitions (write_target state_var next_state_var)
                                  enum_members item).
Proof.
  intros Hne. unfold _build_transitions_from_cases.
  fold (write_target state_var next_state_var).
  apply truthy_true in Hne. rewrite Hne. simpl.
  rewrite in_flat_map. split.
  - intros (cn & Hcn & H). apply in_flat_map in H as (item & Hitem & Ht).
    by exists cn, item.
  - intros (cn & item & Hcn & Hitem & Ht). exists cn. split; [done|].
    apply in_flat_map. by exists item.
Qed.

Lemma build_transitions_origin case_nodes state_var next_state_var
      enum_members t :
  In t (_build_transitions_from_cases case_nodes state_var next_state_var
                                      enum_members) ->
  exists case_node item,
    In case_node case_nodes /\ In item (dfs_items case_node)
    /\ first_member enum_members (collect_identifiers_inline item) (t_from t)
    /\ exists am,
         In am (finditer (assign_match_at
                            (write_target state_var next_state_var))
                         (collect_identifiers_inline item))
         /\ m_group am = t_to t /\ In (t_to t) enum_members
         /\ guard_at (collect_identifiers_inline item) (m_start am)
                     (t_cond t).
Proof.
  intros Ht.
  destruct (decide (write_target state_var next_state_var = "")) as [Hl|Hl].
  { unfold _build_transitions_from_cases in Ht.
    fold (write_target state_var next_state_var) in Ht.
    rewrite Hl in Ht. done. }
  apply build_transitions_In in Ht as (cn & item & Hcn & Hitem & Ht); [|done].
  exists cn, item. split; [done|]. split; [done|].
  by apply item_transitions_In in Ht.
Qed.

(* ---------------- trees ---------------- *)

(** Induction on a tree with the property known of every child. *)
Lemma Node_ind' (P : Node -> Prop) :
  (forall k t pos cs, Forall P cs -> P (mkNode k t pos cs)) ->
  forall n, P n.
Proof.
  intros H. fix IH 1. intros [k t pos cs]. apply H.
  induction cs as [|c cs IHcs]; constructor; [apply IH | exact IHcs].
Qed.

Lemma find_all_eq k t pos cs kind_name :
  find_all (mkNode k t pos cs) kind_name
  = (if String.eqb k kind_name then [mkNode k t pos cs] else [])
    ++ find_all_children kind_name cs.
Proof.
  reflexivity.
Qed.

Lemma dfs_collect_eq parent p k t pos cs :
  dfs_collect parent p (mkNode k t pos cs)
  = (if String.eqb k "EnumType"
     then [((p, mkNode k t pos cs), parent)] else [])
    ++ dfs_collect_children (p, mkNode k t pos cs) 0 cs.
Proof.
  simpl. f_equal. generalize (mkNode k t pos cs). intros n. generalize 0.
  induction cs as [|c cs IH]; intros i; simpl; [done | by rewrite IH].
Qed.

Lemma dfs_collect_nodes parent p n :
  map (fun item => snd (fst item)) (dfs_collect parent p n)
  = find_all n "EnumType".
Proof.
  revert parent p. induction n as [k t pos cs IH] using Node_ind'.
  intros parent p. rewrite dfs_collect_eq, find_all_eq, map_app. f_equal.
  - by destruct (String.eqb k "EnumType").
  - generalize 0. generalize (p, mkNode k t pos cs).
    induction IH as [|c cs Hc _ IHcs]; intros par i; simpl; [done|].
    unfold find_all_children in *. simpl.
    rewrite map_app, Hc, IHcs. done.
Qed.

Lemma find_all_at_eq p k t pos cs kind_name :
  find_all_at p (mkNode k t pos cs) kind_name
  = (if String.eqb k kind_name then [(p, mkNode k t pos cs)] else [])
    ++ find_all_at_children p kind_name 0 cs.
Proof.
  simpl. f_equal. generalize 0.
  induction cs as [|c cs IH]; intros i; simpl; [done | by rewrite IH].
Qed.

Lemma find_all_at_nodes p n kind_name :
  map snd (find_all_at p n kind_name) = find_all n kind_name.
Proof.
  revert p. induction n as [k t pos cs IH] using Node_ind'.
  intros p. rewrite find_all_at_eq, find_all_eq, map_app. f_equal.
  - by destruct (String.eqb k kind_name).
  - generalize 0.
    induction IH as [|c cs Hc _ IHcs]; intros i; simpl; [done|].
    unfold find_all_children in *. simpl.
    rewrite map_app, Hc, IHcs. done.
Qed.

(* ---------------- dictionaries ---------------- *)

Lemma pydict_get_In {K V : Type} `{EqDecision K} (k : K) (d : list (K * V)) v :
  PyDict.get k d = Some v -> In (k, v) d.
Proof.
  induction d as [|[k' v'] d IH]; simpl; [done|].
  case_decide as Hk.
  - intros [= ->]. left. by subst.
  - intros H. right. by apply IH.
Qed.

Lemma pydict_set_In {K V : Type} `{EqDecision K} (k : K) (v : V) d k' v' :
  In (k', v') (PyDict.set k v d) -> (k', v') = (k, v) \/ In (k', v') d.
Proof.
  induction d as [|[k0 v0] d IH]; simpl.
  - intros [H | []]. by left.
  - case_decide as Hk.
    + intros [H | H]; [by left | right; by right].
    + intros [H | H]; [right; by left|].
      destruct (IH H) as [? | ?]; [by left | right; by right].
Qed.

Lemma index_enum_info (py_id : Identities) st item id info :
  In (id, info) (fst (index_enum py_id st item)) ->
  In (id, info) (fst st)
  \/ (enum_node info = snd (fst item)
      /\ info_enum_members info = find_enum_members (snd (fst item))).
Proof.
  destruct st as [infos tdefs]. unfold index_enum.
  destruct (match snd item with
            | Some parent => _
            | None => _
            end) as [enum_name tdefs'] eqn:Hm.
  simpl. intros H. apply pydict_set_In in H as [[= -> ->] | H]; [|by left].
  right. done.
Qed.

Lemma index_enums_info (py_id : Identities) items st id info :
  In (id, info) (fst (foldl (index_enum py_id) st items)) ->
  In (id, info) (fst st)
  \/ exists item, In item items /\ enum_node info = snd (fst item)
       /\ info_enum_members info = find_enum_members (snd (fst item)).
Proof.
  revert st. induction items as [|item items IH]; intros st; simpl.
  - by left.
  - intros H. apply IH in H as [H | (it & Hin & Hn & Hm)].
    + apply index_enum_info in H as [H | [Hn Hm]]; [by left|].
      right. exists item. split; [by left | done].
    + right. exists it. split; [by right | done].
Qed.

Lemma name_anonymous_info c items id info :
  In (id, info) (name_anonymous c items) ->
  exists info0, In (id, info0) items
    /\ enum_node info = enum_node info0
    /\ info_enum_members info = info_enum_members info0.
Proof.
  revert c. induction items as [|[id0 info0] items IH]; intros c; simpl;
    [done|].
  destruct (truthy (info_enum_name info0)); simpl.
  - intros [[= -> ->] | H].
    + exists info. split; [by left | done].
    + apply IH in H as (i0 & ? & ? & ?). exists i0. split; [by right | done].
  - intros [[= -> <-] | H].
    + exists info0. split; [by left | done].
    + apply IH in H as (i0 & ? & ? & ?). exists i0. split; [by right | done].
Qed.

Lemma build_enum_index_members (py_id : Identities) root id info :
  In (id, info) (fst (build_enum_index py_id root)) ->
  members_of_enum_in root (info_enum_members info).
Proof.
  unfold build_enum_index.
  destruct (index_enums py_id root) as [infos tdefs] eqn:Hidx. simpl.
  intros H. apply name_anonymous_info in H as (info0 & H & _ & ->).
  assert (H' : In (id, info0) (fst (index_enums py_id root)))
    by by rewrite Hidx.
  unfold index_enums in H'.
  apply index_enums_info in H' as [[] | (item & Hin & _ & ->)].
  exists (snd (fst item)). split; [|done].
  rewrite <- (dfs_collect_nodes None [] root).
  apply in_map_iff. by exists item.
Qed.

(* ---------------- the declared variables ---------------- *)

Lemma first_alias_in_info full_text infos tdefs de id :
  first_alias_in full_text infos tdefs = Return de ->
  enum_id de = Some id ->
  exists info, In (id, info) infos
               /\ decl_enum_members de = info_enum_members info.
Proof.
  induction tdefs as [|[td_name eid] tdefs IH]; simpl.
  - intros [= <-]. done.
  - destruct (truthy td_name && contains td_name full_text); [|done].
    destruct (PyDict.get eid infos) as [info|] eqn:Hget; [|done].
    intros [= <-] [= <-]. exists info. split; [|done].
    by apply pydict_get_In.
Qed.

Lemma detect_enum_for_declaration_members (py_id : Identities) root p node infos tdefs de id :
  (forall i info, In (i, info) infos ->
                  members_of_enum_in root (info_enum_members info)) ->
  (forall en, In en (find_all node "EnumType") -> In en (find_all root "EnumType")) ->
  detect_enum_for_declaration py_id (p, node) infos tdefs = Return de ->
  enum_id de = Some id ->
  members_of_enum_in root (decl_enum_members de).
Proof.
  intros Hinfos Hsub. unfold detect_enum_for_declaration. simpl.
  destruct (contains "enum" (collect_identifiers_inline node)).
  - destruct (find_all_at p node "EnumType") as [|en rest] eqn:Hall.
    + intros [= <-]. done.
    + destruct (PyDict.get (py_id (fst en)) infos) as [info|] eqn:Hget.
      * intros [= <-] _. simpl. eapply Hinfos. by apply pydict_get_In.
      * intros [= <-] _. simpl. exists (snd en). split; [|done].
        apply Hsub. rewrite <- (find_all_at_nodes p node "EnumType"), Hall.
        by left.
  - intros H Hid.
    destruct (first_alias_in_info _ _ _ _ _ H Hid) as (info & Hin & ->).
    by eapply Hinfos.
Qed.

Lemma declared_vars_members (py_id : Identities) root infos tdefs stack p node rs r :
  (forall i info, In (i, info) infos ->
                  members_of_enum_in root (info_enum_members info)) ->
  (forall en, In en (find_all node "EnumType") -> In en (find_all root "EnumType")) ->
  declared_vars py_id infos tdefs stack p node = Return rs ->
  In r rs -> members_of_enum_in root (enum_members r).
Proof.
  intros Hinfos Hsub. unfold declared_vars.
  destruct (detect_enum_for_declaration py_id (p, node) infos tdefs)
    as [de|] eqn:Hde; simpl; [|done].
  destruct (enum_id de) as [id|] eqn:Hid.
  - intros [= <-] Hr. apply in_map_iff in Hr as (vn & <- & _). simpl.
    by eapply detect_enum_for_declaration_members.
  - intros [= <-] [].
Qed.

Lemma dfs_eq (py_id : Identities) infos tdefs stack p k t pos cs :
  dfs py_id infos tdefs stack p (mkNode k t pos cs)
  = match scope_prefix k with
    | Some prefix =>
        dfs_children py_id infos tdefs
                     (stack ++ [scope_label prefix (mkNode k t pos cs)]) p 0 cs
    | None =>
        here <- (if endswith k "Declaration"
                 then declared_vars py_id infos tdefs stack p
                                    (mkNode k t pos cs)
                 else Return []) ;;
        rest <- dfs_children py_id infos tdefs stack p 0 cs ;;
        Return (here ++ rest)
    end.
Proof.
  assert (Hch : forall stack' i,
    (fix dfs_all (i : nat) (l : list Node) {struct l} : result (list EnumVar) :=
       match l with
       | [] => Return []
       | ch :: r =>
           here <- dfs py_id infos tdefs stack' (p ++ [i]) ch ;;
           rest <- dfs_all (S i) r ;;
           Return (here ++ rest)
       end) i cs
    = dfs_children py_id infos tdefs stack' p i cs).
  { intros stack'. induction cs as [|c cs IH]; intros i; simpl; [done|].
    by rewrite IH. }
  simpl. destruct (scope_prefix k); rewrite Hch; reflexivity.
Qed.

Lemma dfs_members (py_id : Identities) root infos tdefs :
  (forall i info, In (i, info) infos ->
                  members_of_enum_in root (info_enum_members info)) ->
  forall node stack p rs r,
    (forall en, In en (find_all node "EnumType") ->
                In en (find_all root "EnumType")) ->
    dfs py_id infos tdefs stack p node = Return rs ->
    In r rs -> members_of_enum_in root (enum_members r).
Proof.
  intros Hinfos node.
  induction node as [k t pos cs IH] using Node_ind'.
  intros stack p rs r Hsub. rewrite dfs_eq.
  assert (Hch : forall stack' i rs',
             dfs_children py_id infos tdefs stack' p i cs = Return rs' ->
             In r rs' -> members_of_enum_in root (enum_members r)).
  { assert (Hsubc : forall c en, In c cs -> In en (find_all c "EnumType") ->
                                 In en (find_all root "EnumType")).
    { intros c en Hc Hen. apply Hsub. rewrite find_all_eq.
      apply in_or_app. right. apply in_flat_map. by exists c. }
    clear Hsub. intros stack'.
    induction IH as [|c cs Hc _ IHcs]; intros i rs'; simpl.
    - intros [= <-] [].
    - destruct (dfs py_id infos tdefs stack' (p ++ [i]) c) as [here|] eqn:Hh;
        simpl; [|done].
      destruct (dfs_children py_id infos tdefs stack' p (S i) cs)
        as [rest|] eqn:Hr; simpl; [|done].
      intros [= <-] Hin. apply in_app_or in Hin as [Hin | Hin].
      + eapply Hc; [|exact Hh|exact Hin].
        intros en Hen. eapply Hsubc; [by left | done].
      + eapply IHcs; [|exact Hr|exact Hin].
        intros c' en Hc' Hen. eapply Hsubc; [by right | done]. }
  destruct (scope_prefix k).
  - apply Hch.
  - destruct (if endswith k "Declaration" then _ else _) as [here|] eqn:Hh;
      simpl; [|done].
    destruct (dfs_children py_id infos tdefs stack p 0 cs) as [rest|] eqn:Hr;
      simpl; [|done].
    intros [= <-] Hin. apply in_app_or in Hin as [Hin | Hin].
    + destruct (endswith k "Declaration").
      * by eapply declared_vars_members.
      * injection Hh as <-. done.
    + by eapply Hch.
Qed.

Lemma detect_enum_variables_members (py_id : Identities) tree vars ev :
  detect_enum_variables_from_cst py_id tree = Return vars ->
  In ev vars -> members_of_enum_in tree (enum_members ev).
Proof.
  unfold detect_enum_variables_from_cst.
  pose proof (build_enum_index_members py_id tree) as Hidx.
  destruct (build_enum_index py_id tree) as [infos tdefs]. simpl in Hidx.
  destruct infos as [|e infos].
  - intros [= <-] [].
  - destruct (dfs py_id (e :: infos) tdefs [] [] tree) as [results|] eqn:Hd;
      simpl; [|done].
    intros [= <-] Hin. apply dedup_from_In in Hin as [Hin _].
    eapply dfs_members; [exact Hidx | | exact Hd | exact Hin]. done.
Qed.

Lemma pydict_get_set {K V : Type} `{EqDecision K} (k k' : K) (v : V) d :
  PyDict.get k' (PyDict.set k v d)
  = if decide (k' = k) then Some v else PyDict.get k' d.
Proof.
  induction d as [|[k0 v0] d IH]; simpl.
  - repeat case_decide; congruence.
  - destruct (decide (k = k0)) as [-> | Hne]; simpl.
    + repeat case_decide; congruence.
    + rewrite IH. repeat case_decide; congruence.
Qed.

Lemma keys_known_set infos tdefs id info :
  keys_known infos tdefs -> keys_known (PyDict.set id info infos) tdefs.
Proof.
  intros Hk name id' Hin. rewrite pydict_get_set.
  case_decide; [done | by eapply Hk].
Qed.

Lemma keys_known_alias infos tdefs id info name :
  keys_known (PyDict.set id info infos) tdefs ->
  keys_known (PyDict.set id info infos) (PyDict.set name id tdefs).
Proof.
  intros Hk name' id' Hin. apply pydict_set_In in Hin as [[= -> ->] | Hin].
  - rewrite pydict_get_set. by rewrite decide_True.
  - by eapply Hk.
Qed.

Lemma keys_known_aliases infos tdefs id info names :
  keys_known (PyDict.set id info infos) tdefs ->
  keys_known (PyDict.set id info infos)
             (foldl (fun d alias => PyDict.set alias id d) tdefs names).
Proof.
  revert tdefs. induction names as [|name names IH]; intros tdefs Hk; simpl;
    [done|].
  apply IH. by apply keys_known_alias.
Qed.

Lemma index_enum_keys_known (py_id : Identities) st item :
  keys_known (fst st) (snd st) ->
  keys_known (fst (index_enum py_id st item)) (snd (index_enum py_id st item)).
Proof.
  destruct st as [infos tdefs]. simpl. intros Hk.
  unfold index_enum.
  set (members := find_enum_members (snd (fst item))).
  set (id := py_id (fst (fst item))).
  assert (Hany : forall name tdefs',
             (forall info, keys_known (PyDict.set id info infos) tdefs') ->
             keys_known
               (fst (PyDict.set id (mkEnumInfo (snd (fst item)) name members)
                                infos, tdefs'))
               (snd (PyDict.set id (mkEnumInfo (snd (fst item)) name members)
                                infos, tdefs'))).
  { intros name tdefs' H. simpl. apply H. }
  assert (H0 : forall info, keys_known (PyDict.set id info infos) tdefs).
  { intros info. by apply keys_known_set. }
  destruct (snd item) as [parent|]; [|by apply Hany].
  set (names := outer_names py_id parent (fst item) members).
  destruct (contains "typedef" (collect_identifiers_inline (snd parent))
            && contains "enum" (collect_identifiers_inline (snd parent))).
  - destruct (truthy (hd "" names)).
    + destruct (contains "enum" _ && negb (contains "typedef" _));
        apply Hany; intros info.
      * apply keys_known_aliases. by apply keys_known_alias.
      * by apply keys_known_alias.
    + destruct (contains "enum" _ && negb (contains "typedef" _));
        apply Hany; intros info; [by apply keys_known_aliases | done].
  - destruct (contains "enum" _ && negb (contains "typedef" _));
      apply Hany; intros info; [by apply keys_known_aliases | done].
Qed.

Lemma index_enums_keys_known (py_id : Identities) root :
  keys_known (fst (index_enums py_id root)) (snd (index_enums py_id root)).
Proof.
  unfold index_enums.
  assert (H : forall items st,
             keys_known (fst st) (snd st) ->
             keys_known (fst (foldl (index_enum py_id) st items))
                        (snd (foldl (index_enum py_id) st items))).
  { induction items as [|item items IH]; intros st Hk; simpl; [done|].
    apply IH. by apply index_enum_keys_known. }
  apply H. intros name id [].
Qed.

Lemma name_anonymous_get c items id :
  is_Some (PyDict.get id items) ->
  is_Some (PyDict.get id (name_anonymous c items)).
Proof.
  revert c. induction items as [|[id0 info0] items IH]; intros c; simpl;
    [done|].
  destruct (truthy (info_enum_name info0)); simpl; case_decide; eauto.
Qed.

Lemma build_enum_index_keys_known (py_id : Identities) root :
  keys_known (fst (build_enum_index py_id root))
             (snd (build_enum_index py_id root)).
Proof.
  pose proof (index_enums_keys_known py_id root) as Hk.
  unfold build_enum_index. destruct (index_enums py_id root) as [infos tdefs].
  simpl in *. intros name id Hin. apply name_anonymous_get. by eapply Hk.
Qed.

Lemma first_alias_in_returns full_text infos tdefs :
  keys_known infos tdefs ->
  exists de, first_alias_in full_text infos tdefs = Return de.
Proof.
  induction tdefs as [|[td_name eid] tdefs IH]; intros Hk; simpl; [eauto|].
  destruct (truthy td_name && contains td_name full_text).
  - destruct (Hk td_name eid) as [info Hinfo]; [by left|].
    rewrite Hinfo. eauto.
  - apply IH. intros name id Hin. apply (Hk name). by right.
Qed.

Lemma declared_vars_returns (py_id : Identities) infos tdefs stack p node :
  keys_known infos tdefs ->
  exists rs, declared_vars py_id infos tdefs stack p node = Return rs.
Proof.
  intros Hk. unfold declared_vars, detect_enum_for_declaration. simpl.
  destruct (contains "enum" (collect_identifiers_inline node)).
  - destruct (find_all_at p node "EnumType") as [|en rest]; simpl.
    + eauto.
    + destruct (PyDict.get (py_id (fst en)) infos); simpl; eauto.
  - destruct (first_alias_in_returns (collect_identifiers_inline node)
                                     infos tdefs Hk) as [de ->].
    simpl. destruct (enum_id de); eauto.
Qed.

Lemma dfs_returns (py_id : Identities) infos tdefs :
  keys_known infos tdefs ->
  forall node stack p,
    exists rs, dfs py_id infos tdefs stack p node = Return rs.
Proof.
  intros Hk node. induction node as [k t pos cs IH] using Node_ind'.
  intros stack p. rewrite dfs_eq.
  assert (Hch : forall stack' i,
             exists rs,
               dfs_children py_id infos tdefs stack' p i cs = Return rs).
  { intros stack'. induction IH as [|c cs Hc _ IHcs]; intros i; simpl.
    - eauto.
    - destruct (Hc stack' (p ++ [i])) as [here ->].
      destruct (IHcs (S i)) as [rest ->]. simpl. eauto. }
  destruct (scope_prefix k); [apply Hch|].
  destruct (Hch stack 0) as [rest ->].
  destruct (endswith k "Declaration").
  - destruct (declared_vars_returns py_id infos tdefs stack p
                                    (mkNode k t pos cs) Hk) as [here ->].
    simpl. eauto.
  - simpl. eauto.
Qed.

Lemma detect_enum_variables_returns (py_id : Identities) tree :
  exists vars, detect_enum_variables_from_cst py_id tree = Return vars.
Proof.
  unfold detect_enum_variables_from_cst.
  pose proof (build_enum_index_keys_known py_id tree) as Hk.
  destruct (build_enum_index py_id tree) as [infos tdefs]. simpl in Hk.
  destruct infos as [|e infos]; [eauto|].
  destruct (dfs_returns py_id (e :: infos) tdefs Hk tree [] []) as [rs ->].
  simpl. eauto.
Qed.

Lemma build_fsm_graphs_returns (py_id : Identities) tree :
  exists graphs, build_fsm_graphs_from_cst py_id tree = Return graphs.
Proof.
  unfold build_fsm_graphs_from_cst, detect_fsm_enum_candidates_from_cst.
  destruct (detect_enum_variables_returns py_id tree) as [vars ->].
  simpl. eauto.
Qed.

(* ---------------- no enum in the tree ---------------- *)

Lemma no_enum_no_items parent p n :
  find_all n "EnumType" = [] -> dfs_collect parent p n = [].
Proof.
  intros H. pose proof (dfs_collect_nodes parent p n) as Hn.
  rewrite H in Hn. by apply map_eq_nil in Hn.
Qed.

(** C9. A tree without an enum declaration: the index of enums is empty,
    the detection of enum variables and of state-machine candidates
    return the empty list and the extraction returns no graph. The same
    holds of the extraction whenever no enum variable is detected. On no
    tree does the detection or the extraction raise. *)
Theorem C9_no_enum_empty_result (py_id : Identities) (tree : Node) :
  (find_all tree "EnumType" = [] ->
   build_enum_index py_id tree = ([], [])
   /\ detect_enum_variables_from_cst py_id tree = Return []
   /\ detect_fsm_enum_candidates_from_cst py_id tree = Return []
   /\ build_fsm_graphs_from_cst py_id tree = Return [])
  /\ (detect_enum_variables_from_cst py_id tree = Return [] ->
      detect_fsm_enum_candidates_from_cst py_id tree = Return []
      /\ build_fsm_graphs_from_cst py_id tree = Return [])
  /\ (exists vars, detect_enum_variables_from_cst py_id tree = Return vars)
  /\ (exists graphs, build_fsm_graphs_from_cst py_id tree = Return graphs).
Proof.
  assert (Hnone : detect_enum_variables_from_cst py_id tree = Return [] ->
                  detect_fsm_enum_candidates_from_cst py_id tree = Return []
                  /\ build_fsm_graphs_from_cst py_id tree = Return []).
  { intros Hvars.
    assert (Hcands : detect_fsm_enum_candidates_from_cst py_id tree
                     = Return []).
    { unfold detect_fsm_enum_candidates_from_cst. by rewrite Hvars. }
    split; [done|].
    unfold build_fsm_graphs_from_cst. rewrite Hcands, Hvars. reflexivity. }
  split; [|split; [done|split]].
  - intros H.
    assert (Hidx : build_enum_index py_id tree = ([], [])).
    { unfold build_enum_index, index_enums.
      by rewrite (no_enum_no_items None [] tree H). }
    assert (Hvars : detect_enum_variables_from_cst py_id tree = Return []).
    { unfold detect_enum_variables_from_cst. by rewrite Hidx. }
    destruct (Hnone Hvars). done.
  - apply detect_enum_variables_returns.
  - apply build_fsm_graphs_returns.
Qed.

(* ---------------- the graphs ---------------- *)

Lemma detect_reset_state_member always_nodes state_var enum_members m :
  _detect_reset_state always_nodes state_var enum_members = Some m ->
  In m enum_members.
Proof.
  induction always_nodes as [|a rest IH]; simpl; [done|].
  destruct (_is_clocked_always a); simpl; [|done].
  destruct (contains state_var (collect_identifiers_inline a)); simpl; [|done].
  unfold reset_in_block.
  destruct (List.find _ enum_members) as [m'|] eqn:Hf; [|done].
  intros [= ->]. by apply find_some in Hf as [? _].
Qed.

Lemma enum_index_values (vars : list EnumVar)
      (idx : gmap (string * string) EnumVar) key ev :
  foldl (fun idx ev => <[ (ev_scope ev, var_name ev) := ev ]> idx) idx vars
        !! key = Some ev ->
  In ev vars \/ idx !! key = Some ev.
Proof.
  revert idx. induction vars as [|v vars IH]; intros idx; simpl; [by right|].
  intros H. apply IH in H as [H | H]; [left; by right|].
  destruct (decide ((ev_scope v, var_name v) = key)) as [<- | Hne].
  - rewrite lookup_insert_eq in H. injection H as <-. left. by left.
  - rewrite lookup_insert_ne in H by done. by right.
Qed.

Lemma graph_of_group_invariants (scope_nodes : gmap string Node)
      (enum_index : gmap (string * string) EnumVar) group g :
  In g (graph_of_group scope_nodes enum_index group) ->
  (exists key ev, enum_index !! key = Some ev /\ states g = enum_members ev)
  /\ (forall t, In t (transitions g) ->
        In (t_from t) (states g) /\ In (t_to t) (states g))
  /\ (forall r, reset_state g = Some r -> In r (states g))
  /\ NoDup (map (fun t => (t_from t, t_to t, t_cond t)) (transitions g)).
Proof.
  destruct group as [[scope enum_name] vars_in_group]. unfold graph_of_group.
  destruct (scope_nodes !! scope) as [scope_node|]; [|done].
  destruct (List.find _ vars_in_group) as [v|]; [|done].
  destruct (enum_index !! (scope, cand_name v)) as [ev|] eqn:Hev; [|done].
  destruct (enum_members ev) as [|m0 members'] eqn:Hm; [done|].
  rewrite <- Hm. clear Hm.
  destruct (_choose_state_and_next scope_node vars_in_group)
    as [state_var next_state_var].
  destruct (otruthy state_var); simpl; [|done].
  intros [<- | []]. simpl. split; [|split; [|split]].
  - by exists (scope, cand_name v), ev.
  - intros t Ht. apply dedup_from_In in Ht as [Ht _].
    destruct (build_transitions_origin _ _ _ _ _ Ht)
      as (cn & item & _ & _ & [Hfrom _] & am & _ & _ & Hto & _).
    done.
  - intros r Hr. by eapply detect_reset_state_member.
  - apply dedup_from_NoDup.
Qed.

(** C2. The extraction returns a list of graphs (it never raises), and
    for every graph of it: the two ends of every transition are states of
    the graph; the reset state, when there is one, is a state of the
    graph; no two transitions have the same (from, to, cond); and the
    states are the members of an enum declaration of the tree, in the
    order in which [find_enum_members] reads them off that declaration. *)
Theorem C2_graph_invariants (py_id : Identities) (tree : Node) :
  exists graphs,
    build_fsm_graphs_from_cst py_id tree = Return graphs
    /\ forall g, In g graphs ->
         (forall t, In t (transitions g) ->
            In (t_from t) (states g) /\ In (t_to t) (states g))
         /\ (forall r, reset_state g = Some r -> In r (states g))
         /\ NoDup (map (fun t => (t_from t, t_to t, t_cond t))
                       (transitions g))
         /\ members_of_enum_in tree (states g).
Proof.
  destruct (build_fsm_graphs_returns py_id tree) as [graphs Hb].
  exists graphs. split; [done|]. revert Hb.
  unfold build_fsm_graphs_from_cst.
  destruct (detect_fsm_enum_candidates_from_cst py_id tree) as [cands|];
    simpl; [|done].
  destruct (detect_enum_variables_from_cst py_id tree) as [vars|] eqn:Hvars;
    simpl; [|done].
  intros [= <-] g Hg. apply in_flat_map in Hg as (group & _ & Hg).
  apply graph_of_group_invariants in Hg
    as ((key & ev & Hev & Hst) & Hedges & Hreset & Hnodup).
  split; [done|]. split; [done|]. split; [done|].
  rewrite Hst. eapply detect_enum_variables_members; [exact Hvars|].
  apply enum_index_values in Hev as [Hin | Hempty]; [done|].
  by rewrite lookup_empty in Hempty.
Qed.

Lemma of_int_inj (a b : Z) : of_int a = of_int b -> a = b.
Proof.
  unfold of_int. intros H.
  apply (f_equal NilEmpty.int_of_string) in H.
  rewrite !NilEmpty.isi in H. injection H as H.
  apply (f_equal Z.of_int) in H. by rewrite !DecimalZ.of_to in H.
Qed.

Lemma string_of_uint_no_underscore d :
  after_last_underscore (NilEmpty.string_of_uint d) = None.
Proof. induction d; simpl; rewrite ?IHd; reflexivity. Qed.

Lemma of_int_no_underscore n : after_last_underscore (of_int n) = None.
Proof.
  unfold of_int. destruct (Z.to_int n); simpl;
    by rewrite string_of_uint_no_underscore.
Qed.

Lemma after_last_underscore_app s d :
  after_last_underscore d = None ->
  after_last_underscore (s +:+ "_" +:+ d) = Some d.
Proof.
  intros Hd. induction s as [|c s IH].
  - change (after_last_underscore ("" +:+ "_" +:+ d))
      with (match after_last_underscore d with
            | Some t => Some t
            | None => Some d
            end).
    by rewrite Hd.
  - change (after_last_underscore (String c s +:+ "_" +:+ d))
      with (match after_last_underscore (s +:+ "_" +:+ d) with
            | Some t => Some t
            | None => if Ascii.eqb c "_" then Some (s +:+ "_" +:+ d) else None
            end).
    by rewrite IH.
Qed.

Lemma synthesized_name_counter s1 s2 k1 k2 :
  synthesized_name s1 k1 = synthesized_name s2 k2 -> k1 = k2.
Proof.
  unfold synthesized_name. intros H.
  apply (f_equal after_last_underscore) in H.
  change ("anonymous_enum_" +:+ s1 +:+ "_" +:+ of_int k1)
    with ("anonymous_enum" +:+ "_" +:+ (s1 +:+ "_" +:+ of_int k1)) in H.
  change ("anonymous_enum_" +:+ s2 +:+ "_" +:+ of_int k2)
    with ("anonymous_enum" +:+ "_" +:+ (s2 +:+ "_" +:+ of_int k2)) in H.
  assert (Ha : forall p s k,
             after_last_underscore (p +:+ "_" +:+ (s +:+ "_" +:+ of_int k))
             = Some (of_int k)).
  { intros p s k. induction p as [|c p IH].
    - change (after_last_underscore ("" +:+ "_" +:+ s +:+ "_" +:+ of_int k))
        with (match after_last_underscore (s +:+ "_" +:+ of_int k) with
              | Some t => Some t
              | None => Some (s +:+ "_" +:+ of_int k)
              end).
      rewrite after_last_underscore_app by apply of_int_no_underscore. done.
    - change (after_last_underscore
                (String c p +:+ "_" +:+ s +:+ "_" +:+ of_int k))
        with (match after_last_underscore
                      (p +:+ "_" +:+ s +:+ "_" +:+ of_int k) with
              | Some t => Some t
              | None => if Ascii.eqb c "_"
                        then Some (p +:+ "_" +:+ s +:+ "_" +:+ of_int k)
                        else None
              end).
      by rewrite IH. }
  rewrite !Ha in H. injection H as H. by apply of_int_inj.
Qed.

Lemma name_anonymous_lookup c items i id info :
  items !! i = Some (id, info) ->
  name_anonymous c items !! i
  = Some (id,
          if truthy (info_enum_name info) then info
          else
            let k := (c + anon_rank items i)%Z in
            mkEnumInfo (enum_node info)
                       (synthesized_name
                          (match info_enum_members info with
                           | m :: _ => m
                           | [] => of_int k
                           end) k)
                       (info_enum_members info)).
Proof.
  revert c i. induction items as [|[id0 info0] items IH]; intros c i; [done|].
  destruct i as [|i]; simpl.
  - intros [= -> ->]. unfold anon_rank, anonymous. simpl.
    destruct (truthy (info_enum_name info)); simpl; [done|].
    change (Z.of_nat 1) with 1%Z. reflexivity.
  - intros Hi.
    assert (Hr : anon_rank ((id0, info0) :: items) (S i)
                 = ((if truthy (info_enum_name info0) then 0 else 1)
                    + anon_rank items i)%Z).
    { unfold anon_rank. simpl firstn. simpl List.filter.
      unfold anonymous at 1. simpl snd.
      destruct (truthy (info_enum_name info0)); simpl negb; cbv iota;
        [lia|]. simpl length. lia. }
    rewrite Hr. clear Hr.
    destruct (truthy (info_enum_name info0)) eqn:H0; simpl.
    + rewrite (IH c i Hi). done.
    + rewrite (IH (c + 1)%Z i Hi).
      replace (c + 1 + anon_rank items i)%Z
        with (c + (1 + anon_rank items i))%Z by lia.
      done.
Qed.

Lemma anon_rank_positive items i e :
  items !! i = Some e -> anonymous e = true -> (1 <= anon_rank items i)%Z.
Proof.
  intros Hi Ha. unfold anon_rank.
  assert (Hin : In e (List.filter anonymous (firstn (S i) items))).
  { apply filter_In. split; [|done].
    apply list_elem_of_In. apply (list_elem_of_lookup_2 _ i).
    rewrite lookup_take_lt; [done | lia]. }
  destruct (List.filter anonymous (firstn (S i) items)); [done|]. simpl. lia.
Qed.

Lemma anon_rank_increasing items i j e :
  i < j -> items !! j = Some e -> anonymous e = true ->
  (anon_rank items i < anon_rank items j)%Z.
Proof.
  intros Hij Hj Ha. unfold anon_rank.
  assert (Hsplit : firstn (S j) items
                   = firstn (S i) items
                     ++ firstn (j - S i) (skipn (S i) items)
                     ++ [e]).
  { rewrite app_assoc.
    replace (S j) with (j + 1) by lia.
    rewrite <- (take_drop j items) at 1.
    assert (Hlen : j < length items) by by eapply lookup_lt_Some.
    rewrite take_app_add' by (rewrite length_take; lia).
    f_equal.
    - replace j with (S i + (j - S i)) at 1 by lia.
      rewrite <- (take_drop (S i) items) at 1.
      rewrite take_app_add' by (rewrite length_take; lia).
      done.
    - destruct (drop j items) as [|e' rest] eqn:Hd.
      + apply (f_equal length) in Hd. rewrite length_drop in Hd. simpl in Hd.
        lia.
      + simpl. f_equal.
        assert (He : drop j items !! 0 = Some e') by by rewrite Hd.
        rewrite lookup_drop, Nat.add_0_r in He. congruence. }
  rewrite Hsplit, !List.filter_app, !length_app. simpl. rewrite Ha. simpl. lia.
Qed.

Lemma dfs_collect_paths parent p n item :
  In item (dfs_collect parent p n) -> exists q, item_path item = p ++ q.
Proof.
  revert parent p item. induction n as [k t pos cs IH] using Node_ind'.
  intros parent p item. rewrite dfs_collect_eq. intros H.
  apply in_app_or in H as [H | H].
  - destruct (String.eqb k "EnumType"); [|done].
    destruct H as [<- | []]. exists []. by rewrite app_nil_r.
  - revert H. generalize 0. generalize (mkNode k t pos cs). intros n.
    induction IH as [|c cs Hc _ IHcs]; intros i; simpl; [done|].
    intros H. apply in_app_or in H as [H | H].
    + apply Hc in H as (q & ->). exists (i :: q). by rewrite <- app_assoc.
    + by eapply IHcs.
Qed.

Lemma dfs_collect_children_paths parent i cs item :
  In item (dfs_collect_children parent i cs) ->
  exists j q, i <= j /\ item_path item = fst parent ++ j :: q.
Proof.
  revert i. induction cs as [|c cs IH]; intros i; simpl; [done|].
  intros H. apply in_app_or in H as [H | H].
  - apply dfs_collect_paths in H as (q & ->). exists i, q.
    split; [lia|]. by rewrite <- app_assoc.
  - apply IH in H as (j & q & Hj & ->). exists j, q. split; [lia | done].
Qed.

Lemma dfs_collect_NoDup parent p n :
  NoDup (map item_path (dfs_collect parent p n)).
Proof.
  revert parent p. induction n as [k t pos cs IH] using Node_ind'.
  intros parent p. rewrite dfs_collect_eq, map_app.
  assert (Hch : forall par i,
             NoDup (map item_path (dfs_collect_children par i cs))).
  { intros par. induction IH as [|c cs Hc _ IHcs]; intros i; simpl.
    - constructor.
    - rewrite map_app. apply NoDup_app. split; [apply Hc|].
      split; [|apply IHcs].
      intros q Hq Hq'.
      apply list_elem_of_In, in_map_iff in Hq as (it & <- & Hit).
      apply list_elem_of_In, in_map_iff in Hq' as (it' & Heq & Hit').
      apply dfs_collect_paths in Hit as (q1 & H1).
      apply dfs_collect_children_paths in Hit' as (j & q2 & Hj & H2).
      rewrite H1, H2, <- app_assoc in Heq. apply app_inv_head in Heq.
      simpl in Heq. injection Heq as Heq _. lia. }
  apply NoDup_app. split; [|split; [|apply Hch]].
  - destruct (String.eqb k "EnumType"); simpl; [|constructor].
    apply NoDup_singleton.
  - intros q Hq Hq'.
    destruct (String.eqb k "EnumType"); simpl in Hq; [|by inversion Hq].
    apply list_elem_of_singleton in Hq. subst q.
    apply list_elem_of_In, in_map_iff in Hq' as (it' & Heq & Hit').
    apply dfs_collect_children_paths in Hit' as (j & q2 & _ & H2).
    rewrite H2 in Heq. simpl in Heq. unfold item_path in Heq. simpl in Heq.
    apply (f_equal length) in Heq. rewrite length_app in Heq. simpl in Heq.
    lia.
Qed.

Lemma truthy_false (s : string) : truthy s = false -> s = "".
Proof. by destruct s. Qed.

Lemma index_enum_fst (py_id : Identities) st item :
  fst (index_enum py_id st item)
  = PyDict.set (fst (index_entry py_id item)) (snd (index_entry py_id item))
               (fst st).
Proof.
  destruct st as [infos tdefs]. destruct item as [en parent].
  unfold index_enum, index_entry, declared_name, item_path. simpl.
  destruct parent as [parent|]; [|done].
  destruct (contains "typedef" (collect_identifiers_inline (snd parent))
            && contains "enum" (collect_identifiers_inline (snd parent))).
  - destruct (truthy (hd "" (outer_names py_id parent en
                                         (find_enum_members (snd en)))))
      eqn:Ht.
    + by destruct (contains "enum" _ && negb (contains "typedef" _)).
    + apply truthy_false in Ht. rewrite Ht.
      by destruct (contains "enum" _ && negb (contains "typedef" _)).
  - by destruct (contains "enum" _ && negb (contains "typedef" _)).
Qed.

Lemma pydict_set_fresh {K V : Type} `{EqDecision K} (k : K) (v : V) d :
  ~ In k (map fst d) -> PyDict.set k v d = d ++ [(k, v)].
Proof.
  induction d as [|[k' v'] d IH]; simpl; [done|].
  intros Hn. case_decide as Hk.
  - destruct Hn. by left.
  - rewrite IH; [done|]. intros Hin. apply Hn. by right.
Qed.

Lemma index_enums_entries (py_id : Identities) items st :
  NoDup (map (fun item => py_id (item_path item)) items) ->
  (forall item, In item items ->
                ~ In (py_id (item_path item)) (map fst (fst st))) ->
  fst (foldl (index_enum py_id) st items)
  = fst st ++ map (index_entry py_id) items.
Proof.
  revert st. induction items as [|item items IH]; intros st Hnd Hfresh; simpl.
  - by rewrite app_nil_r.
  - apply NoDup_cons in Hnd as [Hhd Hnd].
    rewrite IH; [|done|].
    + rewrite index_enum_fst, pydict_set_fresh by (apply Hfresh; by left).
      by rewrite <- app_assoc.
    + intros it Hit. rewrite index_enum_fst, pydict_set_fresh
        by (apply Hfresh; by left).
      rewrite map_app, in_app_iff. simpl. intros [Hin | [Heq | []]].
      * by apply (Hfresh it); [right|].
      * apply Hhd. rewrite Heq. apply list_elem_of_In.
        apply (in_map (fun item => py_id (item_path item))). done.
Qed.

Lemma name_anonymous_keys c items :
  map fst (name_anonymous c items) = map fst items.
Proof.
  revert c. induction items as [|[id info] items IH]; intros c; simpl; [done|].
  destruct (truthy (info_enum_name info)); simpl; by rewrite IH.
Qed.

Lemma name_anonymous_nodes c items :
  map (fun e => enum_node (snd e)) (name_anonymous c items)
  = map (fun e => enum_node (snd e)) items.
Proof.
  revert c. induction items as [|[id info] items IH]; intros c; simpl; [done|].
  destruct (truthy (info_enum_name info)); simpl; by rewrite IH.
Qed.

Lemma name_anonymous_values c items items' :
  map snd items = map snd items' ->
  map snd (name_anonymous c items) = map snd (name_anonymous c items').
Proof.
  revert c items'. induction items as [|[id info] items IH];
    intros c [|[id' info'] items']; simpl; try done.
  intros [= -> H].
  destruct (truthy (info_enum_name info')); simpl; f_equal; by apply IH.
Qed.

Example inline_enums_names :
  map (fun e => info_enum_name (snd e))
      (fst (build_enum_index path_id inline_enums_module))
  = ["anonymous_enum_A_1"; "anonymous_enum_RED_2"].
Proof. vm_compute. reflexivity. Qed.

Example fsm_example_extracted :
  build_fsm_graphs_from_cst path_id fsm_example = Return [fsm_example_graph].
Proof. vm_compute. reflexivity. Qed.

Lemma C2_witness :
  (forall t, In t (transitions fsm_example_graph) ->
     In (t_from t) (states fsm_example_graph)
     /\ In (t_to t) (states fsm_example_graph))
  /\ (forall r, reset_state fsm_example_graph = Some r ->
        In r (states fsm_example_graph))
  /\ NoDup (map (fun t => (t_from t, t_to t, t_cond t))
                (transitions fsm_example_graph))
  /\ members_of_enum_in fsm_example (states fsm_example_graph).
Proof.
  destruct (C2_graph_invariants path_id fsm_example) as (graphs & Hb & Hall).
  apply Hall.
  assert (Hg : Return graphs = Return [fsm_example_graph]).
  { rewrite <- Hb. vm_compute. reflexivity. }
  injection Hg as ->. left. reflexivity.
Defined.

Lemma C9_witness :
  build_enum_index path_id single_register_module = ([], [])
  /\ detect_enum_variables_from_cst path_id single_register_module = Return []
  /\ detect_fsm_enum_candidates_from_cst path_id single_register_module
     = Return []
  /\ build_fsm_graphs_from_cst path_id single_register_module = Return [].
Proof.
  apply (proj1 (C9_no_enum_empty_result path_id single_register_module)).
  reflexivity.
Defined.

Lemma C1_witness :
  exists code,
    generate_code_from_graph (mkGenerator "") g_two None = Return code.
Proof.
  apply (proj1 (proj2 (proj2 (C1_validation (mkGenerator "") g_two None)))).
  split; [|split].
  - constructor; [|constructor; [|constructor]]; intros H.
    + apply list_elem_of_singleton in H. discriminate.
    + inversion H.
  - intros t Ht. apply list_elem_of_In in Ht.
    destruct Ht as [<- | [<- | []]]; split; apply list_elem_of_In; simpl; auto.
  - intros r [=].
Defined.

Example fsm_example_reset :
  _detect_reset_state (_collect_always_nodes fsm_example) "state"
                      ["IDLE"; "REQ"; "WAIT"; "GNT"]
  = Some "IDLE".
Proof. vm_compute. reflexivity. Qed.

Example valid_graph_generated :
  generate_code_from_graph (mkGenerator "") fsm_example_graph None
  = Return (_assemble_code "fsm_example" (_generate_enum fsm_example_graph)
              (_generate_variable_declarations fsm_example_graph)
              (_generate_always_ff (mkGenerator "") fsm_example_graph
                                   "two_register")
              (_generate_always_comb (mkGenerator "") fsm_example_graph
                                     "two_register")).
Proof. vm_compute. reflexivity. Qed.

(* ---------------- strings ---------------- *)

Lemma string_app_nil_l s : "" +:+ s = s.
Proof. reflexivity. Qed.

Lemma string_app_nil_r s : s +:+ "" = s.
Proof.
  induction s as [|c s IH]; [reflexivity|].
  rewrite string_app_cons, IH. reflexivity.
Qed.

Lemma lstrip_head s :
  match lstrip s with "" => True | String c _ => is_space c = false end.
Proof.
  induction s as [|c s IH]; simpl; [exact I|].
  destruct (is_space c) eqn:Hc; [exact IH|exact Hc].
Qed.

Lemma lstrip_fixed s :
  match s with "" => True | String c _ => is_space c = false end ->
  lstrip s = s.
Proof. destruct s as [|c s]; simpl; [reflexivity|]. intros ->. reflexivity. Qed.

Lemma rstrip_cons c r :
  rstrip (String c r)
  = match rstrip r with
    | "" => if is_space c then "" else String c ""
    | r' => String c r'
    end.
Proof. reflexivity. Qed.

Lemma rstrip_idem s : rstrip (rstrip s) = rstrip s.
Proof.
  induction s as [|c s IH]; [reflexivity|].
  rewrite rstrip_cons.
  destruct (rstrip s) as [|d x] eqn:Hx.
  - destruct (is_space c) eqn:Hc; [reflexivity|].
    rewrite rstrip_cons. simpl. rewrite Hc. reflexivity.
  - rewrite rstrip_cons, IH. reflexivity.
Qed.

Lemma rstrip_head c r :
  is_space c = false -> exists r', rstrip (String c r) = String c r'.
Proof.
  intros Hc. rewrite rstrip_cons.
  destruct (rstrip r) as [|d x]; [rewrite Hc|]; eauto.
Qed.

Lemma strip_lstrip s : lstrip (strip s) = strip s.
Proof.
  unfold strip. pose proof (lstrip_head s) as H.
  destruct (lstrip s) as [|c r]; [reflexivity|].
  destruct (rstrip_head c r H) as [r' ->].
  simpl. rewrite H. reflexivity.
Qed.

Lemma strip_rstrip s : rstrip (strip s) = strip s.
Proof. unfold strip. apply rstrip_idem. Qed.

Lemma strip_idem s : strip (strip s) = strip s.
Proof.
  unfold strip at 1. rewrite strip_lstrip. apply strip_rstrip.
Qed.

Lemma all_chars_app p a b :
  all_chars p (a +:+ b) = all_chars p a && all_chars p b.
Proof.
  induction a as [|c a IH]; [reflexivity|].
  rewrite string_app_cons. simpl. rewrite IH, andb_assoc. reflexivity.
Qed.

Lemma split_ws_from_shift a b s :
  nospace b = true ->
  split_ws_from a (b +:+ s) = split_ws_from (a +:+ b) s.
Proof.
  revert a. induction b as [|c b IH]; intros a Hb.
  - rewrite string_app_nil_r. reflexivity.
  - unfold nospace in Hb. simpl in Hb. apply andb_prop in Hb as [Hc Hb].
    apply negb_true_iff in Hc.
    rewrite string_app_cons. simpl. rewrite Hc.
    rewrite IH by exact Hb. rewrite string_app_assoc. reflexivity.
Qed.

Lemma split_ws_from_tokens cur s :
  nospace cur = true ->
  Forall (fun t => t <> "" /\ nospace t = true) (split_ws_from cur s).
Proof.
  revert cur. induction s as [|c s IH]; intros cur Hcur; simpl.
  - destruct cur; simpl; [constructor|].
    constructor; [split; [discriminate|exact Hcur]|constructor].
  - destruct (is_space c) eqn:Hc.
    + destruct cur as [|d cur]; simpl.
      * apply IH. reflexivity.
      * constructor; [split; [discriminate|exact Hcur]|].
        apply IH. reflexivity.
    + apply IH. unfold nospace. rewrite all_chars_app. simpl.
      rewrite Hc. simpl. rewrite andb_true_r. exact Hcur.
Qed.

Lemma split_ws_tokens s :
  Forall (fun t => t <> "" /\ nospace t = true) (split_ws s).
Proof. apply split_ws_from_tokens. reflexivity. Qed.

Lemma split_ws_lstrip s : split_ws (lstrip s) = split_ws s.
Proof.
  induction s as [|c s IH]; [reflexivity|].
  simpl. destruct (is_space c) eqn:Hc; [|reflexivity].
  rewrite IH. unfold split_ws. simpl. rewrite Hc. reflexivity.
Qed.

Lemma split_ws_from_rstrip cur s :
  split_ws_from cur (rstrip s) = split_ws_from cur s.
Proof.
  revert cur. induction s as [|c s IH]; intros cur; [reflexivity|].
  rewrite rstrip_cons.
  destruct (rstrip s) as [|d x] eqn:Hx.
  - destruct (is_space c) eqn:Hc.
    + simpl. rewrite Hc. rewrite <- (IH ""). simpl.
      destruct (truthy cur); reflexivity.
    + simpl. rewrite Hc. rewrite <- IH. reflexivity.
  - change (split_ws_from cur (String c (String d x)))
      with (if is_space c
            then (if truthy cur then cur :: split_ws_from "" (String d x)
                  else split_ws_from "" (String d x))
            else split_ws_from (cur +:+ String c "") (String d x)).
    change (split_ws_from cur (String c s))
      with (if is_space c
            then (if truthy cur then cur :: split_ws_from "" s
                  else split_ws_from "" s)
            else split_ws_from (cur +:+ String c "") s).
    rewrite !IH. reflexivity.
Qed.

Lemma split_ws_strip s : split_ws (strip s) = split_ws s.
Proof.
  unfold strip, split_ws. rewrite split_ws_from_rstrip.
  apply split_ws_lstrip.
Qed.

Lemma join_cons sep x y l :
  join sep (x :: y :: l) = x +:+ sep +:+ join sep (y :: l).
Proof. reflexivity. Qed.

Lemma split_ws_join ts :
  Forall (fun t => t <> "" /\ nospace t = true) ts ->
  split_ws (join " " ts) = ts.
Proof.
  induction 1 as [|t ts [Ht Hs] Hall IH]; [reflexivity|].
  destruct ts as [|t2 ts].
  - unfold join. simpl. unfold split_ws.
    rewrite <- (string_app_nil_r t) at 1.
    rewrite split_ws_from_shift by exact Hs. simpl.
    destruct t; [congruence|reflexivity].
  - rewrite join_cons. unfold split_ws.
    rewrite split_ws_from_shift by exact Hs.
    rewrite string_app_cons. simpl.
    destruct t; [congruence|]. simpl. f_equal. exact IH.
Qed.

Lemma remove_ws_app a b : remove_ws (a +:+ b) = remove_ws a +:+ remove_ws b.
Proof.
  induction a as [|c a IH]; [reflexivity|].
  rewrite string_app_cons. simpl. destruct (is_space c); [exact IH|].
  rewrite string_app_cons, IH. reflexivity.
Qed.

Lemma remove_ws_nospace s : nospace s = true -> remove_ws s = s.
Proof.
  induction s as [|c s IH]; [reflexivity|].
  unfold nospace. simpl. intros H. apply andb_prop in H as [Hc Hs].
  apply negb_true_iff in Hc. rewrite Hc, IH by exact Hs. reflexivity.
Qed.

Lemma remove_ws_join_split cur s :
  nospace cur = true ->
  remove_ws (join " " (split_ws_from cur s)) = cur +:+ remove_ws s.
Proof.
  revert cur. induction s as [|c s IH]; intros cur Hcur.
  - rewrite string_app_nil_r.
    destruct cur as [|d cur]; [reflexivity|].
    change (remove_ws (String d cur) = String d cur).
    apply remove_ws_nospace. exact Hcur.
  - change (remove_ws (String c s))
      with (if is_space c then remove_ws s else String c (remove_ws s)).
    change (split_ws_from cur (String c s))
      with (if is_space c
            then (if truthy cur then cur :: split_ws_from "" s
                  else split_ws_from "" s)
            else split_ws_from (cur +:+ String c "") s).
    destruct (is_space c) eqn:Hc.
    + pose proof (IH "" eq_refl) as IH0. rewrite string_app_nil_l in IH0.
      destruct cur as [|d cur]; [exact IH0|].
      change (truthy (String d cur)) with true. cbv iota.
      destruct (split_ws_from "" s) as [|t ts] eqn:Hts.
      * change (join " " [String d cur]) with (String d cur).
        change (join " " []) with "" in IH0.
        change (remove_ws "") with "" in IH0. rewrite <- IH0.
        rewrite string_app_nil_r. apply remove_ws_nospace. exact Hcur.
      * rewrite join_cons, remove_ws_app, remove_ws_app.
        rewrite (remove_ws_nospace _ Hcur), IH0. reflexivity.
    + rewrite IH.
      * rewrite string_app_assoc. reflexivity.
      * unfold nospace. rewrite all_chars_app. simpl. rewrite Hc.
        simpl. rewrite andb_true_r. exact Hcur.
Qed.

Lemma replace_char_with_app a b x y :
  replace_char_with a b (x +:+ y)
  = replace_char_with a b x +:+ replace_char_with a b y.
Proof.
  induction x as [|c x IH]; [reflexivity|].
  rewrite string_app_cons. simpl. destruct (Ascii.eqb c a).
  - rewrite IH, string_app_assoc. reflexivity.
  - rewrite IH, string_app_cons. reflexivity.
Qed.

Lemma escape_html_cons c s :
  GraphViz._escape_html (String c s)
  = escape_char c +:+ GraphViz._escape_html s.
Proof.
  unfold GraphViz._escape_html, escape_char.
  change (replace_char_with "&" "&amp;" (String c s))
    with (if Ascii.eqb c "&"
          then "&amp;" +:+ replace_char_with "&" "&amp;" s
          else String c (replace_char_with "&" "&amp;" s)).
  destruct (Ascii.eqb c "&") eqn:H1.
  - rewrite !replace_char_with_app. reflexivity.
  - set (r1 := replace_char_with "&" "&amp;" s).
    change (replace_char_with "<" "&lt;" (String c r1))
      with (if Ascii.eqb c "<"
            then "&lt;" +:+ replace_char_with "<" "&lt;" r1
            else String c (replace_char_with "<" "&lt;" r1)).
    destruct (Ascii.eqb c "<") eqn:H2.
    + rewrite !replace_char_with_app. reflexivity.
    + set (r2 := replace_char_with "<" "&lt;" r1).
      change (replace_char_with ">" "&gt;" (String c r2))
        with (if Ascii.eqb c ">"
              then "&gt;" +:+ replace_char_with ">" "&gt;" r2
              else String c (replace_char_with ">" "&gt;" r2)).
      destruct (Ascii.eqb c ">") eqn:H3.
      * rewrite !replace_char_with_app. reflexivity.
      * set (r3 := replace_char_with ">" "&gt;" r2).
        change (replace_char_with "034" "&quot;" (String c r3))
          with (if Ascii.eqb c "034"
                then "&quot;" +:+ replace_char_with "034" "&quot;" r3
                else String c (replace_char_with "034" "&quot;" r3)).
        destruct (Ascii.eqb c "034") eqn:H4; reflexivity.
Qed.

Lemma escape_char_no_markup c : all_chars (fun x => negb (is_markup x)) (escape_char c) = true.
Proof.
  unfold escape_char.
  destruct (Ascii.eqb c "&") eqn:H1; [reflexivity|].
  destruct (Ascii.eqb c "<") eqn:H2; [reflexivity|].
  destruct (Ascii.eqb c ">") eqn:H3; [reflexivity|].
  destruct (Ascii.eqb c "034") eqn:H4; [reflexivity|].
  simpl. unfold is_markup. rewrite H2, H3, H4. reflexivity.
Qed.

Lemma escape_char_inj c1 c2 r1 r2 :
  escape_char c1 +:+ r1 = escape_char c2 +:+ r2 -> c1 = c2 /\ r1 = r2.
Proof.
  unfold escape_char.
  destruct (Ascii.eqb c1 "&") eqn:A1;
    [apply Ascii.eqb_eq in A1; subst c1|];
  (destruct (Ascii.eqb c2 "&") eqn:B1;
    [apply Ascii.eqb_eq in B1; subst c2|]).
  all: try (destruct (Ascii.eqb c1 "<") eqn:A2;
            [apply Ascii.eqb_eq in A2; subst c1|]).
  all: try (destruct (Ascii.eqb c2 "<") eqn:B2;
            [apply Ascii.eqb_eq in B2; subst c2|]).
  all: try (destruct (Ascii.eqb c1 ">") eqn:A3;
            [apply Ascii.eqb_eq in A3; subst c1|]).
  all: try (destruct (Ascii.eqb c2 ">") eqn:B3;
            [apply Ascii.eqb_eq in B3; subst c2|]).
  all: try (destruct (Ascii.eqb c1 "034") eqn:A4;
            [apply Ascii.eqb_eq in A4; subst c1|]).
  all: try (destruct (Ascii.eqb c2 "034") eqn:B4;
            [apply Ascii.eqb_eq in B4; subst c2|]).
  all: rewrite ?string_app_cons, ?string_app_nil_l.
  all: intros H; try (injection H as H; subst); try discriminate.
  all: try (split; [reflexivity|]; congruence).
  all: try (rewrite ?Ascii.eqb_refl in *; discriminate).
  all: try (split; congruence).
Qed.

(** X19. [_escape_html] is safe and loses nothing: its result holds
    none of the characters [<], [>] and the double quote, two different
    texts have different results, and a text without any of the four
    special characters is returned as it is. *)
Theorem escape_html_safe_and_lossless :
  (forall s,
      all_chars (fun c => negb (is_markup c)) (GraphViz._escape_html s) = true)
  /\ (forall s1 s2,
         GraphViz._escape_html s1 = GraphViz._escape_html s2 -> s1 = s2)
  /\ (forall s,
         all_chars (fun c => negb (is_markup c) && negb (Ascii.eqb c "&")) s
         = true ->
         GraphViz._escape_html s = s).
Proof.
  split; [|split].
  - induction s as [|c s IH]; [reflexivity|].
    rewrite escape_html_cons, all_chars_app, IH, escape_char_no_markup.
    reflexivity.
  - induction s1 as [|c1 s1 IH]; intros [|c2 s2] H.
    + reflexivity.
    + rewrite escape_html_cons in H. exfalso.
      change (GraphViz._escape_html "") with "" in H.
      unfold escape_char in H.
      destruct (Ascii.eqb c2 "&"); [discriminate|].
      destruct (Ascii.eqb c2 "<"); [discriminate|].
      destruct (Ascii.eqb c2 ">"); [discriminate|].
      destruct (Ascii.eqb c2 "034"); discriminate.
    + rewrite escape_html_cons in H. exfalso.
      change (GraphViz._escape_html "") with "" in H.
      unfold escape_char in H.
      destruct (Ascii.eqb c1 "&"); [discriminate|].
      destruct (Ascii.eqb c1 "<"); [discriminate|].
      destruct (Ascii.eqb c1 ">"); [discriminate|].
      destruct (Ascii.eqb c1 "034"); discriminate.
    + rewrite !escape_html_cons in H.
      apply escape_char_inj in H as [-> H]. f_equal. apply IH, H.
  - induction s as [|c s IH]; [reflexivity|].
    simpl. intros H. apply andb_prop in H as [Hc Hs].
    apply andb_prop in Hc as [Hm Ha].
    unfold is_markup in Hm. rewrite !negb_orb in Hm.
    apply andb_prop in Hm as [Hm H3]. apply andb_prop in Hm as [H1 H2].
    apply negb_true_iff in H1, H2, H3, Ha.
    rewrite escape_html_cons, IH by exact Hs.
    unfold escape_char. rewrite Ha, H1, H2, H3. reflexivity.
Qed.

Lemma escape_html_witness : GraphViz._escape_html "gnt" = "gnt".
Proof.
  apply (proj2 (proj2 escape_html_safe_and_lossless)). reflexivity.
Defined.

(** X20. [_normalize_cond] puts a condition in a canonical
    form: the words of the text (its maximal runs of characters that are
    not whitespace), separated by single spaces. The [strip] of the
    source changes nothing, the result is a fixed point of the
    function, and apart from whitespace the text is unchanged. *)
Theorem normalize_cond_canonical (s : string) :
  let r := GraphViz._normalize_cond (Some s) in
  r = join " " (split_ws s)
  /\ Forall (fun t => t <> "" /\ nospace t = true) (split_ws s)
  /\ split_ws r = split_ws s
  /\ GraphViz._normalize_cond (Some r) = r
  /\ remove_ws r = remove_ws s.
Proof.
  cbv zeta. unfold GraphViz._normalize_cond.
  rewrite !split_ws_strip.
  pose proof (split_ws_tokens s) as Htok.
  rewrite (split_ws_join _ Htok).
  repeat split; try assumption; try reflexivity.
  unfold split_ws. rewrite remove_ws_join_split by reflexivity.
  reflexivity.
Qed.

Lemma find_first_eq k t pos cs kind_name :
  find_first (mkNode k t pos cs) kind_name
  = if String.eqb k kind_name then Some (mkNode k t pos cs)
    else find_first_children kind_name cs.
Proof. reflexivity. Qed.

Lemma find_all_kind n kind_name :
  Forall (fun x => kind x = kind_name) (find_all n kind_name).
Proof.
  induction n as [k t pos cs IH] using Node_ind'.
  rewrite find_all_eq. apply Forall_app. split.
  - destruct (String.eqb k kind_name) eqn:Hk; [|constructor].
    constructor; [|constructor]. simpl. apply String.eqb_eq, Hk.
  - unfold find_all_children. induction IH as [|ch r Hch _ IHr]; simpl.
    + constructor.
    + apply Forall_app. split; assumption.
Qed.

Lemma head_app {A : Type} (a b : list A) :
  head (a ++ b) = match head a with Some x => Some x | None => head b end.
Proof. destruct a; reflexivity. Qed.

Lemma find_first_head n kind_name :
  find_first n kind_name = head (find_all n kind_name).
Proof.
  induction n as [k t pos cs IH] using Node_ind'.
  rewrite find_first_eq, find_all_eq.
  destruct (String.eqb k kind_name); [reflexivity|].
  rewrite app_nil_l. unfold find_all_children.
  induction IH as [|ch r Hch _ IHr]; [reflexivity|].
  change (find_first_children kind_name (ch :: r))
    with (match find_first ch kind_name with
          | Some x => Some x
          | None => find_first_children kind_name r
          end).
  simpl flat_map. rewrite head_app, Hch, IHr. reflexivity.
Qed.

Lemma count_nodes_eq k t pos cs :
  CstService._count_nodes (mkNode k t pos cs) = count_children 1%Z cs.
Proof. reflexivity. Qed.

Lemma count_children_acc count cs :
  count_children count cs = (count + count_children 0%Z cs)%Z.
Proof.
  revert count. induction cs as [|ch r IH]; intros count; simpl.
  - lia.
  - rewrite IH, (IH (0 + _)%Z). lia.
Qed.

Lemma count_kinds n a b c :
  a <> b -> a <> c -> b <> c ->
  (1 <= CstService._count_nodes n)%Z
  /\ (Z.of_nat (length (find_all n a) + length (find_all n b)
                + length (find_all n c))
      <= CstService._count_nodes n)%Z.
Proof.
  intros Hab Hac Hbc.
  induction n as [k t pos cs IH] using Node_ind'.
  rewrite count_nodes_eq, !find_all_eq, count_children_acc.
  assert (Hcs : (0 <= count_children 0 cs)%Z
                /\ (Z.of_nat (length (find_all_children a cs)
                              + length (find_all_children b cs)
                              + length (find_all_children c cs))
                    <= count_children 0 cs)%Z).
  { unfold find_all_children.
    induction IH as [|ch r [H1 H2] _ [IH1 IH2]]; simpl.
    - lia.
    - rewrite count_children_acc, !length_app. lia. }
  destruct Hcs as [H0 Hle]. split; [lia|].
  rewrite !length_app.
  destruct (String.eqb k a) eqn:Ha; [apply String.eqb_eq in Ha|];
    (destruct (String.eqb k b) eqn:Hb; [apply String.eqb_eq in Hb|]);
    (destruct (String.eqb k c) eqn:Hc; [apply String.eqb_eq in Hc|]);
    try congruence; simpl; lia.
Qed.

(** X17. [find_first] returns the first node [find_all] lists, and
    nothing exactly when [find_all] lists nothing; every node of the
    list has the kind asked for, and so has the node returned. *)
Theorem find_first_is_head_of_find_all (n : Node) (kind_name : string) :
  find_first n kind_name = head (find_all n kind_name)
  /\ Forall (fun x => kind x = kind_name) (find_all n kind_name)
  /\ (find_first n kind_name = None <-> find_all n kind_name = [])
  /\ (forall x, find_first n kind_name = Some x -> kind x = kind_name).
Proof.
  pose proof (find_first_head n kind_name) as Hh.
  pose proof (find_all_kind n kind_name) as Hk.
  split; [exact Hh|]. split; [exact Hk|]. split.
  - rewrite Hh. destruct (find_all n kind_name); simpl; split; congruence.
  - intros x Hx. rewrite Hh in Hx.
    destruct (find_all n kind_name) as [|y l]; [discriminate|].
    simpl in Hx. injection Hx as ->. inversion Hk. assumption.
Qed.

(** X18. In the dictionary of [get_tree_info] the total is at least
    one, and the modules, interfaces and classes counted, which are
    different nodes, are together no more than the total; what
    [find_nodes_by_kind] lists for a kind is as many entries as
    [find_all] finds nodes, each with that kind. *)
Theorem tree_info_consistent (tree : CstService.SyntaxTree) (kind_name : string) :
  let info := CstService.get_tree_info tree in
  (1 <= CstService.total_nodes info)%Z
  /\ (Z.of_nat (CstService.modules_count info
                + CstService.interfaces_count info
                + CstService.classes_count info)
      <= CstService.total_nodes info)%Z
  /\ CstService.root_kind info = kind (CstService.root tree)
  /\ length (CstService.find_nodes_by_kind tree kind_name)
     = length (find_all (CstService.root tree) kind_name)
  /\ Forall (fun f => CstService.found_kind f = kind_name)
            (CstService.find_nodes_by_kind tree kind_name).
Proof.
  cbv zeta. unfold CstService.get_tree_info, CstService.find_nodes_by_kind.
  simpl.
  destruct (count_kinds (CstService.root tree) "ModuleDeclaration"
                        "InterfaceDeclaration" "ClassDeclaration")
    as [H1 H2]; try discriminate.
  split; [exact H1|]. split; [exact H2|]. split; [reflexivity|].
  split; [apply length_map|].
  apply List.Forall_forall. intros f Hf. apply in_map_iff in Hf.
  destruct Hf as [x [<- _]]. reflexivity.
Qed.

(* ---------------- FindeENUM.py: members and variable names -------- *)

Lemma has_char_cons sep c r :
  has_char sep (String c r) = Ascii.eqb c sep || has_char sep r.
Proof. reflexivity. Qed.

Lemma has_char_app sep a b :
  has_char sep (a +:+ b) = has_char sep a || has_char sep b.
Proof.
  induction a as [|c a IH]; [reflexivity|].
  rewrite string_app_cons, !has_char_cons, IH, orb_assoc. reflexivity.
Qed.

Lemma has_char_lstrip sep s :
  has_char sep s = false -> has_char sep (lstrip s) = false.
Proof.
  induction s as [|c s IH]; [reflexivity|].
  rewrite has_char_cons. intros H. apply orb_false_elim in H as [H1 H2].
  simpl. destruct (is_space c); [apply IH, H2|].
  rewrite has_char_cons, H1, H2. reflexivity.
Qed.

Lemma has_char_rstrip sep s :
  has_char sep s = false -> has_char sep (rstrip s) = false.
Proof.
  induction s as [|c s IH]; [reflexivity|].
  rewrite has_char_cons. intros H. apply orb_false_elim in H as [H1 H2].
  rewrite rstrip_cons. specialize (IH H2).
  destruct (rstrip s) as [|d x].
  - destruct (is_space c); [reflexivity|].
    rewrite has_char_cons, H1. reflexivity.
  - rewrite has_char_cons, H1, IH. reflexivity.
Qed.

Lemma has_char_strip sep s :
  has_char sep s = false -> has_char sep (strip s) = false.
Proof. intros H. apply has_char_rstrip, has_char_lstrip, H. Qed.

Lemma has_char_before_first sep c s :
  has_char c s = false -> has_char c (before_first sep s) = false.
Proof.
  induction s as [|d s IH]; [reflexivity|].
  rewrite has_char_cons. intros H. apply orb_false_elim in H as [H1 H2].
  simpl. destruct (Ascii.eqb d sep); [reflexivity|].
  rewrite has_char_cons, H1, IH by exact H2. reflexivity.
Qed.

Lemma before_first_no_sep sep s : has_char sep (before_first sep s) = false.
Proof.
  induction s as [|d s IH]; [reflexivity|].
  simpl. destruct (Ascii.eqb d sep) eqn:Hd; [reflexivity|].
  rewrite has_char_cons, Hd, IH. reflexivity.
Qed.

Lemma has_char_before_last sep c s :
  has_char c s = false -> has_char c (before_last sep s) = false.
Proof.
  induction s as [|d s IH]; [reflexivity|].
  rewrite has_char_cons. intros H. apply orb_false_elim in H as [H1 H2].
  simpl. destruct (Ascii.eqb d sep && negb (has_char sep s)); [reflexivity|].
  rewrite has_char_cons, H1, IH by exact H2. reflexivity.
Qed.

Lemma replace_char_removes a b s :
  a <> b -> has_char a (replace_char a b s) = false.
Proof.
  intros Hab. induction s as [|c s IH]; [reflexivity|].
  simpl. rewrite IH, orb_false_r.
  destruct (Ascii.eqb c a) eqn:Hc.
  - apply Ascii.eqb_neq. congruence.
  - exact Hc.
Qed.

Lemma split_char_from_pieces sep c cur s piece :
  In piece (split_char_from sep cur s) ->
  (has_char sep cur = false -> has_char sep piece = false)
  /\ (has_char c cur = false -> has_char c s = false ->
      has_char c piece = false).
Proof.
  revert cur. induction s as [|d s IH]; intros cur Hin.
  - simpl in Hin. destruct Hin as [<-|[]]. split; auto.
  - simpl in Hin. destruct (Ascii.eqb d sep) eqn:Hd.
    + destruct Hin as [<-|Hin].
      * split; auto.
      * destruct (IH "" Hin) as [H1 H2]. split.
        -- intros _. apply H1. reflexivity.
        -- intros _ Hs. rewrite has_char_cons in Hs.
           apply orb_false_elim in Hs as [_ Hs]. apply H2; [reflexivity|exact Hs].
    + destruct (IH _ Hin) as [H1 H2]. split.
      * intros Hcur. apply H1. rewrite has_char_app, Hcur. simpl.
        rewrite Hd. reflexivity.
      * intros Hcur Hs. rewrite has_char_cons in Hs.
        apply orb_false_elim in Hs as [Hdc Hs].
        apply H2; [|exact Hs]. rewrite has_char_app, Hcur. simpl.
        rewrite Hdc. reflexivity.
Qed.

(** X6. No member [find_enum_members] returns is the empty
    string. When the enum node has no [Enumerator] node below it and the
    members are read off its text, every member is free of surrounding
    whitespace and holds no comma, no equals sign and no newline. *)
Theorem enum_members_well_formed (enum_node : Node) (m : string) :
  In m (find_enum_members enum_node) ->
  m <> ""
  /\ (find_all enum_node "Enumerator" = [] ->
      strip m = m
      /\ has_char "," m = false
      /\ has_char "=" m = false
      /\ has_char "010" m = false).
Proof.
  unfold find_enum_members.
  destruct (find_all enum_node "Enumerator") as [|e es] eqn:Hen.
  - set (brace_text := if otruthy (text_of enum_node)
                       then default "" (text_of enum_node)
                       else collect_identifiers_inline enum_node).
    destruct (contains "{" brace_text && contains "}" brace_text);
      [|intros []].
    set (inner := before_last "}" (default "" (after_first "{" brace_text))).
    intros Hin. apply in_flat_map in Hin as [p [Hp Hm]].
    apply in_map_iff in Hp as [piece [<- Hpiece]].
    destruct (truthy (strip piece)); [|destruct Hm].
    simpl in Hm.
    destruct (truthy (strip (before_first "=" (strip piece)))) eqn:Hname;
      [|destruct Hm].
    destruct Hm as [<-|[]].
    split; [apply truthy_true, Hname|]. intros _.
    unfold split_char in Hpiece.
    split; [apply strip_idem|].
    split; [|split].
    + apply has_char_strip, has_char_before_first, has_char_strip.
      apply (proj1 (split_char_from_pieces "," "," "" _ _ Hpiece)).
      reflexivity.
    + apply has_char_strip, before_first_no_sep.
    + apply has_char_strip, has_char_before_first, has_char_strip.
      apply (proj2 (split_char_from_pieces "," "010" "" _ _ Hpiece));
        [reflexivity|].
      apply replace_char_removes. discriminate.
  - intros Hin. apply in_flat_map in Hin as [en [_ Hm]].
    split; [|discriminate].
    destruct (otruthy (first_identifier_text en)) eqn:H1.
    + rewrite H1 in Hm. destruct Hm as [<-|[]].
      destruct (first_identifier_text en) as [x|]; [|discriminate].
      apply truthy_true, H1.
    + destruct (otruthy (text_of en)) eqn:H2; [|destruct Hm].
      destruct Hm as [<-|[]].
      destruct (text_of en) as [x|]; [|discriminate].
      apply truthy_true, H2.
Qed.

Lemma enum_members_witness :
  In "A" (find_enum_members textual_enum) /\ "A" <> "".
Proof.
  assert (H : In "A" (find_enum_members textual_enum)) by (left; reflexivity).
  split; [exact H|].
  exact (proj1 (enum_members_well_formed textual_enum "A" H)).
Defined.

Example textual_enum_members :
  find_enum_members textual_enum = ["A"; "B"].
Proof. reflexivity. Qed.

Lemma dedup_by_id_NoDup {A : Type} `{EqDecision A} (l : list A) :
  NoDup (dedup_by (fun v => v) l).
Proof.
  pose proof (dedup_from_NoDup (fun v : A => v) [] l) as H.
  rewrite map_id in H. exact H.
Qed.

Lemma extract_var_names_In decl_node enum_name enum_members v :
  In v (extract_var_names_from_declaration decl_node enum_name enum_members) ->
  v <> ""
  /\ (exists idn, In idn (find_all decl_node "Identifier")
                  /\ text_of idn = Some v)
  /\ ~ In v enum_members
  /\ v <> "typedef" /\ ~ In v keyword_like
  /\ v <> enum_name.
Proof.
  unfold extract_var_names_from_declaration. intros Hin.
  apply (proj1 (dedup_by_id_In _ _)) in Hin.
  apply filter_In in Hin as [Hin Hskip].
  apply in_flat_map in Hin as [idn [Hidn Hv]].
  destruct (text_of idn) as [x|] eqn:Hx; [|destruct Hv].
  change (otruthy (Some x)) with (truthy x) in Hv.
  change (default "" (Some x)) with x in Hv.
  destruct (truthy x) eqn:Ht; [|destruct Hv].
  destruct Hv as [<-|[]].
  apply truthy_true in Ht.
  apply negb_true_iff, mem_false in Hskip.
  split; [exact Ht|]. split; [eauto|].
  split; [|split; [|split]].
  - intros H. apply Hskip, elem_of_app. left. apply list_elem_of_In, H.
  - intros ->. apply Hskip, elem_of_app. right. apply elem_of_app. left.
    apply list_elem_of_here.
  - intros H. apply Hskip, elem_of_app. right. apply elem_of_app. left.
    apply list_elem_of_further, list_elem_of_In, H.
  - intros ->. apply Hskip, elem_of_app. right. apply elem_of_app. right.
    destruct enum_name; [congruence|]. apply list_elem_of_here.
Qed.

(** X7. The variable names [extract_var_names_from_declaration]
    reads off a declaration are without repetition; each is the text,
    not empty, of an [Identifier] node of the declaration; none is a
    member of the enum, a keyword of the list, [typedef] or the name of
    the enum type. *)
Theorem extracted_var_names (decl_node : Node) (enum_name : string)
        (enum_members : list string) :
  let names :=
    extract_var_names_from_declaration decl_node enum_name enum_members in
  NoDup names
  /\ forall v, In v names ->
       v <> ""
       /\ (exists idn, In idn (find_all decl_node "Identifier")
                       /\ text_of idn = Some v)
       /\ ~ In v enum_members
       /\ v <> "typedef" /\ ~ In v keyword_like
       /\ v <> enum_name.
Proof.
  cbv zeta. split.
  - apply dedup_by_id_NoDup.
  - intros v. apply extract_var_names_In.
Qed.

Lemma last_app_singleton {A : Type} (l : list A) (x d : A) : List.last (l ++ [x]) d = x.
Proof. apply List.last_last. Qed.

Lemma stack_along_last stack n p :
  List.last (stack_along stack n p) "" = scope_along (List.last stack "") n p.
Proof.
  revert stack n. induction p as [|i q IH]; intros stack n; [reflexivity|].
  simpl. destruct (scope_prefix (kind n)) as [prefix|].
  - destruct (children n !! i) as [ch|].
    + rewrite IH, last_app_singleton. reflexivity.
    + apply last_app_singleton.
  - destruct (children n !! i) as [ch|]; [apply IH|reflexivity].
Qed.

Lemma dfs_children_In (py_id : Identities) infos tdefs stack p i cs rs r :
  dfs_children py_id infos tdefs stack p i cs = Return rs ->
  In r rs ->
  exists j ch rs',
    cs !! j = Some ch
    /\ dfs py_id infos tdefs stack (p ++ [i + j]) ch = Return rs'
    /\ In r rs'.
Proof.
  revert i rs. induction cs as [|c cs IH]; intros i rs; simpl.
  - intros [= <-] [].
  - destruct (dfs py_id infos tdefs stack (p ++ [i]) c) as [here|] eqn:Hh;
      simpl; [|done].
    destruct (dfs_children py_id infos tdefs stack p (S i) cs)
      as [rest|] eqn:Hr; simpl; [|done].
    intros [= <-] Hin. apply in_app_or in Hin as [Hin | Hin].
    + exists 0, c, here. rewrite Nat.add_0_r. done.
    + destruct (IH _ _ Hr Hin) as (j & ch & rs' & Hj & Hd & Hin').
      exists (S j), ch, rs'. split; [done|].
      replace (i + S j) with (S i + j) by lia. done.
Qed.

(** Every element of the result of [dfs] is added by [declared_vars]
    at a declaration node below the start that is no scope node, with
    the stack and the place the walk has there. *)
Lemma dfs_origin (py_id : Identities) infos tdefs node :
  forall stack p rs r,
    dfs py_id infos tdefs stack p node = Return rs ->
    In r rs ->
    exists q decl rs',
      node_at node q = Some decl
      /\ scope_prefix (kind decl) = None
      /\ endswith (kind decl) "Declaration" = true
      /\ declared_vars py_id infos tdefs (stack_along stack node q)
                       (p ++ q) decl = Return rs'
      /\ In r rs'.
Proof.
  induction node as [k t pos cs IH] using Node_ind'.
  intros stack p rs r. rewrite dfs_eq.
  assert (Hch : forall stack' rs',
             dfs_children py_id infos tdefs stack' p 0 cs = Return rs' ->
             In r rs' ->
             exists j ch q decl rs'',
               cs !! j = Some ch
               /\ node_at ch q = Some decl
               /\ scope_prefix (kind decl) = None
               /\ endswith (kind decl) "Declaration" = true
               /\ declared_vars py_id infos tdefs (stack_along stack' ch q)
                                ((p ++ [j]) ++ q) decl = Return rs''
               /\ In r rs'').
  { intros stack' rs' Hd Hin.
    destruct (dfs_children_In _ _ _ _ _ _ _ _ _ Hd Hin)
      as (j & ch & rs1 & Hj & Hd1 & Hin1).
    simpl in Hd1.
    assert (Hch : In ch cs) by (eapply list_elem_of_In, list_elem_of_lookup_2, Hj).
    rewrite List.Forall_forall in IH.
    destruct (IH ch Hch _ _ _ _ Hd1 Hin1)
      as (q & decl & rs2 & H1 & H2 & H3 & H4 & H5).
    exists j, ch, q, decl, rs2. done. }
  destruct (scope_prefix k) as [prefix|] eqn:Hk.
  - intros Hd Hin.
    destruct (Hch _ _ Hd Hin)
      as (j & ch & q & decl & rs2 & Hj & H1 & H2 & H3 & H4 & H5).
    exists (j :: q), decl, rs2. simpl. rewrite Hk, Hj.
    rewrite <- app_assoc in H4. done.
  - destruct (if endswith k "Declaration" then _ else _) as [here|] eqn:Hh;
      simpl; [|done].
    destruct (dfs_children py_id infos tdefs stack p 0 cs) as [rest|] eqn:Hr;
      simpl; [|done].
    intros [= <-] Hin. apply in_app_or in Hin as [Hin | Hin].
    + destruct (endswith k "Declaration") eqn:He.
      * exists [], (mkNode k t pos cs), here. simpl.
        rewrite app_nil_r. done.
      * injection Hh as <-. done.
    + destruct (Hch _ _ Hr Hin)
        as (j & ch & q & decl & rs2 & Hj & H1 & H2 & H3 & H4 & H5).
      exists (j :: q), decl, rs2. simpl. rewrite Hk, Hj.
      rewrite <- app_assoc in H4. done.
Qed.

Lemma dfs_collect_places parent p n :
  map (fun item => fst (fst item)) (dfs_collect parent p n)
  = map fst (find_all_at p n "EnumType").
Proof.
  revert parent p. induction n as [k t pos cs IH] using Node_ind'.
  intros parent p. rewrite dfs_collect_eq, find_all_at_eq, !map_app. f_equal.
  - by destruct (String.eqb k "EnumType").
  - generalize 0. generalize (mkNode k t pos cs).
    induction IH as [|c cs Hc _ IHcs]; intros par i; simpl; [done|].
    rewrite !map_app, Hc, IHcs. done.
Qed.

Lemma find_all_at_children_lookup p kind_name i cs j ch x :
  cs !! j = Some ch ->
  In x (find_all_at (p ++ [i + j]) ch kind_name) ->
  In x (find_all_at_children p kind_name i cs).
Proof.
  revert i j. induction cs as [|c cs IH]; intros i j; [done|].
  destruct j as [|j]; simpl.
  - intros [= ->]. rewrite Nat.add_0_r. intros H. apply in_or_app. by left.
  - intros Hj H. apply in_or_app. right. apply (IH (S i) j Hj).
    replace (S i + j) with (i + S j) by lia. done.
Qed.

Lemma find_all_at_node_at n q d p kind_name x :
  node_at n q = Some d ->
  In x (find_all_at (p ++ q) d kind_name) ->
  In x (find_all_at p n kind_name).
Proof.
  revert n p. induction q as [|i q IH]; intros n p; simpl.
  - intros [= ->]. by rewrite app_nil_r.
  - destruct (children n !! i) as [ch|] eqn:Hch; [|done].
    intros Hd Hx. destruct n as [k t pos cs]. simpl in Hch.
    rewrite find_all_at_eq. apply in_or_app. right.
    apply (find_all_at_children_lookup p kind_name 0 cs i ch x Hch).
    simpl. apply (IH ch (p ++ [i]) Hd). by rewrite <- app_assoc.
Qed.

Lemma index_enums_has_key (py_id : Identities) items :
  forall st id,
    (is_Some (PyDict.get id (fst st))
     \/ exists item, In item items /\ id = py_id (item_path item)) ->
    is_Some (PyDict.get id (fst (foldl (index_enum py_id) st items))).
Proof.
  induction items as [|item items IH]; intros st id; simpl.
  - intros [H | (item & [] & _)]. done.
  - intros H. apply IH. rewrite index_enum_fst, pydict_get_set.
    destruct (decide (id = fst (index_entry py_id item))) as [->|Hne].
    + left. by eexists.
    + destruct H as [H | (item' & [<- | Hin] & ->)].
      * by left.
      * done.
      * right. by exists item'.
Qed.

Lemma build_enum_index_has_key (py_id : Identities) root x :
  In x (find_all_at [] root "EnumType") ->
  is_Some (PyDict.get (py_id (fst x)) (fst (build_enum_index py_id root))).
Proof.
  intros Hx. unfold build_enum_index.
  pose proof (index_enums_has_key py_id (dfs_collect None [] root) ([], [])
                                  (py_id (fst x))) as Hk.
  fold (index_enums py_id root) in Hk.
  destruct (index_enums py_id root) as [infos tdefs]. simpl in *.
  apply name_anonymous_get, Hk. right.
  assert (Hp : In (fst x) (map (fun item => fst (fst item))
                               (dfs_collect None [] root))).
  { rewrite dfs_collect_places. by apply in_map. }
  apply in_map_iff in Hp as (item & Hitem & Hin).
  exists item. split; [done|]. unfold item_path. by rewrite Hitem.
Qed.

Lemma name_anonymous_named c items id info :
  In (id, info) (name_anonymous c items) -> info_enum_name info <> "".
Proof.
  revert c. induction items as [|[id0 info0] items IH]; intros c; simpl; [done|].
  destruct (truthy (info_enum_name info0)) eqn:Ht; simpl.
  - intros [[= <- <-] | H]; [by apply truthy_true | by eapply IH].
  - intros [[= <- <-] | H]; [simpl | by eapply IH].
    unfold String.append at 1. discriminate.
Qed.

Lemma first_alias_in_named full_text infos tdefs de id :
  first_alias_in full_text infos tdefs = Return de ->
  enum_id de = Some id ->
  exists info, In (id, info) infos
               /\ decl_enum_name de = info_enum_name info
               /\ decl_enum_members de = info_enum_members info.
Proof.
  induction tdefs as [|[td_name eid] tdefs IH]; simpl.
  - intros [= <-]. done.
  - destruct (truthy td_name && contains td_name full_text); [|exact IH].
    destruct (PyDict.get eid infos) as [info|] eqn:Hg; [|done].
    intros [= <-]. simpl. intros [= <-].
    exists info. split; [by apply pydict_get_In|done].
Qed.

Lemma detect_enum_for_declaration_named (py_id : Identities) p node infos tdefs de id :
  (forall x, In x (find_all_at p node "EnumType") ->
             is_Some (PyDict.get (py_id (fst x)) infos)) ->
  detect_enum_for_declaration py_id (p, node) infos tdefs = Return de ->
  enum_id de = Some id ->
  exists info, In (id, info) infos
               /\ decl_enum_name de = info_enum_name info
               /\ decl_enum_members de = info_enum_members info.
Proof.
  intros Hkeys. unfold detect_enum_for_declaration. simpl.
  destruct (contains "enum" (collect_identifiers_inline node)).
  - destruct (find_all_at p node "EnumType") as [|en ens] eqn:Hen.
    + intros [= <-]. done.
    + destruct (Hkeys en (or_introl eq_refl)) as [info Hinfo].
      rewrite Hinfo. intros [= <-]. simpl. intros [= <-].
      exists info. split; [by apply pydict_get_In|done].
  - apply first_alias_in_named.
Qed.

Lemma declared_vars_In (py_id : Identities) infos tdefs stack p node rs r :
  (forall x, In x (find_all_at p node "EnumType") ->
             is_Some (PyDict.get (py_id (fst x)) infos)) ->
  declared_vars py_id infos tdefs stack p node = Return rs ->
  In r rs ->
  (exists id info, In (id, info) infos
                   /\ ev_enum_name r = info_enum_name info
                   /\ enum_members r = info_enum_members info)
  /\ In (var_name r)
        (extract_var_names_from_declaration node (ev_enum_name r)
                                            (enum_members r))
  /\ ev_scope r = List.last stack ""
  /\ position r = get_position node.
Proof.
  intros Hkeys. unfold declared_vars.
  destruct (detect_enum_for_declaration py_id (p, node) infos tdefs)
    as [de|] eqn:Hde; simpl; [|done].
  destruct (enum_id de) as [id|] eqn:Hid; [|intros [= <-] []].
  intros [= <-] Hin. apply in_map_iff in Hin as (vn & <- & Hvn). simpl.
  destruct (detect_enum_for_declaration_named _ _ _ _ _ _ _ Hkeys Hde Hid)
    as (info & Hin & Hn & Hm).
  split; [by exists id, info|]. done.
Qed.

Lemma detect_enum_variables_origin (py_id : Identities) (tree : Node)
        (vars : list EnumVar) :
  detect_enum_variables_from_cst py_id tree = Return vars ->
  NoDup (map (fun r => (var_name r, ev_enum_name r, ev_scope r,
                        line (position r), column (position r))) vars)
  /\ forall ev, In ev vars ->
       exists p decl,
         node_at tree p = Some decl
         /\ scope_prefix (kind decl) = None
         /\ endswith (kind decl) "Declaration" = true
         /\ (exists idn, In idn (find_all decl "Identifier")
                         /\ text_of idn = Some (var_name ev))
         /\ position ev = get_position decl
         /\ ev_scope ev = scope_along "" tree p
         /\ var_name ev <> "" /\ ev_enum_name ev <> ""
         /\ ~ In (var_name ev) (enum_members ev)
         /\ ~ In (var_name ev) keyword_like
         /\ var_name ev <> ev_enum_name ev
         /\ members_of_enum_in tree (enum_members ev).
Proof.
  unfold detect_enum_variables_from_cst.
  pose proof (build_enum_index_has_key py_id tree) as Hkeys.
  pose proof (build_enum_index_members py_id tree) as Hmembers.
  assert (Hnamed : forall id info,
             In (id, info) (fst (build_enum_index py_id tree)) ->
             info_enum_name info <> "").
  { unfold build_enum_index. destruct (index_enums py_id tree).
    simpl. intros id info. apply name_anonymous_named. }
  destruct (build_enum_index py_id tree) as [infos tdefs]. simpl in *.
  destruct infos as [|e infos].
  - intros [= <-]. split; [constructor|intros ev []].
  - destruct (dfs py_id (e :: infos) tdefs [] [] tree) as [results|] eqn:Hd;
      simpl; [|done].
    intros [= <-]. split; [apply dedup_from_NoDup|].
    intros ev Hin. apply dedup_from_In in Hin as [Hin _].
    destruct (dfs_origin _ _ _ _ _ _ _ _ Hd Hin)
      as (q & decl & rs' & Hat & Hsc & Hdecl & Hdv & Hin').
    simpl in Hdv.
    assert (Hk : forall x, In x (find_all_at q decl "EnumType") ->
                           is_Some (PyDict.get (py_id (fst x)) (e :: infos))).
    { intros x Hx. apply Hkeys.
      apply (find_all_at_node_at tree q decl [] "EnumType" x Hat Hx). }
    destruct (declared_vars_In _ _ _ _ _ _ _ _ Hk Hdv Hin')
      as ((id & info & Hinfo & Hname & _) & Hvar & Hscope & Hpos).
    apply extract_var_names_In in Hvar
      as (Hne & Hid & Hmem & _ & Hkw & Hen).
    exists q, decl. rewrite Hscope, stack_along_last. simpl.
    repeat split; try assumption.
    + rewrite Hname. by eapply Hnamed.
    + eapply (dfs_members py_id tree (e :: infos) tdefs);
        [|intros en0 Hen0; exact Hen0|exact Hd|exact Hin].
      intros i0 info0 Hi0. by eapply Hmembers.
Qed.

(** X4. The list [detect_enum_variables_from_cst] returns has
    no two elements with the same name, enum name, scope, line and
    column. Every element comes from a declaration node of the tree
    that is no scope node: its name is the text of an identifier of that
    declaration, its position is the declaration's and its scope is the
    label of the innermost scope node above it, empty when there is
    none. Its name and its enum name are not empty, the name is no
    member of the enum, no keyword and not the enum name, and its
    members are those of an enum node of the tree. *)
Theorem detected_variables_origin (py_id : Identities) (tree : Node)
        (vars : list EnumVar) :
  detect_enum_variables_from_cst py_id tree = Return vars ->
  NoDup (map (fun r => (var_name r, ev_enum_name r, ev_scope r,
                        line (position r), column (position r))) vars)
  /\ forall ev, In ev vars ->
       exists p decl,
         node_at tree p = Some decl
         /\ scope_prefix (kind decl) = None
         /\ endswith (kind decl) "Declaration" = true
         /\ (exists idn, In idn (find_all decl "Identifier")
                         /\ text_of idn = Some (var_name ev))
         /\ position ev = get_position decl
         /\ ev_scope ev = scope_along "" tree p
         /\ var_name ev <> "" /\ ev_enum_name ev <> ""
         /\ ~ In (var_name ev) (enum_members ev)
         /\ ~ In (var_name ev) keyword_like
         /\ var_name ev <> ev_enum_name ev
         /\ members_of_enum_in tree (enum_members ev).
Proof. apply detect_enum_variables_origin. Qed.

Lemma detected_variables_witness :
  NoDup (map (fun r => (var_name r, ev_enum_name r, ev_scope r,
                        line (position r), column (position r)))
             fsm_example_vars).
Proof.
  apply (detected_variables_origin path_id fsm_example fsm_example_vars).
  vm_compute. reflexivity.
Defined.

(* ---------------- fsm_graph_builder.py: scopes ---------------- *)

Lemma collect_nodes_eq test k t pos cs :
  collect_nodes test (mkNode k t pos cs)
  = (if test (mkNode k t pos cs) then [mkNode k t pos cs] else [])
    ++ flat_map (collect_nodes test) cs.
Proof. reflexivity. Qed.

Lemma collect_nodes_child test n i ch x :
  children n !! i = Some ch ->
  In x (collect_nodes test ch) -> In x (collect_nodes test n).
Proof.
  destruct n as [k t pos cs]. intros Hi Hx.
  change (cs !! i = Some ch) in Hi.
  rewrite collect_nodes_eq. apply in_or_app. right.
  apply in_flat_map. exists ch. split; [|done].
  eapply list_elem_of_In, list_elem_of_lookup_2, Hi.
Qed.

Lemma collect_nodes_self test n :
  test n = true -> In n (collect_nodes test n).
Proof.
  destruct n as [k t pos cs]. intros H. rewrite collect_nodes_eq, H.
  by left.
Qed.

Lemma collect_nodes_test test n x :
  In x (collect_nodes test n) -> test x = true.
Proof.
  induction n as [k t pos cs IH] using Node_ind'.
  rewrite collect_nodes_eq. intros Hx.
  apply in_app_or in Hx as [Hx | Hx].
  - destruct (test (mkNode k t pos cs)) eqn:Hk; [|done].
    by destruct Hx as [<- | []].
  - apply in_flat_map in Hx as (ch & Hch & Hx).
    rewrite List.Forall_forall in IH. by eapply IH.
Qed.

Lemma scope_prefix_head k prefix :
  scope_prefix k = Some prefix ->
  exists c r, prefix = String c r /\ is_space c = false.
Proof.
  unfold scope_prefix.
  repeat (match goal with
          | |- context [if ?b then _ else _] => destruct b
          end; [intros [= <-]; eexists _, _; split; reflexivity|]).
  done.
Qed.

Lemma scope_label_nonempty k prefix node :
  scope_prefix k = Some prefix -> scope_label prefix node <> "".
Proof.
  intros H. destruct (scope_prefix_head _ _ H) as (c & r & -> & Hc).
  unfold scope_label, strip. rewrite string_app_cons. simpl lstrip.
  rewrite Hc. destruct (rstrip_head c (r +:+ " " +:+
    (if otruthy (first_identifier_text node)
     then default "" (first_identifier_text node) else "")) Hc) as [r' ->].
  done.
Qed.

Lemma scope_name_of_nonempty n :
  is_scope_kind n = true -> scope_name_of n <> "".
Proof.
  unfold is_scope_kind, scope_name_of.
  destruct (scope_prefix (kind n)) as [prefix|] eqn:Hk; [|done].
  intros _. simpl. by eapply scope_label_nonempty.
Qed.

Lemma find_app {A : Type} (f : A -> bool) (a b : list A) :
  List.find f (a ++ b)
  = match List.find f a with Some x => Some x | None => List.find f b end.
Proof.
  induction a as [|x a IH]; simpl; [done|]. by destruct (f x).
Qed.

Lemma scope_map_lookup (l : list Node) (m0 : gmap string Node) (s : string) :
  foldl (fun scope_nodes node => <[ scope_name_of node := node ]> scope_nodes)
        m0 l !! s
  = match List.find (fun n => String.eqb (scope_name_of n) s) (rev l) with
    | Some n => Some n
    | None => m0 !! s
    end.
Proof.
  revert m0. induction l as [|n l IH]; intros m0; simpl; [done|].
  rewrite IH, find_app. destruct (List.find _ (rev l)); [done|].
  simpl. destruct (String.eqb (scope_name_of n) s) eqn:Hn.
  - apply String.eqb_eq in Hn as <-. apply lookup_insert_eq.
  - apply String.eqb_neq in Hn. by apply lookup_insert_ne.
Qed.

Lemma scope_along_origin cur n p :
  scope_along cur n p = cur
  \/ exists x, In x (collect_nodes is_scope_kind n)
               /\ scope_along cur n p = scope_name_of x.
Proof.
  revert cur n. induction p as [|i q IH]; intros cur n; simpl; [by left|].
  assert (Hcur : forall prefix, scope_prefix (kind n) = Some prefix ->
                 In n (collect_nodes is_scope_kind n)
                 /\ scope_label prefix n = scope_name_of n).
  { intros prefix Hk. split.
    - apply collect_nodes_self. unfold is_scope_kind. by rewrite Hk.
    - unfold scope_name_of. by rewrite Hk. }
  destruct (children n !! i) as [ch|] eqn:Hch.
  - destruct (IH (match scope_prefix (kind n) with
                  | Some prefix => scope_label prefix n
                  | None => cur
                  end) ch) as [-> | (x & Hx & ->)].
    + destruct (scope_prefix (kind n)) as [prefix|] eqn:Hk; [|by left].
      right. exists n. by apply Hcur.
    + right. exists x. split; [|done]. by eapply collect_nodes_child.
  - destruct (scope_prefix (kind n)) as [prefix|] eqn:Hk; [|by left].
    right. exists n. by apply Hcur.
Qed.

Lemma find_rev_Some {A : Type} (f : A -> bool) (l : list A) (x : A) :
  In x l -> f x = true -> is_Some (List.find f (rev l)).
Proof.
  intros Hin Hf. destruct (List.find f (rev l)) eqn:Hfind; [by eexists|].
  exfalso. eapply find_none in Hfind; [|apply in_rev; rewrite rev_involutive; exact Hin].
  congruence.
Qed.

Lemma scope_map_spec (tree : Node) :
  let scope_nodes := _collect_scope_nodes tree in
  (forall s,
      scope_nodes !! s
      = List.find (fun n => String.eqb (scope_name_of n) s)
                  (rev (collect_nodes is_scope_kind tree)))
  /\ (forall s n, scope_nodes !! s = Some n ->
        In n (collect_nodes is_scope_kind tree) /\ scope_name_of n = s)
  /\ (forall n, In n (collect_nodes is_scope_kind tree) ->
        is_Some (scope_nodes !! scope_name_of n))
  /\ scope_nodes !! "" = None.
Proof.
  cbv zeta. unfold _collect_scope_nodes.
  assert (H1 : forall s,
    foldl (fun scope_nodes node => <[ scope_name_of node := node ]> scope_nodes)
          (∅ : gmap string Node) (collect_nodes is_scope_kind tree) !! s
    = List.find (fun n => String.eqb (scope_name_of n) s)
                (rev (collect_nodes is_scope_kind tree))).
  { intros s. rewrite scope_map_lookup.
    destruct (List.find _ _); [done|apply lookup_empty]. }
  pose proof (collect_nodes_test is_scope_kind tree) as Hscope.
  split; [exact H1|]. split; [|split].
  - intros s n. rewrite H1. intros Hf. apply find_some in Hf as [Hin Heq].
    split; [by apply in_rev|by apply String.eqb_eq].
  - intros n Hn. rewrite H1. eapply find_rev_Some; [exact Hn|].
    apply String.eqb_refl.
  - rewrite H1. destruct (List.find _ _) as [n|] eqn:Hf; [|done].
    apply find_some in Hf as [Hin Heq]. apply String.eqb_eq in Heq.
    apply in_rev in Hin. apply Hscope in Hin.
    by apply scope_name_of_nonempty in Hin.
Qed.

Lemma detected_scope_known (py_id : Identities) tree vars ev :
  detect_enum_variables_from_cst py_id tree = Return vars ->
  In ev vars ->
  ev_scope ev = "" \/ is_Some (_collect_scope_nodes tree !! ev_scope ev).
Proof.
  intros Hd Hin.
  destruct (proj2 (detect_enum_variables_origin _ _ _ Hd) ev Hin)
    as (p & decl & _ & _ & _ & _ & _ & -> & _).
  destruct (scope_along_origin "" tree p) as [-> | (x & Hx & ->)];
    [by left|right].
  by apply (scope_map_spec tree).
Qed.

(** X5. The scope map gives for a label the last scope node of
    the walk that has this label; a node it gives is a scope node of
    the tree with that label, every scope node has its label in the
    map, and the empty label is never in it. The scope of every enum
    variable detected in the tree is the empty one (the variable is
    declared outside every scope node) or a label of the map. *)
Theorem scope_map_covers_detected_scopes (py_id : Identities) (tree : Node)
        (vars : list EnumVar) :
  let scope_nodes := _collect_scope_nodes tree in
  (forall s,
      scope_nodes !! s
      = List.find (fun n => String.eqb (scope_name_of n) s)
                  (rev (collect_nodes is_scope_kind tree)))
  /\ (forall s n, scope_nodes !! s = Some n ->
        In n (collect_nodes is_scope_kind tree) /\ scope_name_of n = s)
  /\ (forall n, In n (collect_nodes is_scope_kind tree) ->
        is_Some (scope_nodes !! scope_name_of n))
  /\ scope_nodes !! "" = None
  /\ (detect_enum_variables_from_cst py_id tree = Return vars ->
      forall ev, In ev vars ->
        ev_scope ev = "" \/ is_Some (scope_nodes !! ev_scope ev)).
Proof.
  cbv zeta. destruct (scope_map_spec tree) as (H1 & H2 & H3 & H4).
  split; [exact H1|]. split; [exact H2|]. split; [exact H3|].
  split; [exact H4|].
  intros Hd ev Hin. by eapply detected_scope_known.
Qed.

Lemma scope_map_witness :
  "module fsm_example" = ""
  \/ is_Some (_collect_scope_nodes fsm_example !! "module fsm_example").
Proof.
  refine (proj2 (proj2 (proj2 (proj2
    (scope_map_covers_detected_scopes path_id fsm_example
                                      fsm_example_vars)))) _
    (mkEnumVar "state" "state_t" ["IDLE"; "REQ"; "WAIT"; "GNT"]
               "module fsm_example" nopos) _).
  - vm_compute. reflexivity.
  - left. reflexivity.
Defined.

Lemma pydict_set_NoDup {K V : Type} `{EqDecision K} (k : K) (v : V) d :
  NoDup (map fst d) -> NoDup (map fst (PyDict.set k v d)).
Proof.
  induction d as [|[k' v'] d IH]; simpl.
  - intros _. apply NoDup_singleton.
  - intros Hnd. apply NoDup_cons in Hnd as [Hk' Hnd].
    destruct (decide (k = k')) as [->|Hne]; simpl.
    + apply NoDup_cons. done.
    + apply NoDup_cons. split; [|by apply IH].
      intros Hin. apply list_elem_of_In, in_map_iff in Hin
        as ([k2 v2] & Hk2 & Hin). simpl in Hk2. subst k2.
      apply pydict_set_In in Hin as [[= -> ->] | Hin]; [done|].
      apply Hk', list_elem_of_In, in_map_iff. by exists (k', v2).
Qed.

Lemma group_step_ok cands groups cand :
  In cand cands -> groups_ok cands groups ->
  groups_ok cands (group_step groups cand).
Proof.
  intros Hc [Hnd Hall]. unfold group_step.
  destruct (truthy (ev_enum_name (cand_var cand))) eqn:Ht; simpl; [|done].
  split; [by apply pydict_set_NoDup|].
  intros key vs Hin c Hcv.
  apply pydict_set_In in Hin as [[= -> ->] | Hin]; [|by eapply Hall].
  apply in_app_or in Hcv as [Hcv | [<- | []]].
  - destruct (PyDict.get _ groups) as [vs|] eqn:Hg; [|done].
    apply pydict_get_In in Hg. by eapply Hall.
  - split; [done|]. split; [done|]. by apply truthy_true.
Qed.

Lemma groups_fold_ok cands l groups :
  (forall c, In c l -> In c cands) -> groups_ok cands groups ->
  groups_ok cands (foldl group_step groups l).
Proof.
  revert groups. induction l as [|c l IH]; intros groups Hl Hok; simpl; [done|].
  apply IH; [intros c' Hc'; apply Hl; by right|].
  apply group_step_ok; [apply Hl; by left|done].
Qed.

Lemma build_fsm_graphs_eq (py_id : Identities) tree :
  build_fsm_graphs_from_cst py_id tree
  = (fsm_candidates <- detect_fsm_enum_candidates_from_cst py_id tree ;;
     all_enum_vars <- detect_enum_variables_from_cst py_id tree ;;
     Return (flat_map
               (graph_of_group
                  (_collect_scope_nodes tree)
                  (foldl (fun idx ev =>
                            <[ (ev_scope ev, var_name ev) := ev ]> idx)
                         ∅ all_enum_vars))
               (foldl group_step [] fsm_candidates))).
Proof. reflexivity. Qed.

Lemma candidates_detected (py_id : Identities) tree cands vars c :
  detect_fsm_enum_candidates_from_cst py_id tree = Return cands ->
  detect_enum_variables_from_cst py_id tree = Return vars ->
  In c cands -> In (cand_var c) vars.
Proof.
  unfold detect_fsm_enum_candidates_from_cst. intros Hc Hv.
  rewrite Hv in Hc. simpl in Hc. injection Hc as <-.
  intros Hin. apply in_flat_map in Hin as (ev & Hev & Hin).
  destruct (_ || _ || _); [|done]. by destruct Hin as [<- | []].
Qed.

Lemma pick_best_candidate score cands name s :
  pick_best score cands (None, (-999)%Z) = (Some name, s) ->
  exists v, In v cands /\ cand_name v = name.
Proof.
  intros H. pose proof (pick_best_spec score cands None (-999)%Z) as Hs.
  cbv zeta in Hs. rewrite H in Hs.
  destruct Hs as [[_ [=]] | (i & v & Hi & [= -> ->] & _)].
  exists v. split; [|done].
  eapply list_elem_of_In, list_elem_of_lookup_2, Hi.
Qed.

Lemma choose_state_and_next_candidates scope_node vars :
  (forall name, fst (_choose_state_and_next scope_node vars) = Some name ->
     exists v, In v vars /\ cand_name v = name)
  /\ (forall name, snd (_choose_state_and_next scope_node vars) = Some name ->
        exists v, In v vars /\ cand_name v = name).
Proof.
  rewrite choose_state_and_next_eq. cbv zeta. simpl. split.
  - intros name Hn.
    destruct (pick_best score_state_name _ _) as [b s] eqn:Hb.
    simpl in Hn. subst b.
    apply pick_best_candidate in Hb as (v & Hv & <-).
    exists v. split; [|done].
    destruct (List.filter _ vars) eqn:Hf; [done|].
    rewrite <- Hf in Hv. by apply filter_In in Hv as [Hv _].
  - intros name Hn.
    destruct (pick_best (score_next_name _) _ _) as [b s] eqn:Hb.
    simpl in Hn. destruct (-999 <? s)%Z; [|done]. subst b.
    apply pick_best_candidate in Hb as (v & Hv & <-).
    exists v. split; [|done]. by apply filter_In in Hv as [Hv _].
Qed.

Lemma guard_at_stripped text start cond :
  guard_at text start cond -> strip cond = cond.
Proof.
  intros [(im & _ & ->) | (_ & ->)]; [apply strip_idem|reflexivity].
Qed.

Lemma graph_of_group_shape (scope_nodes : gmap string Node)
      (enum_index : gmap (string * string) EnumVar) key vars g :
  In g (graph_of_group scope_nodes enum_index (key, vars)) ->
  graph_of_group scope_nodes enum_index (key, vars) = [g]
  /\ graph_key g = key
  /\ is_Some (scope_nodes !! scope g)
  /\ states g <> []
  /\ state_var g <> ""
  /\ (exists v, In v vars /\ cand_name v = state_var g)
  /\ (forall n, next_state_var g = Some n ->
        exists v, In v vars /\ cand_name v = n)
  /\ num_states g = length (states g)
  /\ num_transitions g = length (transitions g)
  /\ (forall t, In t (transitions g) -> strip (t_cond t) = t_cond t).
Proof.
  destruct key as [scope enum_name]. unfold graph_of_group.
  destruct (scope_nodes !! scope) as [scope_node|] eqn:Hsc; [|done].
  destruct (List.find _ vars) as [v|]; [|done].
  destruct (enum_index !! (scope, cand_name v)) as [ev|] eqn:Hev; [|done].
  destruct (enum_members ev) as [|m0 members'] eqn:Hm; [done|].
  rewrite <- Hm.
  pose proof (choose_state_and_next_candidates scope_node vars) as [Hst Hnx].
  destruct (_choose_state_and_next scope_node vars)
    as [state_var next_state_var].
  destruct state_var as [sv|]; [|done]. simpl in *.
  destruct (truthy sv) eqn:Hsv; simpl; [|done].
  intros [<- | []]. simpl. rewrite Hsc.
  split; [done|]. split; [done|]. split; [by eexists|].
  split; [by rewrite Hm|]. split; [by apply truthy_true|].
  split; [by apply Hst|]. split; [exact Hnx|]. split; [done|].
  split; [done|].
  intros t Ht. apply dedup_from_In in Ht as [Ht _].
  destruct (build_transitions_origin _ _ _ _ _ Ht)
    as (cn & item & _ & _ & _ & am & _ & _ & _ & Hg).
  by eapply guard_at_stripped.
Qed.

Lemma build_fsm_graphs_groups (py_id : Identities) tree graphs cands g :
  build_fsm_graphs_from_cst py_id tree = Return graphs ->
  detect_fsm_enum_candidates_from_cst py_id tree = Return cands ->
  In g graphs ->
  exists vars scope_nodes enum_index group,
    detect_enum_variables_from_cst py_id tree = Return vars
    /\ scope_nodes = _collect_scope_nodes tree
    /\ In group (foldl group_step [] cands)
    /\ In g (graph_of_group scope_nodes enum_index group).
Proof.
  rewrite build_fsm_graphs_eq. intros Hb Hc. rewrite Hc in Hb. simpl in Hb.
  destruct (detect_enum_variables_from_cst py_id tree) as [vars|]; [|done].
  simpl in Hb. injection Hb as <-. intros Hin.
  apply in_flat_map in Hin as (group & Hgroup & Hg).
  by eexists vars, _, _, group.
Qed.

Lemma flat_map_keys_NoDup {A B K : Type} (f : A -> list B) (ka : A -> K)
      (kb : B -> K) (l : list A) :
  NoDup (map ka l) ->
  (forall a b, In b (f a) -> f a = [b] /\ kb b = ka a) ->
  NoDup (map kb (flat_map f l)).
Proof.
  intros Hnd Hf. induction l as [|a l IH]; simpl; [constructor|].
  simpl in Hnd. apply NoDup_cons in Hnd as [Ha Hnd].
  rewrite map_app. apply NoDup_app. split; [|split; [|by apply IH]].
  - destruct (f a) as [|b fa] eqn:Hfa; [constructor|].
    destruct (Hf a b) as [Heq _]; [rewrite Hfa; by left|].
    rewrite Hfa in Heq. injection Heq as ->. apply NoDup_singleton.
  - intros k Hk1 Hk2. apply Ha.
    apply list_elem_of_In, in_map_iff in Hk1 as (b & Hkb1 & Hb).
    destruct (Hf a b Hb) as [_ Hk1]. rewrite Hk1 in Hkb1. subst k.
    apply list_elem_of_In, in_map_iff in Hk2 as (b' & Hkb & Hb').
    apply in_flat_map in Hb' as (a' & Ha' & Hb').
    destruct (Hf a' b' Hb') as [_ Hk']. rewrite Hk' in Hkb.
    rewrite <- Hkb. apply list_elem_of_In, in_map. done.
Qed.

(** X2. Every graph of the extraction has a scope that the scope
    map knows (so it is not empty), a non-empty enum name, at least one
    state and a non-empty state variable; the state variable and the
    next-state variable, when there is one, are names of candidates of
    this scope and this enum name; the two counts of the metadata are
    the lengths of the two lists, and the condition of every transition
    is free of surrounding whitespace. *)
Theorem extracted_graph_well_formed (py_id : Identities) (tree : Node)
        (graphs : list FSMGraph) (cands : list Candidate) (g : FSMGraph) :
  build_fsm_graphs_from_cst py_id tree = Return graphs ->
  detect_fsm_enum_candidates_from_cst py_id tree = Return cands ->
  In g graphs ->
  is_Some (_collect_scope_nodes tree !! scope g)
  /\ scope g <> "" /\ enum_name g <> ""
  /\ states g <> [] /\ state_var g <> ""
  /\ (exists c, In c cands /\ cand_name c = state_var g
                /\ ev_scope (cand_var c) = scope g
                /\ ev_enum_name (cand_var c) = enum_name g)
  /\ (forall n, next_state_var g = Some n ->
        exists c, In c cands /\ cand_name c = n
                  /\ ev_scope (cand_var c) = scope g
                  /\ ev_enum_name (cand_var c) = enum_name g)
  /\ num_states g = length (states g)
  /\ num_transitions g = length (transitions g)
  /\ (forall t, In t (transitions g) -> strip (t_cond t) = t_cond t).
Proof.
  intros Hb Hc Hin.
  destruct (build_fsm_graphs_groups _ _ _ _ _ Hb Hc Hin)
    as (vars & scope_nodes & enum_index & [key vs] & Hv & -> & Hgroup & Hg).
  assert (Hok : groups_ok cands (foldl group_step [] cands)).
  { apply groups_fold_ok; [done|]. split; [constructor|intros ? ? []]. }
  destruct Hok as [_ Hall]. specialize (Hall key vs Hgroup).
  apply graph_of_group_shape in Hg
    as (_ & Hkey & Hsc & Hst & Hsv & (v & Hvin & Hvn) & Hnx & Hn1 & Hn2 & Hcond).
  unfold graph_key in Hkey.
  assert (Hmem : forall c, In c vs ->
            In c cands /\ ev_scope (cand_var c) = scope g
            /\ ev_enum_name (cand_var c) = enum_name g
            /\ ev_enum_name (cand_var c) <> "").
  { intros c Hcv. destruct (Hall c Hcv) as (H1 & H2 & H3).
    rewrite <- Hkey in H2. injection H2 as H2 H2'. done. }
  split; [done|]. split.
  { intros Hs. rewrite Hs in Hsc.
    rewrite (proj2 (proj2 (proj2 (scope_map_spec tree)))) in Hsc.
    by destruct Hsc. }
  split.
  { destruct (Hmem v Hvin) as (_ & _ & <- & Hne). done. }
  split; [done|]. split; [done|]. split.
  { exists v. destruct (Hmem v Hvin) as (H1 & H2 & H3 & _). done. }
  split.
  { intros n Hn. destruct (Hnx n Hn) as (c & Hcv & Hcn).
    exists c. destruct (Hmem c Hcv) as (H1 & H2 & H3 & _). done. }
  done.
Qed.

Lemma extracted_graph_witness :
  state_var fsm_example_graph <> "".
Proof.
  assert (Hc : exists cands,
             detect_fsm_enum_candidates_from_cst path_id fsm_example
             = Return cands).
  { eexists. vm_compute. reflexivity. }
  destruct Hc as [cands Hc].
  refine (proj1 (proj2 (proj2 (proj2 (proj2
    (extracted_graph_well_formed path_id fsm_example [fsm_example_graph]
       cands fsm_example_graph _ Hc _)))))).
  - vm_compute. reflexivity.
  - left. reflexivity.
Defined.

(** X3. The extraction builds at most one graph for a scope and an
    enum name: no two graphs of its result have the same scope and the
    same enum name. *)
Theorem one_graph_per_scope_and_enum (py_id : Identities) (tree : Node)
        (graphs : list FSMGraph) :
  build_fsm_graphs_from_cst py_id tree = Return graphs ->
  NoDup (map (fun g => (scope g, enum_name g)) graphs).
Proof.
  rewrite build_fsm_graphs_eq.
  destruct (detect_fsm_enum_candidates_from_cst py_id tree) as [cands|];
    simpl; [|done].
  destruct (detect_enum_variables_from_cst py_id tree) as [vars|];
    simpl; [|done].
  intros [= <-].
  assert (Hok : groups_ok cands (foldl group_step [] cands)).
  { apply groups_fold_ok; [done|]. split; [constructor|intros ? ? []]. }
  destruct Hok as [Hnd _].
  apply (flat_map_keys_NoDup _ fst graph_key); [exact Hnd|].
  intros [key vs] g Hg.
  apply graph_of_group_shape in Hg as (Heq & Hkey & _). done.
Qed.

Lemma one_graph_witness :
  NoDup (map (fun g => (scope g, enum_name g)) [fsm_example_graph]).
Proof.
  apply (one_graph_per_scope_and_enum path_id fsm_example).
  vm_compute. reflexivity.
Defined.

(** X1. A graph of the extraction goes through the generator
    whenever its states are different from each other: the ends of its
    transitions and its reset state always pass the validation. When
    two of its states are the same the generator raises the error of
    duplicate states. *)
Theorem extracted_graph_generates (py_id : Identities) (tree : Node)
        (graphs : list FSMGraph) (g : FSMGraph) (self : FSMCodeGenerator)
        (module_name : option string) :
  build_fsm_graphs_from_cst py_id tree = Return graphs ->
  In g graphs ->
  (NoDup (states g) ->
   exists code, generate_code_from_graph self g module_name = Return code)
  /\ (~ NoDup (states g) ->
      generate_code_from_graph self g module_name
      = Raise (ValueError "Duplicate states found")).
Proof.
  rewrite build_fsm_graphs_eq.
  destruct (detect_fsm_enum_candidates_from_cst py_id tree) as [cands|];
    simpl; [|done].
  destruct (detect_enum_variables_from_cst py_id tree) as [vars|];
    simpl; [|done].
  intros [= <-] Hin. apply in_flat_map in Hin as (group & _ & Hg).
  apply graph_of_group_invariants in Hg as (_ & Hedges & Hreset & _).
  split.
  - intros Hnd.
    assert (Hv : _validate_graph g = Return tt).
    { apply validate_graph_ok. split; [done|].
      split.
      - intros t Ht. apply list_elem_of_In in Ht.
        destruct (Hedges t Ht). split; by apply list_elem_of_In.
      - intros r Hr _. by apply list_elem_of_In, Hreset. }
    unfold generate_code_from_graph. rewrite Hv. simpl. by eexists.
  - intros Hnd.
    destruct (_validate_graph g) as [[]|e] eqn:Hv.
    + apply validate_graph_ok in Hv as [H _]. done.
    + unfold generate_code_from_graph. rewrite Hv. simpl.
      apply validate_graph_raise in Hv
        as [[_ ->] | [(t & Ht & Hf & _) | [(t & Ht & Hf & _) | (r & Hr & _ & Hf & _)]]].
      * done.
      * exfalso. apply Hf. apply list_elem_of_In in Ht.
        apply list_elem_of_In. by destruct (Hedges t Ht).
      * exfalso. apply Hf. apply list_elem_of_In in Ht.
        apply list_elem_of_In. by destruct (Hedges t Ht).
      * exfalso. apply Hf. by apply list_elem_of_In, Hreset.
Qed.

Lemma extracted_graph_generates_witness :
  exists code,
    generate_code_from_graph (mkGenerator "") fsm_example_graph None
    = Return code.
Proof.
  refine (proj1 (extracted_graph_generates path_id fsm_example
                   [fsm_example_graph] fsm_example_graph (mkGenerator "")
                   None _ _) _).
  - vm_compute. reflexivity.
  - left. reflexivity.
  - repeat (apply NoDup_cons_2;
            [rewrite ?elem_of_cons, elem_of_nil; intuition discriminate|]).
    apply NoDup_nil_2.
Defined.

Lemma find_first_enum_fold enum_members text :
  _find_first_enum_in_text enum_members text
  = snd (foldl (first_enum_step text) (None, None) enum_members).
Proof. reflexivity. Qed.

Lemma first_enum_fold_inv text l st :
  let r := foldl (first_enum_step text) st l in
  r = st
  \/ exists m, In m l /\ r = (Some (find text m), Some m)
       /\ find text m <> (-1)%Z
       /\ match fst st with
          | Some i0 => (find text m < i0)%Z
          | None => True
          end.
Proof.
  revert st. induction l as [|m l IH]; intros st; simpl; [by left|].
  destruct (IH (first_enum_step text st m)) as [Hr | (m' & Hin & Hr & Hne & Hlt)].
  - rewrite Hr. unfold first_enum_step.
    destruct (find text m =? -1)%Z eqn:Hf; simpl; [by left|].
    apply Z.eqb_neq in Hf.
    destruct (fst st) as [i0|] eqn:Hst.
    + destruct (find text m <? i0)%Z eqn:Hlt; [|by left].
      apply Z.ltb_lt in Hlt. right. exists m.
      split; [by left|]. done.
    + right. exists m. split; [by left|]. done.
  - right. exists m'. split; [by right|]. split; [done|]. split; [done|].
    unfold first_enum_step in Hlt.
    destruct (find text m =? -1)%Z eqn:Hf; simpl in Hlt; [done|].
    destruct (fst st) as [i0|] eqn:Hst; [|done].
    destruct (find text m <? i0)%Z eqn:Hlt0; simpl in Hlt;
      [|by rewrite Hst in Hlt].
    apply Z.ltb_lt in Hlt0. lia.
Qed.

Lemma substring_prefix i a b t :
  String.substring i (String.length (a +:+ b)) t = a +:+ b ->
  String.substring i (String.length a) t = a.
Proof.
  revert t. induction i as [|i IHi]; intros t.
  - revert t. induction a as [|c a IHa]; intros t.
    + intros _. by destruct t.
    + rewrite string_app_cons. simpl. destruct t as [|d t]; [done|].
      intros [= -> H]. simpl. f_equal. by apply IHa.
  - destruct t as [|d t].
    + simpl. destruct a; [done|]. by rewrite string_app_cons.
    + simpl. apply IHi.
Qed.

Lemma prefix_app m1 m2 :
  String.prefix m1 m2 = true -> exists r, m2 = m1 +:+ r.
Proof.
  revert m2. induction m1 as [|c m1 IH]; intros m2.
  - intros _. by exists m2.
  - destruct m2 as [|d m2]; simpl; [done|].
    destruct (ascii_dec c d) as [->|]; [|done].
    intros H. destruct (IH _ H) as [r ->]. exists r.
    by rewrite string_app_cons.
Qed.

Lemma find_prefix text m1 m2 :
  String.prefix m1 m2 = true ->
  find text m2 <> (-1)%Z ->
  (0 <= find text m1 <= find text m2)%Z.
Proof.
  intros Hp Hne. destruct (prefix_app _ _ Hp) as [r ->].
  destruct (find_nonneg text (m1 +:+ r)) as (i2 & Hi2 & [Hocc _]);
    [by apply Z.eqb_neq|].
  rewrite Hi2. apply substring_prefix in Hocc.
  unfold find. destruct (String.index 0 m1 text) as [j|] eqn:Hj.
  - split; [lia|]. apply inj_le.
    destruct (le_lt_dec j i2) as [Hle | Hlt]; [done|].
    exfalso. eapply index_correct2; [exact Hj| |exact Hlt|exact Hocc]. lia.
  - exfalso. destruct m1 as [|c m1].
    + by destruct text.
    + eapply index_correct3; [exact Hj|done| |exact Hocc]. lia.
Qed.

(** X8. When a member is the beginning of another member that
    comes after it in the enum (and not before it), a text is never
    attributed to the longer one: wherever the longer name stands, the
    shorter one stands too, and the earlier member wins. *)
Theorem prefix_member_shadows (text : string) (before : list string)
        (m1 : string) (after : list string) (m2 : string) :
  ~ In m2 before -> m1 <> m2 -> String.prefix m1 m2 = true ->
  _find_first_enum_in_text (before ++ m1 :: after) text <> Some m2.
Proof.
  intros Hbefore Hne Hp. rewrite find_first_enum_fold, foldl_app. simpl.
  set (s1 := foldl (first_enum_step text) (None, None) before).
  assert (H1 : s1 = (None, None)
               \/ exists m, In m before /\ s1 = (Some (find text m), Some m)).
  { destruct (first_enum_fold_inv text before (None, None))
      as [Hr | (m & Hin & Hr & _)]; [by left|right]. by exists m. }
  destruct (Z.eq_dec (find text m2) (-1)%Z) as [Habs | Hocc].
  - (* [m2] does not occur: it is never taken *)
    destruct (first_enum_fold_inv text (before ++ m1 :: after) (None, None))
      as [Hr | (m & Hin & Hr & Hf & _)];
      rewrite foldl_app in Hr; simpl in Hr; fold s1 in Hr; rewrite Hr; simpl.
    + done.
    + intros [= ->]. done.
  - pose proof (find_prefix text m1 m2 Hp Hocc) as Hle.
    set (s2 := first_enum_step text s1 m1).
    assert (H2 : exists i m, s2 = (Some i, Some m) /\ (i <= find text m2)%Z
                             /\ m <> m2).
    { unfold s2, first_enum_step.
      assert (Hf1 : (find text m1 =? -1)%Z = false)
        by (apply Z.eqb_neq; lia).
      rewrite Hf1. simpl.
      destruct H1 as [-> | (m & Hin & ->)]; simpl.
      - exists (find text m1), m1. split; [done|]. split; [lia|done].
      - destruct (find text m1 <? find text m)%Z eqn:Hlt.
        + exists (find text m1), m1. split; [done|]. split; [lia|done].
        + apply Z.ltb_ge in Hlt. exists (find text m), m.
          split; [done|]. split; [lia|]. intros ->. done. }
    destruct H2 as (i & m & Hs2 & Hi & Hm).
    destruct (first_enum_fold_inv text after s2)
      as [Hr | (m' & Hin & Hr & _ & Hlt)]; rewrite Hr.
    + rewrite Hs2. simpl. congruence.
    + simpl. rewrite Hs2 in Hlt. simpl in Hlt. intros [= ->]. lia.
Qed.

Lemma prefix_member_witness :
  _find_first_enum_in_text (["S0"] ++ "S1" :: ["S10"]) "S10:next_state=S0;"
  <> Some "S10".
Proof.
  apply prefix_member_shadows.
  - intros [H | []]. discriminate H.
  - discriminate.
  - reflexivity.
Defined.

Example branch_of_S10_read_as_S1 :
  _find_first_enum_in_text ["S0"; "S1"; "S10"] "S10:next_state=S0;"
  = Some "S1".
Proof. reflexivity. Qed.

(* ---------------- code_generator.py: the signal names ------------- *)

Lemma re_search_at match_at s g :
  re_search match_at s = Some g ->
  exists before rest, s = before +:+ rest /\ match_at rest = Some g.
Proof.
  induction s as [|c s IH]; simpl.
  - destruct (match_at "") as [g'|] eqn:Hm; [|done].
    intros [= <-]. by exists "", "".
  - destruct (match_at (String c s)) as [g'|] eqn:Hm.
    + intros [= <-]. by exists "", (String c s).
    + intros H. destruct (IH H) as (before & rest & -> & Hr).
      by exists (String c before), rest.
Qed.

Lemma re_search_found match_at before rest g :
  match_at rest = Some g ->
  is_Some (re_search match_at (before +:+ rest)).
Proof.
  intros Hm. induction before as [|c before IH].
  - change ("" +:+ rest) with rest.
    destruct rest; simpl; rewrite Hm; by eexists.
  - rewrite string_app_cons. simpl.
    destruct (match_at (String c (before +:+ rest))); [by eexists|exact IH].
Qed.

Lemma span_word s a b :
  span is_word s = (a, b) -> all_chars is_word a = true.
Proof. intros H. by destruct (span_spec _ _ _ _ H) as (_ & Ha & _). Qed.

Lemma edge_match_at_word s w :
  edge_match_at s = Some w -> w <> "" /\ all_chars is_word w = true.
Proof.
  unfold edge_match_at.
  destruct (match drop_prefix "posedge" s with
            | Some r => Some r
            | None => drop_prefix "negedge" s
            end) as [r|]; [|done].
  cbn [mbind option_bind].
  destruct (span is_space r) as [ws r'].
  destruct (span is_word r') as [w' rest] eqn:Hw.
  destruct (truthy ws && truthy w') eqn:Ht; [|done].
  intros [= <-]. apply andb_prop in Ht as [_ Ht].
  split; [by apply truthy_true|by eapply span_word].
Qed.

Lemma last_edge_match_word run w :
  last_edge_match run = Some w -> w <> "" /\ all_chars is_word w = true.
Proof.
  induction run as [|c run IH]; simpl; [done|].
  destruct (last_edge_match run) as [w'|].
  - intros [= <-]. by apply IH.
  - apply edge_match_at_word.
Qed.

Lemma reset_match_at_word s w :
  reset_match_at s = Some w -> w <> "" /\ all_chars is_word w = true.
Proof.
  unfold reset_match_at.
  destruct (drop_prefix "always_ff" s) as [r1|]; [|done].
  cbn [mbind option_bind].
  destruct (drop_prefix "@" _) as [r2|]; [|done].
  cbn [mbind option_bind].
  destruct (drop_prefix "(" _) as [r3|]; [|done].
  cbn [mbind option_bind].
  apply last_edge_match_word.
Qed.

Lemma clock_match_at_word s w :
  clock_match_at s = Some w -> w <> "" /\ all_chars is_word w = true.
Proof.
  unfold clock_match_at.
  destruct (drop_prefix "always_ff" s) as [r1|]; [|done].
  cbn [mbind option_bind].
  destruct (drop_prefix "@" _) as [r2|]; [|done].
  cbn [mbind option_bind].
  destruct (drop_prefix "(posedge" _) as [r3|]; [|done].
  cbn [mbind option_bind].
  destruct (span is_space r3) as [ws r4].
  destruct (span is_word r4) as [w' rest] eqn:Hw.
  destruct (truthy ws && truthy w') eqn:Ht; [|done].
  intros [= <-]. apply andb_prop in Ht as [_ Ht].
  split; [by apply truthy_true|by eapply span_word].
Qed.

(** X13. The clock and the reset signal the generator writes in
    the sensitivity list are never empty and are made of word characters
    only, whatever the original text; the polarity is one of the two
    edge keywords; with no original text they are [clk], [rst] and
    [posedge]. *)
Theorem sensitivity_list_names (self : FSMCodeGenerator) :
  let clock_signal := _extract_clock_signal self in
  let reset_signal := _extract_reset_signal self in
  let reset_polarity := _extract_reset_polarity self in
  (clock_signal <> "" /\ all_chars is_word clock_signal = true)
  /\ (reset_signal <> "" /\ all_chars is_word reset_signal = true)
  /\ (reset_polarity = "posedge" \/ reset_polarity = "negedge")
  /\ (original_code_text self = "" ->
      clock_signal = "clk" /\ reset_signal = "rst"
      /\ reset_polarity = "posedge").
Proof.
  cbv zeta.
  unfold _extract_clock_signal, _extract_reset_signal,
    _extract_reset_polarity.
  split; [|split; [|split]].
  - destruct (truthy (original_code_text self)); [|done].
    destruct (re_search clock_match_at _) as [w|] eqn:Hs; [|done].
    apply re_search_at in Hs as (before & rest & _ & Hm).
    simpl. by eapply clock_match_at_word.
  - destruct (truthy (original_code_text self)); [|done].
    destruct (re_search reset_match_at _) as [w|] eqn:Hs; [|done].
    apply re_search_at in Hs as (before & rest & _ & Hm).
    simpl. by eapply reset_match_at_word.
  - destruct (_ && _ && _); [by right|by left].
  - intros ->. done.
Qed.

Lemma word_not_space c : is_word c = true -> is_space c = false.
Proof.
  destruct c as [[] [] [] [] [] [] [] []]; vm_compute; congruence.
Qed.

Lemma span_app_all p a b :
  all_chars p a = true ->
  span p (a +:+ b) = (a +:+ fst (span p b), snd (span p b)).
Proof.
  induction a as [|c a IH]; intros Ha.
  - change ("" +:+ b) with b. by destruct (span p b).
  - simpl in Ha. apply andb_prop in Ha as [Hc Ha].
    rewrite string_app_cons. simpl. rewrite Hc, IH by exact Ha.
    by rewrite string_app_cons.
Qed.

Lemma all_chars_impl (p q : ascii -> bool) s :
  (forall c, p c = true -> q c = true) ->
  all_chars p s = true -> all_chars q s = true.
Proof.
  intros Hpq. induction s as [|c s IH]; simpl; [done|].
  intros H. apply andb_prop in H as [Hc Hs].
  by rewrite (Hpq c Hc), IH.
Qed.

Lemma span_head_fails p s :
  match s with "" => True | String c _ => p c = false end ->
  span p s = ("", s).
Proof. destruct s as [|c s]; simpl; [done|]. by intros ->. Qed.

Lemma drop_prefix_app p r : drop_prefix p (p +:+ r) = Some r.
Proof.
  induction p as [|c p IH]; [done|].
  rewrite string_app_cons. simpl. by rewrite Ascii.eqb_refl.
Qed.

Lemma last_edge_match_some run :
  is_Some (edge_match_at run) -> is_Some (last_edge_match run).
Proof.
  destruct run as [|c run]; simpl.
  - intros [w Hw]. done.
  - intros H. by destruct (last_edge_match run); [eexists|].
Qed.

Lemma clock_match_gives_reset_match s g :
  clock_match_at s = Some g -> is_Some (reset_match_at s).
Proof.
  unfold clock_match_at, reset_match_at.
  destruct (drop_prefix "always_ff" s) as [r1|]; [|done].
  cbn [mbind option_bind].
  destruct (drop_prefix "@" _) as [r2|]; [|done].
  cbn [mbind option_bind].
  destruct (drop_prefix "(posedge" (snd (span is_space r2))) as [r3|] eqn:Hd;
    [|done].
  cbn [mbind option_bind].
  apply drop_prefix_Some in Hd. rewrite Hd.
  change ("(posedge" +:+ r3) with ("(" +:+ ("posedge" +:+ r3)).
  rewrite drop_prefix_app. cbn [mbind option_bind].
  destruct (span is_space r3) as [ws r4] eqn:Hws.
  destruct (span is_word r4) as [w rest] eqn:Hw.
  destruct (truthy ws && truthy w) eqn:Ht; [|done].
  intros _. apply andb_prop in Ht as [Hws1 Hw1].
  destruct (span_spec _ _ _ _ Hws) as (-> & Hsp & Hr4).
  destruct (span_spec _ _ _ _ Hw) as (-> & Hwd & Hrest).
  set (notparen := fun c : ascii => negb (Ascii.eqb c ")")).
  assert (Hnp1 : all_chars notparen "posedge" = true) by done.
  assert (Hnp2 : all_chars notparen ws = true).
  { eapply all_chars_impl; [|exact Hsp]. intros c Hc. unfold notparen.
    apply negb_true_iff, Ascii.eqb_neq. intros ->. done. }
  assert (Hnp3 : all_chars notparen w = true).
  { eapply all_chars_impl; [|exact Hwd]. intros c Hc. unfold notparen.
    apply negb_true_iff, Ascii.eqb_neq. intros ->. done. }
  apply last_edge_match_some.
  rewrite (span_app_all notparen "posedge") by exact Hnp1.
  rewrite (span_app_all notparen ws) by exact Hnp2.
  rewrite (span_app_all notparen w) by exact Hnp3.
  cbn [fst]. unfold edge_match_at. rewrite drop_prefix_app.
  cbn [mbind option_bind].
  set (more := fst (span notparen rest)).
  rewrite (span_app_all is_space ws) by exact Hsp.
  assert (Hmore : span is_space (w +:+ more) = ("", w +:+ more)).
  { apply span_head_fails. destruct w as [|c w]; [done|].
    rewrite string_app_cons. simpl in Hwd.
    apply andb_prop in Hwd as [Hc _]. by apply word_not_space. }
  rewrite Hmore. cbn [fst snd]. rewrite string_app_nil_r.
  rewrite (span_app_all is_word w) by exact Hwd. cbn [fst snd].
  rewrite Hws1.
  destruct w as [|c w]; [done|]. rewrite string_app_cons. by eexists.
Qed.

(** X14. Whenever the pattern of the clock finds a name in the
    original text, the pattern of the reset finds one too: the reset
    signal is then read off a sensitivity list (its last edge), and the
    default is not used, also when the list names the clock only. *)
Theorem reset_found_when_clock_found (self : FSMCodeGenerator) (c : string) :
  re_search clock_match_at (original_code_text self) = Some c ->
  exists r,
    re_search reset_match_at (original_code_text self) = Some r
    /\ (original_code_text self <> "" -> _extract_reset_signal self = r).
Proof.
  intros Hc. apply re_search_at in Hc as (before & rest & Htext & Hm).
  destruct (clock_match_gives_reset_match _ _ Hm) as [r0 Hr0].
  destruct (re_search_found reset_match_at before rest r0 Hr0) as [r Hr].
  rewrite <- Htext in Hr. exists r. split; [done|].
  intros Hne. unfold _extract_reset_signal.
  apply truthy_true in Hne. by rewrite Hne, Hr.
Qed.

Lemma reset_found_witness :
  exists r,
    re_search reset_match_at (original_code_text no_reset_edge) = Some r
    /\ (original_code_text no_reset_edge <> "" ->
        _extract_reset_signal no_reset_edge = r).
Proof.
  apply (reset_found_when_clock_found no_reset_edge "clk"). reflexivity.
Defined.

Example reset_is_clock_without_reset_edge :
  _extract_clock_signal no_reset_edge = "clk"
  /\ _extract_reset_signal no_reset_edge = "clk".
Proof. split; reflexivity. Qed.

(* ---------------- code_generator.py: the module name -------------- *)

Lemma last_Forall {A : Type} (P : A -> Prop) (l : list A) (d : A) :
  Forall P l -> l <> [] -> P (List.last l d).
Proof.
  intros Hall Hne. rewrite List.Forall_forall in Hall.
  apply Hall, last_In, Hne.
Qed.

Lemma join_first_last sep a l z :
  exists body, join sep (a :: l ++ [z]) = a +:+ body +:+ z.
Proof.
  revert a. induction l as [|x l IH]; intros a.
  - by exists sep.
  - destruct (IH x) as [body Hbody]. exists (sep +:+ x +:+ body).
    change ((x :: l) ++ [z]) with (x :: l ++ [z]).
    assert (Hj : join sep (a :: x :: l ++ [z])
                 = a +:+ sep +:+ join sep (x :: l ++ [z])).
    { by destruct l. }
    by rewrite Hj, Hbody, !string_app_assoc.
Qed.

Lemma module_name_used_nonempty g mn :
  module_name_used g mn <> ""
  /\ (otruthy mn = false -> nospace (module_name_used g mn) = true).
Proof.
  unfold module_name_used. destruct (otruthy mn) eqn:Hmn.
  - split; [|done]. destruct mn as [x|]; [|done]. by apply truthy_true.
  - destruct (1 <? length (split_ws (scope g))) eqn:Hlen; [|done].
    assert (Hne : split_ws (scope g) <> []).
    { intros Heq. rewrite Heq in Hlen. done. }
    pose proof (last_Forall _ _ "" (split_ws_tokens (scope g)) Hne) as [H1 H2].
    done.
Qed.

(** X12. The text the generator returns opens with the header of
    the module and closes with its [endmodule] line, both with the same
    name. The name is never empty: it is the name asked for, or else the
    last word of the scope when the scope has more than one word, or
    else [fsm_example]; in the last two cases it holds no whitespace. *)
Theorem generated_module_name (self : FSMCodeGenerator) (g : FSMGraph)
        (module_name : option string) (code : string) :
  generate_code_from_graph self g module_name = Return code ->
  let name := module_name_used g module_name in
  (exists body,
      code = "module " +:+ name +:+ " (" +:+ body +:+ "endmodule : " +:+ name)
  /\ name <> ""
  /\ (otruthy module_name = false ->
      nospace name = true
      /\ (name = "fsm_example" \/ In name (split_ws (scope g)))).
Proof.
  unfold generate_code_from_graph.
  destruct (_validate_graph g) as [[]|]; simpl; [|done].
  intros [= <-]. cbv zeta. fold (module_name_used g module_name).
  destruct (module_name_used_nonempty g module_name) as [Hne Hsp].
  split; [|split; [done|]].
  - unfold _assemble_code.
    match goal with
    | |- exists body, join ?sep (?a :: ?l) = _ =>
        destruct (join_first_last sep a
                    (removelast l) (List.last l "")) as [body Hbody];
        change (removelast l ++ [List.last l ""]) with l in Hbody
    end.
    exists body. rewrite Hbody.
    cbn [List.last]. by rewrite !string_app_assoc.
  - intros Hmn. split; [by apply Hsp|].
    unfold module_name_used. rewrite Hmn.
    destruct (1 <? length (split_ws (scope g))) eqn:Hlen; [|by left].
    right. apply last_In. intros Heq. rewrite Heq in Hlen. done.
Qed.

Lemma generated_module_name_witness :
  module_name_used fsm_example_graph None <> "".
Proof.
  refine (proj1 (proj2 (generated_module_name (mkGenerator "")
            fsm_example_graph None _ _))).
  vm_compute. reflexivity.
Defined.

(* ---------------- code_generator.py: the next-state block --------- *)

Lemma group_transitions_filter ts s :
  default [] (group_transitions ts !! s)
  = List.filter (fun t => String.eqb (t_from t) s) ts.
Proof.
  unfold group_transitions. rewrite group_transitions_lookup.
  by rewrite lookup_empty.
Qed.

(** X11. The next-state block depends on the transitions only
    through the list, for every state, of the transitions that leave
    it, in their order: two graphs with the same variables and states
    whose transitions agree state by state have the same block. So the
    order between edges of different states does not matter, and an
    edge that leaves an unlisted state leaves no trace. *)
Theorem next_state_block_per_state (g g' : FSMGraph) :
  state_var g = state_var g' ->
  next_state_var g = next_state_var g' ->
  states g = states g' ->
  (forall s, In s (states g) ->
     List.filter (fun t => String.eqb (t_from t) s) (transitions g)
     = List.filter (fun t => String.eqb (t_from t) s) (transitions g')) ->
  always_comb_lines g = always_comb_lines g'.
Proof.
  intros Hsv Hnx Hst Hts. unfold always_comb_lines, comb_target.
  rewrite <- Hsv, <- Hnx, <- Hst. do 3 f_equal.
  f_equal. f_equal. apply map_ext_in. intros s Hs. unfold emit_state.
  by rewrite !group_transitions_filter, (Hts s Hs).
Qed.

Lemma next_state_block_witness :
  always_comb_lines g_two_stray = always_comb_lines g_two.
Proof.
  apply next_state_block_per_state; try reflexivity.
  intros s [<- | [<- | []]]; reflexivity.
Defined.

Lemma unconditional_eq cond :
  unconditional cond = negb (truthy cond && negb (String.eqb cond "1")).
Proof.
  unfold unconditional.
  destruct (String.eqb cond "1"); destruct cond; reflexivity.
Qed.

Lemma removelast_snoc {A : Type} (l : list A) (x : A) :
  removelast (l ++ [x]) = l.
Proof. apply removelast_last. Qed.

Lemma dot_lines_eq g :
  fsm_graph_to_dot_lines g
  = ("digraph " +:+ dquote
     +:+ replace_char " " "_" (scope g +:+ "_" +:+ state_var g)
     +:+ dquote +:+ " {")
    :: (map (fun s =>
               if otruthy (reset_state g)
                  && bool_decide (Some s = reset_state g)
               then doublecircle_line s else circle_line s)
            (states g)
        ++ map (fun t =>
                  if unconditional (t_cond t) then plain_edge_line t
                  else labelled_edge_line t)
               (transitions g))
       ++ ["}"].
Proof.
  assert (He : map (fun t =>
                      if unconditional (t_cond t) then plain_edge_line t
                      else labelled_edge_line t) (transitions g)
               = map (fun t =>
                        if truthy (t_cond t)
                           && negb (String.eqb (t_cond t) "1")
                        then labelled_edge_line t else plain_edge_line t)
                     (transitions g)).
  { apply map_ext. intros t. rewrite unconditional_eq.
    by destruct (truthy (t_cond t) && negb (String.eqb (t_cond t) "1")). }
  rewrite He. reflexivity.
Qed.

Lemma dot_body_eq g :
  dot_body g
  = map (fun s =>
           if otruthy (reset_state g) && bool_decide (Some s = reset_state g)
           then doublecircle_line s else circle_line s)
        (states g)
    ++ map (fun t =>
              if unconditional (t_cond t) then plain_edge_line t
              else labelled_edge_line t)
           (transitions g).
Proof.
  unfold dot_body. rewrite dot_lines_eq. simpl. apply removelast_snoc.
Qed.

Lemma dot_clusters_eq i graphs :
  dot_clusters i graphs
  = concat (imap (fun j g => dot_cluster (i + j) g) graphs).
Proof.
  revert i. induction graphs as [|g graphs IH]; intros i; [done|].
  assert (Hn : map (fun line => "  " +:+ line)
                   (map (fun s =>
                           if otruthy (reset_state g)
                              && bool_decide (Some s = reset_state g)
                           then doublecircle_line s else circle_line s)
                        (states g))
               = map (fun s =>
                        if otruthy (reset_state g)
                           && bool_decide (Some s = reset_state g)
                        then "    " +:+ s +:+ " [shape=doublecircle];"
                        else "    " +:+ s +:+ " [shape=circle];")
                     (states g)).
  { rewrite map_map. apply map_ext. intros s.
    by destruct (otruthy (reset_state g)
                 && bool_decide (Some s = reset_state g)). }
  assert (He : map (fun line => "  " +:+ line)
                   (map (fun t =>
                           if unconditional (t_cond t) then plain_edge_line t
                           else labelled_edge_line t) (transitions g))
               = map (fun t =>
                        if truthy (t_cond t)
                           && negb (String.eqb (t_cond t) "1")
                        then "    " +:+ t_from t +:+ " -> " +:+ t_to t
                             +:+ " [label=" +:+ dquote +:+ t_cond t
                             +:+ dquote +:+ "];"
                        else "    " +:+ t_from t +:+ " -> " +:+ t_to t
                             +:+ ";")
                     (transitions g)).
  { rewrite map_map. apply map_ext. intros t. rewrite unconditional_eq.
    by destruct (truthy (t_cond t) && negb (String.eqb (t_cond t) "1")). }
  change (dot_clusters i (g :: graphs))
    with (((([ "  subgraph cluster_" +:+ of_int (Z.of_nat i) +:+ " {";
             "    label=" +:+ dquote
             +:+ (scope g +:+ " (" +:+ state_var g +:+ ")")
             +:+ dquote +:+ ";"]
           ++ map (fun s =>
                     if otruthy (reset_state g)
                        && bool_decide (Some s = reset_state g)
                     then "    " +:+ s +:+ " [shape=doublecircle];"
                     else "    " +:+ s +:+ " [shape=circle];")
                  (states g))
          ++ map (fun t =>
                    if truthy (t_cond t)
                       && negb (String.eqb (t_cond t) "1")
                    then "    " +:+ t_from t +:+ " -> " +:+ t_to t
                         +:+ " [label=" +:+ dquote +:+ t_cond t
                         +:+ dquote +:+ "];"
                    else "    " +:+ t_from t +:+ " -> " +:+ t_to t +:+ ";")
                 (transitions g))
          ++ ["  }"]) ++ dot_clusters (S i) graphs).
  rewrite <- Hn, <- He, IH.
  change (imap (fun j g0 => dot_cluster (i + j) g0) (g :: graphs))
    with (dot_cluster (i + 0) g
          :: imap (fun j g0 => dot_cluster (i + S j) g0) graphs).
  cbn [concat]. f_equal.
  - unfold dot_cluster. rewrite Nat.add_0_r, dot_body_eq, map_app.
    by rewrite <- !app_assoc.
  - f_equal. apply imap_ext. intros j g' _. simpl.
    by replace (i + S j) with (S i + j) by lia.
Qed.

(** X15. The export of several graphs draws every graph as the
    export of one graph does: between the opening lines and the closing
    brace stand the clusters of the graphs in their order, and the
    cluster of the graph at index [i] is named [cluster_i], labelled
    with its scope and state variable, and holds the node and edge
    lines of the single export of that graph, two spaces further in.
    The single export has one line for each state and each transition
    between its first and last line. *)
Theorem dot_clusters_are_single_exports (graphs : list FSMGraph) :
  fsm_graphs_to_dot_lines graphs
  = ["digraph FSMs {"; "  compound=true;"]
    ++ concat (imap dot_cluster graphs) ++ ["}"]
  /\ forall g,
       length (dot_body g) = length (states g) + length (transitions g)
       /\ exists first,
            fsm_graph_to_dot_lines g = first :: dot_body g ++ ["}"].
Proof.
  split.
  - unfold fsm_graphs_to_dot_lines. rewrite dot_clusters_eq. done.
  - intros g. split.
    + rewrite dot_body_eq, length_app, !length_map. done.
    + eexists. rewrite dot_body_eq. apply dot_lines_eq.
Qed.

Lemma NoDup_split (l : list string) (r : string) :
  NoDup l -> In r l ->
  exists s1 s2, l = s1 ++ r :: s2 /\ ~ In r s1 /\ ~ In r s2.
Proof.
  intros Hnd Hin. apply in_split in Hin as (s1 & s2 & ->).
  exists s1, s2. split; [done|].
  apply NoDup_app in Hnd as (_ & Hdis & Hnd2).
  apply NoDup_cons in Hnd2 as [Hr _]. split.
  - intros H. apply (Hdis r); [by apply list_elem_of_In|apply list_elem_of_here].
  - intros H. by apply Hr, list_elem_of_In.
Qed.

Lemma firstn_map_app {A B : Type} (f : A -> B) (l : list A) (k : list B) :
  firstn (length l) (map f l ++ k) = map f l.
Proof.
  rewrite <- (length_map f l). rewrite firstn_app, Nat.sub_diag, firstn_all.
  simpl. apply app_nil_r.
Qed.

(** X16. In the export of a graph that the generator accepts,
    the node lines are one for each state, in order; when a reset state
    is set, its line is the only one with the double circle, and when
    none is set no line has it. *)
Theorem dot_marks_the_reset_state (g : FSMGraph) :
  valid_graph g ->
  let node_lines := firstn (length (states g)) (dot_body g) in
  (forall r, reset_state g = Some r -> r <> "" ->
     exists s1 s2,
       states g = s1 ++ r :: s2 /\ ~ In r s1 /\ ~ In r s2
       /\ node_lines
          = map circle_line s1 ++ doublecircle_line r :: map circle_line s2)
  /\ (otruthy (reset_state g) = false ->
      node_lines = map circle_line (states g)).
Proof.
  intros (Hnd & _ & Hreset). cbv zeta.
  rewrite dot_body_eq, firstn_map_app. split.
  - intros r Hr Hne.
    destruct (NoDup_split (states g) r Hnd) as (s1 & s2 & Hst & H1 & H2).
    { by apply list_elem_of_In, Hreset. }
    exists s1, s2. split; [done|]. split; [done|]. split; [done|].
    rewrite Hst, Hr, map_app. simpl.
    apply truthy_true in Hne. rewrite Hne. simpl.
    rewrite bool_decide_eq_true_2 by done.
    f_equal; [|f_equal]; apply map_ext_in; intros s Hs;
      rewrite bool_decide_eq_false_2; try done; intros [= ->]; done.
  - intros Hno. rewrite Hno. done.
Qed.

Lemma dot_marks_witness :
  exists s1 s2,
    states fsm_example_graph = s1 ++ "IDLE" :: s2
    /\ ~ In "IDLE" s1 /\ ~ In "IDLE" s2
    /\ firstn (length (states fsm_example_graph))
              (dot_body fsm_example_graph)
       = map circle_line s1 ++ doublecircle_line "IDLE"
                            :: map circle_line s2.
Proof.
  refine (proj1 (dot_marks_the_reset_state fsm_example_graph _)
                "IDLE" eq_refl _).
  - split; [|split].
    + repeat (apply NoDup_cons_2;
              [rewrite ?elem_of_cons, elem_of_nil; intuition discriminate|]).
      apply NoDup_nil_2.
    + intros t Ht. simpl in Ht. rewrite !elem_of_cons, elem_of_nil in Ht.
      destruct Ht as [-> | [-> | [-> | [-> | []]]]]; simpl;
        rewrite !elem_of_cons; auto 10.
    + intros r [= <-] _. apply list_elem_of_here.
  - discriminate.
Defined.

(* ---------------- what counts as an unconditional edge ------------ *)

Lemma stripped_head c :
  strip c = c ->
  match c with "" => True | String a _ => is_space a = false end.
Proof.
  intros H. pose proof (lstrip_head c) as Hh.
  assert (Hl : lstrip c = c).
  { pose proof (strip_lstrip c) as H'. by rewrite H in H'. }
  by rewrite Hl in Hh.
Qed.

Lemma remove_ws_empty_rstrip r : remove_ws r = "" -> rstrip r = "".
Proof.
  induction r as [|a r IH]; [done|]. rewrite rstrip_cons.
  change (remove_ws (String a r))
    with (if is_space a then remove_ws r else String a (remove_ws r)).
  destruct (is_space a) eqn:Ha; [|done].
  intros H. by rewrite (IH H).
Qed.

Lemma stripped_of_remove_ws c :
  strip c = c ->
  (remove_ws c = "" -> c = "") /\ (remove_ws c = "1" -> c = "1").
Proof.
  intros Hs. pose proof (stripped_head c Hs) as Hh.
  assert (Hr : rstrip c = c).
  { pose proof (strip_rstrip c) as H. by rewrite Hs in H. }
  destruct c as [|a r]; [done|]. simpl. rewrite Hh. split; [done|].
  intros [= -> Hrest]. rewrite rstrip_cons in Hr.
  by rewrite (remove_ws_empty_rstrip _ Hrest) in Hr.
Qed.

Lemma stripped_unconditional c :
  strip c = c ->
  (unconditional c = true <-> c = "" \/ c = "1")
  /\ (GraphBuilderTests.normalize_cond (Some c) = "1"
      <-> unconditional c = true)
  /\ (GraphViz._normalize_cond (Some c) = ""
      \/ GraphViz._normalize_cond (Some c) = "1"
      <-> unconditional c = true).
Proof.
  intros Hs.
  assert (Hu : unconditional c = true <-> c = "" \/ c = "1").
  { unfold unconditional. split.
    - intros H. apply orb_prop in H as [H | H].
      + apply orb_prop in H as [H | H].
        * right. by apply String.eqb_eq.
        * left. destruct c; [done|]. done.
      + left. by apply String.eqb_eq.
    - intros [-> | ->]; reflexivity. }
  split; [exact Hu|]. split.
  - rewrite Hu. unfold GraphBuilderTests.normalize_cond. rewrite Hs.
    destruct c as [|a r]; simpl; [tauto|].
    split; [by right|]. by intros [H | H].
  - rewrite Hu.
    destruct (stripped_of_remove_ws c Hs) as [H0 H1].
    pose proof (remove_ws_join_split "" c eq_refl) as Hrw.
    unfold GraphViz._normalize_cond. rewrite split_ws_strip.
    fold (split_ws c) in Hrw. rewrite string_app_nil_l in Hrw.
    split.
    + intros [H | H]; rewrite H in Hrw; [left; by apply H0|right; by apply H1].
    + intros [-> | ->]; [by left|by right].
Qed.

Lemma extracted_conditions_stripped (py_id : Identities) tree graphs g t :
  build_fsm_graphs_from_cst py_id tree = Return graphs ->
  In g graphs -> In t (transitions g) -> strip (t_cond t) = t_cond t.
Proof.
  rewrite build_fsm_graphs_eq.
  destruct (detect_fsm_enum_candidates_from_cst py_id tree) as [cands|];
    simpl; [|done].
  destruct (detect_enum_variables_from_cst py_id tree) as [vars|];
    simpl; [|done].
  intros [= <-] Hin. apply in_flat_map in Hin as ([key vs] & _ & Hg).
  apply graph_of_group_shape in Hg. by apply Hg.
Qed.

(** X10. For every transition of a graph of the extraction, the
    generator, the DOT export and the two normalisations agree on
    whether it is unconditional. The condition is then the empty text
    or [1]; the generator writes a plain assignment exactly when the
    export draws the edge without a label, when the comparison of the
    test suite normalises the condition to [1], and when the
    normalisation of the viewer gives the empty text or [1]. *)
Theorem unconditional_edges_agree (py_id : Identities) (tree : Node)
        (graphs : list FSMGraph) (g : FSMGraph) (i : nat) (t : Transition) :
  build_fsm_graphs_from_cst py_id tree = Return graphs ->
  In g graphs ->
  transitions g !! i = Some t ->
  let u := unconditional (t_cond t) in
  (u = true <-> t_cond t = "" \/ t_cond t = "1")
  /\ dot_body g !! (length (states g) + i)
     = Some (if u then plain_edge_line t else labelled_edge_line t)
  /\ (GraphBuilderTests.normalize_cond (Some (t_cond t)) = "1" <-> u = true)
  /\ (GraphViz._normalize_cond (Some (t_cond t)) = ""
      \/ GraphViz._normalize_cond (Some (t_cond t)) = "1"
      <-> u = true).
Proof.
  intros Hb Hg Hi. cbv zeta.
  assert (Hin : In t (transitions g)).
  { eapply list_elem_of_In, list_elem_of_lookup_2, Hi. }
  pose proof (extracted_conditions_stripped _ _ _ _ _ Hb Hg Hin) as Hs.
  destruct (stripped_unconditional _ Hs) as (H1 & H2 & H3).
  split; [exact H1|]. split; [|split; [exact H2|exact H3]].
  rewrite dot_body_eq, lookup_app_r by (rewrite length_map; lia).
  rewrite length_map.
  replace (length (states g) + i - length (states g)) with i by lia.
  rewrite (map_is_fmap _ (transitions g)), list_lookup_fmap, Hi.
  reflexivity.
Qed.

Lemma unconditional_edges_witness :
  dot_body fsm_example_graph !! (length (states fsm_example_graph) + 1)
  = Some "  REQ -> WAIT;".
Proof.
  refine (proj1 (proj2 (unconditional_edges_agree path_id fsm_example
            [fsm_example_graph] fsm_example_graph 1
            (mkTransition "REQ" "WAIT" "1") _ _ _))).
  - vm_compute. reflexivity.
  - left. reflexivity.
  - reflexivity.
Defined.

Lemma string_length_app_eq a b a' b' :
  a +:+ b = a' +:+ b' -> String.length b = String.length b' ->
  a = a' /\ b = b'.
Proof.
  revert a'. induction a as [|c a IH]; intros a' H Hlen.
  - destruct a' as [|c' a']; [done|].
    change ("" +:+ b) with b in H. subst b.
    rewrite string_app_length in Hlen. simpl in Hlen. lia.
  - destruct a' as [|c' a'].
    + change ("" +:+ b') with b' in H. subst b'.
      rewrite string_app_length in Hlen. simpl in Hlen. lia.
    + rewrite !string_app_cons in H. injection H as -> H.
      destruct (IH _ H Hlen) as [-> ->]. done.
Qed.

Lemma graph_id_of_inj p i q j :
  graph_id_of p i = graph_id_of q j -> p = q /\ i = j.
Proof.
  unfold graph_id_of. intros H.
  assert (Hd : of_int (Z.of_nat i) = of_int (Z.of_nat j)).
  { pose proof (after_last_underscore_app (of_int p) _
                  (of_int_no_underscore (Z.of_nat i))) as H1.
    pose proof (after_last_underscore_app (of_int q) _
                  (of_int_no_underscore (Z.of_nat j))) as H2.
    rewrite H in H1. rewrite H1 in H2. by injection H2. }
  rewrite Hd in H.
  apply (string_length_app_eq (of_int p) _ (of_int q)) in H as [Hp _];
    [|done].
  split; [by apply of_int_inj|]. apply of_int_inj in Hd. lia.
Qed.

Lemma tag_graphs_lookup pid k gs i sg :
  Backend.tag_graphs pid k gs !! i = Some sg <->
  exists g, gs !! i = Some g
            /\ sg = Backend.mkStoredGraph g pid (graph_id_of pid (k + i)).
Proof.
  revert k i. induction gs as [|g gs IH]; intros k i; simpl.
  - split; [done|]. by intros (g & H & _).
  - destruct i as [|i]; simpl.
    + rewrite Nat.add_0_r. split.
      * intros [= <-]. by exists g.
      * intros (g' & [= <-] & ->). done.
    + rewrite IH. replace (S k + i) with (k + S i) by lia. done.
Qed.

Lemma tag_graphs_length pid k gs :
  length (Backend.tag_graphs pid k gs) = length gs.
Proof. revert k. induction gs as [|g gs IH]; intros k; simpl; [done|]. by rewrite IH. Qed.

Lemma find_first_match (f : Backend.StoredGraph -> bool) l i g :
  l !! i = Some g -> f g = true ->
  (forall j g', j < i -> l !! j = Some g' -> f g' = false) ->
  List.find f l = Some g.
Proof.
  revert i. induction l as [|x l IH]; intros i; [done|].
  destruct i as [|i]; simpl.
  - intros [= ->] Hf _. by rewrite Hf.
  - intros Hi Hf Hbefore.
    rewrite (Hbefore 0 x) by (simpl; done || lia).
    apply (IH i Hi Hf). intros j g' Hj Hg'.
    apply (Hbefore (S j) g'); [lia|done].
Qed.

Lemma find_none_iff (f : Backend.StoredGraph -> bool) l :
  List.find f l = None <-> forall g, In g l -> f g = false.
Proof.
  split; [apply find_none|].
  induction l as [|x l IH]; [done|]. simpl. intros H.
  rewrite (H x) by (by left). apply IH. intros g Hg. apply H. by right.
Qed.

Lemma lookup_index_spec k l id :
  match Backend.lookup_index k l id with
  | Some i =>
      exists j g, i = k + j /\ l !! j = Some g /\ Backend.graph_id g = id
                  /\ forall j' g', j' < j -> l !! j' = Some g' ->
                                   Backend.graph_id g' <> id
  | None => forall g, In g l -> Backend.graph_id g <> id
  end.
Proof.
  revert k. induction l as [|x l IH]; intros k; simpl; [done|].
  destruct (String.eqb (Backend.graph_id x) id) eqn:Hx.
  - apply String.eqb_eq in Hx. exists 0, x. rewrite Nat.add_0_r.
    split; [done|]. split; [done|]. split; [done|]. intros j' g' Hj. lia.
  - apply String.eqb_neq in Hx. specialize (IH (S k)).
    destruct (Backend.lookup_index (S k) l id) as [i|].
    + destruct IH as (j & g & -> & Hj & Hid & Hbefore).
      exists (S j), g. split; [lia|]. split; [done|]. split; [done|].
      intros [|j'] g' Hlt; simpl.
      * by intros [= <-].
      * apply Hbefore. lia.
    + intros g [<- | Hg]; [done|by apply IH].
Qed.

Lemma find_insert_other (f : Backend.StoredGraph -> bool) l i old u :
  l !! i = Some old -> f old = false -> f u = false ->
  List.find f (<[ i := u ]> l) = List.find f l.
Proof.
  revert i. induction l as [|x l IH]; intros i; [done|].
  destruct i as [|i]; simpl.
  - intros [= ->] -> ->. done.
  - intros Hi Ho Hu. by rewrite (IH i Hi Ho Hu).
Qed.

Lemma find_insert_first (f : Backend.StoredGraph -> bool) l i old u :
  l !! i = Some old -> f u = true ->
  (forall j g', j < i -> l !! j = Some g' -> f g' = false) ->
  List.find f (<[ i := u ]> l) = Some u.
Proof.
  intros Hi Hu Hbefore.
  apply (find_first_match f _ i).
  - rewrite list_lookup_insert_eq; [done|]. by eapply lookup_lt_Some.
  - done.
  - intros j g' Hj Hg'. rewrite list_lookup_insert_ne in Hg' by lia.
    by eapply Hbefore.
Qed.

Lemma parse_code_cases build (py_id : Identities) st request :
  (exists graphs,
      (tree <- build (Backend.code request)
                 (if otruthy (Backend.request_filename request)
                  then default "" (Backend.request_filename request)
                  else "source.sv") ;;
       build_fsm_graphs_from_cst py_id tree) = Return graphs
      /\ Backend.parse_code build py_id st request
         = (Backend.mkStore
              (Backend.tag_graphs (Backend.current_parse_id st + 1) 0 graphs)
              (Backend.current_parse_id st + 1)
              (<[ (Backend.current_parse_id st + 1)%Z := Backend.code request ]>
                 (Backend.original_code_storage st)),
            Backend.Ok
              (Backend.mkParseResponse true
                 (length (Backend.tag_graphs
                            (Backend.current_parse_id st + 1) 0 graphs))
                 (Backend.tag_graphs (Backend.current_parse_id st + 1) 0 graphs)
                 (Backend.current_parse_id st + 1))))
  \/ (exists e,
         Backend.parse_code build py_id st request
         = (st, Backend.HTTPException 500 (Backend.ParseError e))).
Proof.
  unfold Backend.parse_code.
  destruct (tree <- build _ _ ;; build_fsm_graphs_from_cst py_id tree)
    as [graphs|e].
  - left. by exists graphs.
  - right. by exists e.
Qed.

Lemma stored_graph_found st i g :
  Backend.graphs_storage st !! i = Some g ->
  (forall j g', Backend.graphs_storage st !! j = Some g' ->
     Backend.graph_id g' = graph_id_of (Backend.current_parse_id st) j) ->
  Backend.get_graph st (graph_id_of (Backend.current_parse_id st) i)
  = Backend.Ok g.
Proof.
  intros Hi Hids. unfold Backend.get_graph, Backend.lookup_graph.
  rewrite (find_first_match _ _ i g Hi).
  - done.
  - apply String.eqb_eq. by apply Hids.
  - intros j g' Hj Hg'. apply String.eqb_neq. rewrite (Hids j g' Hg').
    intros H. apply graph_id_of_inj in H as [_ ->]. lia.
Qed.

(** X21. A parse request that succeeds raises the parse number by
    one, keeps the source under the new number and replaces the stored
    graphs by the new ones; the answer lists the stored graphs, their
    number and the parse number, as a request for all graphs does
    afterwards. The graph at index [i] carries the
    parse number and the identifier made of the number and [i], and a
    request for that identifier returns this graph. A parse request
    that fails answers with status 500 and leaves the store as it
    was. *)
Theorem parse_then_get (build_cst_from_text : string -> string -> result Node)
        (py_id : Identities) (st : Backend.Store)
        (request : Backend.ParseRequest) :
  let st' := fst (Backend.parse_code build_cst_from_text py_id st request) in
  match snd (Backend.parse_code build_cst_from_text py_id st request) with
  | Backend.Ok resp =>
      Backend.current_parse_id st' = (Backend.current_parse_id st + 1)%Z
      /\ Backend.original_code_storage st' !! Backend.current_parse_id st'
         = Some (Backend.code request)
      /\ Backend.success resp = true
      /\ Backend.response_parse_id resp = Backend.current_parse_id st'
      /\ Backend.graphs resp = Backend.graphs_storage st'
      /\ Backend.graphs_count resp = length (Backend.graphs_storage st')
      /\ Backend.get_all_graphs st'
         = (Backend.graphs resp, Backend.graphs_count resp)
      /\ forall i g,
           Backend.graphs_storage st' !! i = Some g ->
           Backend.parse_id g = Backend.current_parse_id st'
           /\ Backend.graph_id g
              = graph_id_of (Backend.current_parse_id st') i
           /\ Backend.get_graph st' (Backend.graph_id g) = Backend.Ok g
  | Backend.HTTPException status_code detail =>
      st' = st /\ status_code = 500%Z
      /\ exists e, detail = Backend.ParseError e
  end.
Proof.
  cbv zeta.
  destruct (parse_code_cases build_cst_from_text py_id st request)
    as [(graphs & _ & ->) | (e & ->)]; simpl.
  - split; [done|]. split; [apply lookup_insert_eq|].
    do 5 (split; [done|]).
    intros i g Hi.
    assert (Hids : forall j g',
               Backend.tag_graphs (Backend.current_parse_id st + 1) 0 graphs
                 !! j = Some g' ->
               Backend.parse_id g' = (Backend.current_parse_id st + 1)%Z
               /\ Backend.graph_id g'
                  = graph_id_of (Backend.current_parse_id st + 1) j).
    { intros j g' Hg'. apply tag_graphs_lookup in Hg' as (g0 & _ & ->). done. }
    destruct (Hids i g Hi) as [Hp Hid]. split; [done|]. split; [done|].
    rewrite Hid.
    apply (stored_graph_found
             (Backend.mkStore _ (Backend.current_parse_id st + 1) _) i g Hi).
    intros j g' Hg'. by apply Hids.
  - split; [done|]. split; [done|]. by exists e.
Qed.

Lemma store_ok_initial : store_ok Backend.initial_store.
Proof.
  split; [done|]. split; [intros i g; done|]. split; [|done].
  intros k. simpl. rewrite lookup_empty. split; [by intros [? ?]|lia].
Qed.

Lemma store_ok_parse build (py_id : Identities) st request :
  store_ok st -> store_ok (fst (Backend.parse_code build py_id st request)).
Proof.
  intros (Hpos & Hids & Hcodes & Hone).
  destruct (parse_code_cases build py_id st request)
    as [(graphs & _ & ->) | (e & ->)]; simpl; [|done].
  split; [simpl; lia|]. split; [|split]; simpl.
  - intros i g Hg. apply tag_graphs_lookup in Hg as (g0 & _ & ->). done.
  - intros k.
    destruct (decide (k = (Backend.current_parse_id st + 1)%Z)) as [->|Hne].
    + rewrite lookup_insert_eq. split; [lia|by eexists].
    + rewrite lookup_insert_ne by done. rewrite Hcodes. lia.
  - intros _. lia.
Qed.

Lemma store_ok_update st id g :
  store_ok st -> store_ok (fst (Backend.update_graph st id g)).
Proof.
  intros (Hpos & Hids & Hcodes & Hone). unfold Backend.update_graph.
  pose proof (lookup_index_spec 0 (Backend.graphs_storage st) id) as Hspec.
  destruct (Backend.lookup_index 0 (Backend.graphs_storage st) id)
    as [i|]; [|done].
  destruct Hspec as (j & old & -> & Hj & Hid & _). simpl. rewrite Hj. simpl.
  split; [done|]. split; [|split; [done|]]; simpl.
  - intros i g' Hg'. destruct (decide (i = j)) as [->|Hne].
    + rewrite list_lookup_insert_eq in Hg' by (by eapply lookup_lt_Some).
      injection Hg' as <-. simpl. destruct (Hids j old Hj) as [Hp Hi].
      split; [done|]. by rewrite <- Hid.
    + rewrite list_lookup_insert_ne in Hg' by done. by apply Hids.
  - intros _. apply Hone. intros Hnil. by rewrite Hnil in Hj.
Qed.

Lemma reachable_ok build st : reachable build st -> store_ok st.
Proof.
  induction 1 as [|py_id st request _ IH|st id g _ IH].
  - apply store_ok_initial.
  - by apply store_ok_parse.
  - by apply store_ok_update.
Qed.

(** X22. In every store the service can reach, the graph at index
    [i] carries the number of the last parse and the identifier made of
    that number and [i]; the identifiers are different from each other,
    a request for the identifier of a stored graph returns that graph,
    and the source kept for its parse number is there, so that the
    generation never falls back on the empty source. The sources kept
    are those of the parse numbers from one to the current one. *)
Theorem store_invariant (build_cst_from_text : string -> string -> result Node)
        (st : Backend.Store) :
  reachable build_cst_from_text st ->
  (0 <= Backend.current_parse_id st)%Z
  /\ (forall k, is_Some (Backend.original_code_storage st !! k)
                <-> (1 <= k <= Backend.current_parse_id st)%Z)
  /\ NoDup (map Backend.graph_id (Backend.graphs_storage st))
  /\ forall i g,
       Backend.graphs_storage st !! i = Some g ->
       Backend.parse_id g = Backend.current_parse_id st
       /\ Backend.graph_id g = graph_id_of (Backend.current_parse_id st) i
       /\ Backend.get_graph st (Backend.graph_id g) = Backend.Ok g
       /\ is_Some (Backend.original_code_storage st !! Backend.parse_id g).
Proof.
  intros Hr.
  destruct (reachable_ok _ _ Hr) as (Hpos & Hids & Hcodes & Hone).
  split; [done|]. split; [done|]. split.
  - apply NoDup_alt. intros i j id Hi Hj.
    rewrite map_is_fmap, list_lookup_fmap in Hi, Hj.
    destruct (Backend.graphs_storage st !! i) as [g1|] eqn:H1; [|done].
    destruct (Backend.graphs_storage st !! j) as [g2|] eqn:H2; [|done].
    simpl in Hi, Hj. injection Hi as Hi. injection Hj as Hj.
    destruct (Hids i g1 H1) as [_ Hid1]. destruct (Hids j g2 H2) as [_ Hid2].
    rewrite Hid1 in Hi. rewrite Hid2 in Hj. rewrite <- Hj in Hi.
    by apply graph_id_of_inj in Hi as [_ ->].
  - intros i g Hg. destruct (Hids i g Hg) as [Hp Hid].
    split; [done|]. split; [done|]. split.
    + rewrite Hid. apply (stored_graph_found st i g Hg).
      intros j g' Hg'. by apply Hids.
    + apply Hcodes. rewrite Hp.
      assert (Hne : Backend.graphs_storage st <> []).
      { intros Hnil. by rewrite Hnil in Hg. }
      specialize (Hone Hne). lia.
Qed.

Lemma lookup_graph_index st id :
  match Backend.lookup_graph st id with
  | Some old =>
      exists j, Backend.lookup_index 0 (Backend.graphs_storage st) id = Some j
                /\ Backend.graphs_storage st !! j = Some old
                /\ Backend.graph_id old = id
                /\ forall j' g', j' < j ->
                     Backend.graphs_storage st !! j' = Some g' ->
                     Backend.graph_id g' <> id
  | None => Backend.lookup_index 0 (Backend.graphs_storage st) id = None
  end.
Proof.
  unfold Backend.lookup_graph.
  pose proof (lookup_index_spec 0 (Backend.graphs_storage st) id) as Hspec.
  destruct (Backend.lookup_index 0 (Backend.graphs_storage st) id) as [i|].
  - destruct Hspec as (j & g & -> & Hj & Hid & Hbefore).
    rewrite (find_first_match _ _ j g Hj).
    + exists j. done.
    + by apply String.eqb_eq.
    + intros j' g' Hlt Hg'. apply String.eqb_neq. by eapply Hbefore.
  - rewrite (proj2 (find_none_iff _ _)); [done|].
    intros g Hg. apply String.eqb_neq. by apply Hspec.
Qed.

(** X23. An update request for an identifier that is not stored
    answers 404 and changes nothing. Otherwise the graph sent takes the
    place of the first stored graph with that identifier and is given
    that identifier and the parse number of the graph it replaces,
    whatever it carried: a request for the identifier now returns it,
    requests for other identifiers are answered as before, and the
    parse number and the sources kept are unchanged. *)
Theorem update_then_get (st : Backend.Store) (id : string)
        (request_graph : FSMGraph) :
  match Backend.lookup_graph st id with
  | None =>
      Backend.update_graph st id request_graph
      = (st, Backend.HTTPException 404 Backend.GraphNotFound)
  | Some old =>
      let st' := fst (Backend.update_graph st id request_graph) in
      let updated :=
        Backend.mkStoredGraph request_graph (Backend.parse_id old) id in
      snd (Backend.update_graph st id request_graph)
      = Backend.Ok (true, updated)
      /\ Backend.get_graph st' id = Backend.Ok updated
      /\ (forall id', id' <> id ->
            Backend.get_graph st' id' = Backend.get_graph st id')
      /\ map Backend.graph_id (Backend.graphs_storage st')
         = map Backend.graph_id (Backend.graphs_storage st)
      /\ Backend.current_parse_id st' = Backend.current_parse_id st
      /\ Backend.original_code_storage st' = Backend.original_code_storage st
  end.
Proof.
  pose proof (lookup_graph_index st id) as Hl.
  destruct (Backend.lookup_graph st id) as [old|].
  - destruct Hl as (j & Hidx & Hj & Hid & Hbefore). cbv zeta.
    unfold Backend.update_graph. rewrite Hidx, Hj. simpl.
    split; [done|]. split; [|split; [|split; [|done]]].
    + unfold Backend.get_graph, Backend.lookup_graph. simpl.
      rewrite (find_insert_first _ _ j old); [done|done|by apply String.eqb_eq|].
      intros j' g' Hlt Hg'. apply String.eqb_neq. by eapply Hbefore.
    + intros id' Hne. unfold Backend.get_graph, Backend.lookup_graph. simpl.
      rewrite (find_insert_other _ _ j old); [done|done| |];
        apply String.eqb_neq; simpl; congruence.
    + rewrite !map_is_fmap, list_fmap_insert. simpl.
      apply list_insert_id. rewrite list_lookup_fmap, Hj. simpl. by rewrite Hid.
  - unfold Backend.update_graph. by rewrite Hl.
Qed.

Lemma generate_with_derived_name self g :
  generate_code_from_graph self g
    (Some (let parts := split_ws (scope g) in
           if 1 <? length parts then List.last parts "" else "fsm_example"))
  = generate_code_from_graph self g None.
Proof.
  unfold generate_code_from_graph.
  destruct (_validate_graph g); simpl; [|done].
  assert (Ht : truthy (if 1 <? length (split_ws (scope g))
                       then List.last (split_ws (scope g)) ""
                       else "fsm_example") = true).
  { destruct (1 <? length (split_ws (scope g))) eqn:Hlen; [|done].
    apply truthy_true.
    assert (Hne : split_ws (scope g) <> []).
    { intros Heq. by rewrite Heq in Hlen. }
    pose proof (split_ws_tokens (scope g)) as Hall.
    rewrite List.Forall_forall in Hall.
    by destruct (Hall _ (last_In _ "" Hne)). }
  by rewrite Ht.
Qed.

(** X24. The generation request answers 404 for an identifier
    that is not stored. Otherwise it answers as the generator does on
    the stored graph, made with the source kept for the parse number of
    the graph: the module name the request works out is the one the
    generator derives itself when it is given none. The answer is the
    generated text exactly when the stored graph is valid, and status
    500 with the error of the validation otherwise. *)
Theorem generate_code_endpoint (st : Backend.Store) (id : string) :
  Backend.generate_code st id
  = match Backend.lookup_graph st id with
    | None => Backend.HTTPException 404 Backend.GraphNotFound
    | Some g =>
        match generate_code_from_graph
                (mkGenerator
                   (default "" (Backend.original_code_storage st
                                  !! Backend.parse_id g)))
                (Backend.graph g) None with
        | Return generated_code => Backend.Ok generated_code
        | Raise e => Backend.HTTPException 500 (Backend.GenerationError e)
        end
    end
  /\ forall g, Backend.lookup_graph st id = Some g ->
       (valid_graph (Backend.graph g) <->
        exists generated_code,
          Backend.generate_code st id = Backend.Ok generated_code).
Proof.
  assert (Heq : Backend.generate_code st id
    = match Backend.lookup_graph st id with
      | None => Backend.HTTPException 404 Backend.GraphNotFound
      | Some g =>
          match generate_code_from_graph
                  (mkGenerator
                     (default "" (Backend.original_code_storage st
                                    !! Backend.parse_id g)))
                  (Backend.graph g) None with
          | Return generated_code => Backend.Ok generated_code
          | Raise e => Backend.HTTPException 500 (Backend.GenerationError e)
          end
      end).
  { unfold Backend.generate_code.
    destruct (Backend.lookup_graph st id) as [g|]; [|done].
    cbv zeta. by rewrite generate_with_derived_name. }
  split; [exact Heq|].
  intros g Hg. rewrite Heq, Hg. unfold generate_code_from_graph.
  rewrite <- validate_graph_ok.
  destruct (_validate_graph (Backend.graph g)) as [[]|e]; simpl.
  - split; [by eexists|done].
  - split; [done|]. by intros [c Hc].
Qed.

(** X25. After a parse request that succeeds in a store the service
    can reach, the identifiers of the graphs stored before are no longer
    served: a request for one of them answers 404. *)
Theorem earlier_identifiers_not_served
        (build_cst_from_text : string -> string -> result Node)
        (py_id : Identities) (st : Backend.Store)
        (request : Backend.ParseRequest) (resp : Backend.ParseResponse)
        (g : Backend.StoredGraph) :
  reachable build_cst_from_text st ->
  snd (Backend.parse_code build_cst_from_text py_id st request)
  = Backend.Ok resp ->
  In g (Backend.graphs_storage st) ->
  Backend.get_graph
    (fst (Backend.parse_code build_cst_from_text py_id st request))
    (Backend.graph_id g)
  = Backend.HTTPException 404 Backend.GraphNotFound.
Proof.
  intros Hr Hok Hg.
  destruct (reachable_ok _ _ Hr) as (_ & Hids & _).
  apply list_elem_of_In, list_elem_of_lookup_1 in Hg as [i Hi].
  destruct (Hids i g Hi) as [_ Hid].
  destruct (parse_code_cases build_cst_from_text py_id st request)
    as [(graphs & _ & Heq) | (e & Heq)]; rewrite Heq in *; [|done].
  simpl. unfold Backend.get_graph, Backend.lookup_graph. simpl.
  rewrite (proj2 (find_none_iff _ _)); [done|].
  intros g' Hg'. apply String.eqb_neq.
  apply list_elem_of_In, list_elem_of_lookup_1 in Hg' as [j Hj].
  apply tag_graphs_lookup in Hj as (g0 & _ & ->). simpl. rewrite Hid.
  intros H. apply graph_id_of_inj in H as [H _]. lia.
Qed.

Lemma store_invariant_witness :
  NoDup (map Backend.graph_id (Backend.graphs_storage store_after_parse)).
Proof.
  apply (store_invariant example_parser store_after_parse).
  apply reach_parse, reach_initial.
Defined.

Lemma earlier_identifiers_witness :
  Backend.get_graph
    (fst (Backend.parse_code example_parser path_id store_after_parse
                             example_request))
    "1_0"
  = Backend.HTTPException 404 Backend.GraphNotFound.
Proof.
  refine (earlier_identifiers_not_served example_parser path_id
            store_after_parse example_request
            (Backend.mkParseResponse true 1
               [Backend.mkStoredGraph fsm_example_graph 2 "2_0"] 2)
            (Backend.mkStoredGraph fsm_example_graph 1 "1_0") _ _ _).
  - apply reach_parse, reach_initial.
  - vm_compute. reflexivity.
  - vm_compute. left. reflexivity.
Defined.

Example store_after_parse_serves :
  Backend.get_graph store_after_parse "1_0"
  = Backend.Ok (Backend.mkStoredGraph fsm_example_graph 1 "1_0").
Proof. vm_compute. reflexivity. Qed.

(* ---------------- fsm_graph_builder.py: what counts as a write ---- *)

Lemma substring_head t s :
  String.substring 0 (String.length t) s = t -> exists y, s = t +:+ y.
Proof.
  revert s. induction t as [|c t IH]; intros s.
  - intros _. by exists s.
  - destruct s as [|d s]; [done|]. simpl. intros [= -> H].
    destruct (IH s H) as [y ->]. exists y. by rewrite string_app_cons.
Qed.

Lemma substring_occurs i t s :
  t <> "" -> String.substring i (String.length t) s = t ->
  exists x y, s = x +:+ t +:+ y.
Proof.
  intros Hne. revert s. induction i as [|i IH]; intros s.
  - intros H. destruct (substring_head t s H) as [y ->]. by exists "", y.
  - destruct s as [|d s].
    + simpl. intros H. by destruct t.
    + simpl. intros H. destruct (IH s H) as (x & y & ->).
      exists (String d x), y. by rewrite string_app_cons.
Qed.

Lemma substring_at_app x t y :
  String.substring (String.length x) (String.length t) (x +:+ t +:+ y) = t.
Proof.
  induction x as [|c x IH].
  - change ("" +:+ t +:+ y) with (t +:+ y).
    induction t as [|a t IHt]; [by destruct y|].
    rewrite string_app_cons. simpl. by f_equal.
  - rewrite string_app_cons. simpl. exact IH.
Qed.

Lemma contains_iff sub s :
  contains sub s = true <-> exists x y, s = x +:+ sub +:+ y.
Proof.
  unfold contains. split.
  - destruct (String.index 0 sub s) as [i|] eqn:Hi; [|done]. intros _.
    destruct sub as [|c sub]; [by exists "", s|].
    apply index_correct1 in Hi. by eapply substring_occurs.
  - intros (x & y & ->).
    destruct (String.index 0 sub (x +:+ sub +:+ y)) as [i|] eqn:Hi; [done|].
    exfalso. destruct sub as [|c sub].
    + by destruct (x +:+ "" +:+ y).
    + eapply (index_correct3 0 (String.length x)); [exact Hi|done|lia|].
      apply substring_at_app.
Qed.

Lemma contains_inner sub pre post s :
  contains (pre +:+ sub +:+ post) s = true -> contains sub s = true.
Proof.
  rewrite !contains_iff. intros (x & y & ->).
  exists (x +:+ pre), (post +:+ y). by rewrite !string_app_assoc.
Qed.

Lemma contains_behind sub pre s :
  contains (pre +:+ sub) s = true -> contains sub s = true.
Proof.
  intros H. apply (contains_inner sub pre ""). by rewrite string_app_nil_r.
Qed.

(** X9. The test for a write looks for the name followed by the
    assignment sign anywhere in the text without whitespace. So a block
    that writes a variable whose name ends with [name] counts as writing
    [name] too, and so does a block that compares [name] with [==]. *)
Theorem write_test_is_textual (node : Node) (name : string) :
  name <> "" ->
  (forall pre, _var_written_in_always node (pre +:+ name) = true ->
               _var_written_in_always node name = true)
  /\ (contains (name +:+ "==")
               (remove_ws (collect_identifiers_inline node)) = true ->
      _var_written_in_always node name = true).
Proof.
  intros Hne. apply truthy_true in Hne. unfold _var_written_in_always.
  rewrite Hne. simpl. split.
  - intros pre. destruct (truthy (pre +:+ name)); simpl; [|done].
    intros H. apply orb_prop in H as [H | H]; apply orb_true_iff.
    + left. apply (contains_inner _ pre ""). by rewrite !string_app_assoc in *.
    + right. apply (contains_inner _ pre ""). by rewrite !string_app_assoc in *.
  - intros H. apply orb_true_iff. right.
    apply (contains_inner _ "" "="). by rewrite !string_app_assoc in *.
Qed.

Lemma write_test_witness :
  _var_written_in_always
    (nd "AlwaysCombBlock"
        [tok "always_comb "; ident "next_state"; tok "="; ident "RUN";
         tok ";"])
    "state" = true.
Proof.
  refine (proj1 (write_test_is_textual _ "state" _) "next_" _).
  - discriminate.
  - reflexivity.
Defined.

(* ---------------- fsm_graph_builder.py: the case test ------------- *)

(** X26. A case node is taken as a case on the state variable
    exactly when its text without whitespace holds [case(] followed by
    the variable and [)]: the tests for [unique case] and
    [priority case] never add a node, as a text that passes one of them
    passes the first test already. *)
Theorem case_test_is_one_pattern (state_var : string) (node : Node) :
  is_case_on_state state_var node
  = startswith (kind node) "Case"
    && contains ("case(" +:+ state_var +:+ ")")
                (remove_ws (collect_identifiers_inline node)).
Proof.
  unfold is_case_on_state.
  destruct (startswith (kind node) "Case"); [|done]. simpl.
  destruct (contains ("case(" +:+ state_var +:+ ")") _) eqn:H1; [done|].
  destruct (contains ("uniquecase(" +:+ state_var +:+ ")") _) eqn:H2.
  - apply (contains_behind ("case(" +:+ state_var +:+ ")") "unique") in H2.
    congruence.
  - destruct (contains ("prioritycase(" +:+ state_var +:+ ")") _) eqn:H3;
      [|done].
    apply (contains_behind ("case(" +:+ state_var +:+ ")") "priority") in H3.
    congruence.
Qed.

(* ---------------- code_generator.py: which error is raised -------- *)

Lemma validate_transitions_first states before t after :
  (forall t', In t' before -> In (t_from t') states /\ In (t_to t') states) ->
  validate_transitions states (before ++ t :: after)
  = if negb (mem (t_from t) states)
    then Raise (ValueError ("Transition from unknown state: " +:+ t_from t))
    else if negb (mem (t_to t) states)
    then Raise (ValueError ("Transition to unknown state: " +:+ t_to t))
    else validate_transitions states after.
Proof.
  induction before as [|b before IH]; intros Hb; [done|].
  simpl. destruct (Hb b (or_introl eq_refl)) as [Hf Ht].
  apply list_elem_of_In, mem_true in Hf. apply list_elem_of_In, mem_true in Ht.
  rewrite Hf, Ht. simpl. apply IH. intros t' Ht'. apply Hb. by right.
Qed.

(** X27. When a graph breaks several rules the generator reports
    one of them, in a fixed order: duplicate states before anything
    else; then the first transition of the list with an unknown end, its
    origin before its target; the reset state last. *)
Theorem validation_error_order (self : FSMCodeGenerator) (g : FSMGraph)
        (module_name : option string) :
  (~ NoDup (states g) ->
   generate_code_from_graph self g module_name
   = Raise (ValueError "Duplicate states found"))
  /\ (NoDup (states g) ->
      forall before t after,
        transitions g = before ++ t :: after ->
        (forall t', In t' before ->
           In (t_from t') (states g) /\ In (t_to t') (states g)) ->
        (~ In (t_from t) (states g) ->
         generate_code_from_graph self g module_name
         = Raise (ValueError
                    ("Transition from unknown state: " +:+ t_from t)))
        /\ (In (t_from t) (states g) -> ~ In (t_to t) (states g) ->
            generate_code_from_graph self g module_name
            = Raise (ValueError
                       ("Transition to unknown state: " +:+ t_to t))))
  /\ (NoDup (states g) ->
      (forall t, In t (transitions g) ->
         In (t_from t) (states g) /\ In (t_to t) (states g)) ->
      forall r, reset_state g = Some r -> r <> "" ->
                ~ In r (states g) ->
        generate_code_from_graph self g module_name
        = Raise (ValueError ("Reset state " +:+ r +:+ " not in states list"))).
Proof.
  unfold generate_code_from_graph, _validate_graph.
  split; [|split].
  - intros Hnd.
    destruct (length (states g) =? size (list_to_set (states g) : gset string))
      eqn:Hlen; [|done].
    apply Nat.eqb_eq, no_duplicates_iff in Hlen. done.
  - intros Hnd before t after Hts Hbefore.
    apply no_duplicates_iff, Nat.eqb_eq in Hnd. rewrite Hnd. simpl.
    rewrite Hts, (validate_transitions_first _ _ _ _ Hbefore). split.
    + intros Hf. rewrite <- list_elem_of_In, <- mem_false in Hf.
      by rewrite Hf.
    + intros Hf Ht. apply list_elem_of_In, mem_true in Hf.
      rewrite <- list_elem_of_In, <- mem_false in Ht.
      by rewrite Hf, Ht.
  - intros Hnd Hts r Hr Hne Hin.
    apply no_duplicates_iff, Nat.eqb_eq in Hnd. rewrite Hnd. simpl.
    assert (Hv : validate_transitions (states g) (transitions g) = Return tt).
    { apply validate_transitions_ok. intros t Ht.
      apply list_elem_of_In in Ht. destruct (Hts t Ht).
      split; by apply list_elem_of_In. }
    rewrite Hv, Hr. simpl. apply truthy_true in Hne.
    rewrite <- list_elem_of_In, <- mem_false in Hin.
    by rewrite Hne, Hin.
Qed.

Lemma validation_error_order_witness :
  generate_code_from_graph (mkGenerator "") g_many_errors None
  = Raise (ValueError "Transition to unknown state: X").
Proof.
  refine (proj2 (proj1 (proj2 (validation_error_order (mkGenerator "")
            g_many_errors None)) _ [mkTransition "A" "B" "1"]
            (mkTransition "A" "X" "go") [mkTransition "Y" "A" "1"] eq_refl _)
            _ _).
  - repeat (apply NoDup_cons_2;
            [rewrite ?elem_of_cons, elem_of_nil; intuition discriminate|]).
    apply NoDup_nil_2.
  - intros t' [<- | []]. simpl. auto.
  - simpl. auto.
  - simpl. intuition discriminate.
Defined.


(* ---------------- FindeENUM.py: object identities ---------------- *)

Lemma node_at_snoc root p n i ch :
  node_at root p = Some n -> children n !! i = Some ch ->
  node_at root (p ++ [i]) = Some ch.
Proof.
  revert root. induction p as [|j q IH]; intros root; simpl.
  - intros [= ->] ->. done.
  - destruct (children root !! j) as [c|]; [|done]. apply IH.
Qed.

Lemma dfs_collect_in_tree root parent p n :
  node_at root p = Some n ->
  match parent with
  | Some par =>
      node_at root (fst par) = Some (snd par) /\ exists i, p = fst par ++ [i]
  | None => p = []
  end ->
  Forall (collected_in root) (dfs_collect parent p n).
Proof.
  revert parent p. induction n as [k t pos cs IH] using Node_ind'.
  intros parent p Hn Hpar. rewrite dfs_collect_eq. apply Forall_app. split.
  - destruct (String.eqb k "EnumType"); [|constructor].
    constructor; [|constructor]. split; [exact Hn | exact Hpar].
  - assert (Hcs : forall j ch, cs !! j = Some ch ->
                    children (mkNode k t pos cs) !! (0 + j) = Some ch)
      by (intros j ch Hj; exact Hj).
    revert Hn Hcs. generalize (mkNode k t pos cs) as n. generalize 0 as i.
    induction IH as [|c cs' Hc _ IHcs]; intros i n Hn Hcs; simpl;
      [constructor|].
    apply Forall_app. split.
    + apply Hc.
      * apply (node_at_snoc root p n i c Hn).
        specialize (Hcs 0 c eq_refl). by rewrite Nat.add_0_r in Hcs.
      * simpl. split; [done | by exists i].
    + apply IHcs; [done|]. intros j ch Hj.
      replace (S i + j) with (i + S j) by lia. by apply Hcs.
Qed.

Lemma collected_below_parent root item parent :
  collected_in root item -> snd item = Some parent ->
  fst parent <> fst (fst item).
Proof.
  intros [_ Hpar] Hs. rewrite Hs in Hpar. destruct Hpar as (_ & i & Hi).
  unfold item_path in Hi. rewrite Hi. intros Heq.
  apply (f_equal length) in Heq. rewrite length_app in Heq. simpl in Heq.
  lia.
Qed.

Lemma outer_names_same_policy (py_id py_id' : Identities) parent en members :
  same_token_policy py_id py_id' -> fst parent <> fst en ->
  outer_names py_id parent en members = outer_names py_id' parent en members.
Proof.
  intros Hpol Hne. unfold outer_names. apply flat_map_ext. intros id_node.
  assert (Htest :
    bool_decide (token_id py_id (fst parent) (fst id_node)
                   ∈ map (fun x => token_id py_id (fst en) (fst x))
                         (find_all_at (fst en) (snd en) "Identifier"))
    = bool_decide (token_id py_id' (fst parent) (fst id_node)
                     ∈ map (fun x => token_id py_id' (fst en) (fst x))
                           (find_all_at (fst en) (snd en) "Identifier"))).
  { apply bool_decide_ext. rewrite !list_elem_of_In, !in_map_iff.
    destruct Hpol as [[Hk Hk'] | [Hr Hr']].
    - split; intros (x & Hx & Hin); exists x; (split; [|done]).
      + apply Hk'. by apply Hk in Hx.
      + apply Hk. by apply Hk' in Hx.
    - split; intros (x & Hx & _); exfalso.
      + by apply (Hr (fst en) (fst parent) (fst x) (fst id_node)).
      + by apply (Hr' (fst en) (fst parent) (fst x) (fst id_node)). }
  by rewrite Htest.
Qed.

Lemma index_entry_same_policy (py_id py_id' : Identities) root item :
  same_token_policy py_id py_id' -> collected_in root item ->
  snd (index_entry py_id item) = snd (index_entry py_id' item).
Proof.
  intros Hpol Hin. unfold index_entry, declared_name. simpl. f_equal.
  destruct (snd item) as [parent|] eqn:Hs; [|done].
  destruct (_ && _); [|done]. f_equal.
  apply outer_names_same_policy; [done|].
  by apply (collected_below_parent root item).
Qed.

Lemma index_enums_collected (py_id : Identities) root :
  distinct_enum_nodes py_id root ->
  fst (index_enums py_id root)
  = map (index_entry py_id) (dfs_collect None [] root).
Proof.
  intros Hnd. unfold index_enums.
  rewrite index_enums_entries; [done| |by intros ? _ []].
  unfold distinct_enum_nodes, enum_places in Hnd.
  rewrite <- dfs_collect_places with (parent := None), map_map in Hnd.
  exact Hnd.
Qed.

Lemma declared_name_without_typedef (py_id : Identities) item :
  (forall parent, snd item = Some parent ->
     contains "typedef" (collect_identifiers_inline (snd parent)) = false) ->
  declared_name py_id item = "".
Proof.
  intros Hno. unfold declared_name. destruct (snd item) as [parent|]; [|done].
  by rewrite (Hno parent eq_refl).
Qed.

(** C8. Whenever the enum objects of the run have different identities,
    the index has one entry for every [EnumType] node of the tree, in
    the order of the walk, and every entry has a name. Each enum is
    collected with the node directly above it. An enum that the first
    loop leaves without a name (every enum whose parent statement has no
    [typedef], and an enum at the root, is one) is named
    [anonymous_enum_], its first member (the counter when it has no
    member), [_] and the running counter, which counts the enums without
    a name met so far; an enum with a declared name keeps it. Two enums
    without a declared name get different names. A second run on the
    same tree, in which the syntax library hands out the identifiers in
    the same manner, gives every enum the same name, whatever the
    identities are. *)
Theorem C8_anonymous_enum_names (py_id py_id' : Identities) (root : Node) :
  distinct_enum_nodes py_id root -> distinct_enum_nodes py_id' root ->
  let enums := find_all root "EnumType" in
  let collected := dfs_collect None [] root in
  let before := fst (index_enums py_id root) in
  let named := fst (build_enum_index py_id root) in
  map (fun item => snd (fst item)) collected = enums
  /\ Forall (collected_in root) collected
  /\ map (fun e => enum_node (snd e)) named = enums
  /\ (forall i en,
        enums !! i = Some en ->
        exists id info',
          named !! i = Some (id, info')
          /\ enum_node info' = en /\ info_enum_name info' <> "")
  /\ (forall i item,
        collected !! i = Some item ->
        exists info info',
          before !! i = Some (py_id (item_path item), info)
          /\ named !! i = Some (py_id (item_path item), info')
          /\ enum_node info' = snd (fst item)
          /\ info_enum_members info' = find_enum_members (snd (fst item))
          /\ info_enum_name info' <> ""
          /\ (info_enum_name info <> "" ->
              info_enum_name info' = info_enum_name info)
          /\ ((forall parent, snd item = Some parent ->
                 contains "typedef" (collect_identifiers_inline (snd parent))
                 = false) ->
              info_enum_name info = "")
          /\ (info_enum_name info = "" ->
              info_enum_name info'
              = synthesized_name
                  (match find_enum_members (snd (fst item)) with
                   | m :: _ => m
                   | [] => of_int (anon_rank before i)
                   end)
                  (anon_rank before i)
              /\ (1 <= anon_rank before i)%Z))
  /\ (forall i j e1 e2 n1 n2,
        i <> j ->
        before !! i = Some e1 -> before !! j = Some e2 ->
        anonymous e1 = true -> anonymous e2 = true ->
        named !! i = Some n1 -> named !! j = Some n2 ->
        info_enum_name (snd n1) <> info_enum_name (snd n2))
  /\ (same_token_policy py_id py_id' ->
      map snd named = map snd (fst (build_enum_index py_id' root))).
Proof.
  intros Hnd Hnd' enums collected before named.
  assert (Hnamed : named = name_anonymous 0 before).
  { subst named before. unfold build_enum_index.
    by destruct (index_enums py_id root). }
  assert (Hbefore : before = map (index_entry py_id) collected).
  { subst before collected. by apply index_enums_collected. }
  assert (Hcoll : Forall (collected_in root) collected).
  { subst collected. by apply dfs_collect_in_tree. }
  assert (Hlook : forall i id info,
             before !! i = Some (id, info) -> info_enum_name info = "" ->
             named !! i
             = Some (id,
                     mkEnumInfo (enum_node info)
                       (synthesized_name
                          (match info_enum_members info with
                           | m :: _ => m
                           | [] => of_int (anon_rank before i)
                           end)
                          (anon_rank before i))
                       (info_enum_members info))).
  { intros i id info Hi Hname. rewrite Hnamed.
    rewrite (name_anonymous_lookup 0 before i id info Hi), Hname. simpl.
    done. }
  assert (Hnodes : map (fun e => enum_node (snd e)) named = enums).
  { rewrite Hnamed, name_anonymous_nodes, Hbefore, map_map. simpl.
    subst collected enums. apply dfs_collect_nodes. }
  split; [|split; [|split; [|split; [|split; [|split]]]]].
  - subst collected enums. apply dfs_collect_nodes.
  - exact Hcoll.
  - exact Hnodes.
  - intros i en Hi. rewrite <- Hnodes in Hi.
    change (map (fun e => enum_node (snd e)) named)
      with ((fun e : Z * EnumInfo => enum_node (snd e)) <$> named) in Hi.
    rewrite list_lookup_fmap in Hi.
    destruct (named !! i) as [[id info']|] eqn:Hn; [|done].
    simpl in Hi. injection Hi as Hi.
    exists id, info'. split; [done|]. split; [done|].
    apply (name_anonymous_named 0 before id).
    rewrite <- Hnamed. eapply list_elem_of_In, list_elem_of_lookup_2, Hn.
  - intros i item Hi.
    assert (Hb : before !! i = Some (index_entry py_id item)).
    { rewrite Hbefore.
      change (map (index_entry py_id) collected)
        with (index_entry py_id <$> collected).
      by rewrite list_lookup_fmap, Hi. }
    unfold index_entry in Hb.
    set (info := mkEnumInfo (snd (fst item)) (declared_name py_id item)
                            (find_enum_members (snd (fst item)))) in *.
    pose proof (name_anonymous_lookup 0 before i _ info Hb) as Hn.
    rewrite <- Hnamed in Hn.
    eexists info, _. split; [exact Hb|]. split; [exact Hn|].
    assert (Hrank : info_enum_name info = "" -> (1 <= anon_rank before i)%Z).
    { intros Hname. eapply anon_rank_positive; [exact Hb|].
      unfold anonymous. cbn [snd]. by rewrite Hname. }
    assert (Hno : (forall parent, snd item = Some parent ->
                     contains "typedef"
                              (collect_identifiers_inline (snd parent))
                     = false) ->
                  info_enum_name info = "")
      by (intros Hno; by apply declared_name_without_typedef).
    destruct (truthy (info_enum_name info)) eqn:Ht.
    + apply truthy_true in Ht.
      split; [done|]. split; [done|]. split; [done|]. split; [done|].
      split; [exact Hno|]. intros Hname. by destruct Ht.
    + apply truthy_false in Ht. cbn [enum_node info_enum_members info_enum_name].
      split; [done|]. split; [done|]. split.
      { unfold synthesized_name. intros H.
        apply (f_equal String.length) in H.
        rewrite string_app_length in H. simpl in H. lia. }
      split; [intros Hne; by destruct Hne|].
      split; [exact Hno|]. intros _. split; [|by apply Hrank].
      rewrite Z.add_0_l. reflexivity.
  - intros i j [id1 info1] [id2 info2] n1 n2 Hij H1 H2 Ha1 Ha2 Hn1 Hn2.
    assert (He1 : info_enum_name info1 = "").
    { unfold anonymous in Ha1. simpl in Ha1.
      apply truthy_false. by destruct (truthy _). }
    assert (He2 : info_enum_name info2 = "").
    { unfold anonymous in Ha2. simpl in Ha2.
      apply truthy_false. by destruct (truthy _). }
    rewrite (Hlook _ _ _ H1 He1) in Hn1. rewrite (Hlook _ _ _ H2 He2) in Hn2.
    injection Hn1 as <-. injection Hn2 as <-. simpl. intros Heq.
    apply synthesized_name_counter in Heq.
    destruct (Nat.lt_trichotomy i j) as [Hlt | [? | Hlt]]; [|done|].
    + pose proof (anon_rank_increasing before i j _ Hlt H2 Ha2). lia.
    + pose proof (anon_rank_increasing before j i _ Hlt H1 Ha1). lia.
  - intros Hpol. rewrite Hnamed. unfold build_enum_index.
    pose proof (index_enums_collected py_id' root Hnd') as Hb'.
    destruct (index_enums py_id' root) as [before' tdefs']. simpl in *.
    apply name_anonymous_values. rewrite Hbefore, Hb', !map_map.
    apply map_ext_in. intros item Hitem.
    apply (index_entry_same_policy py_id py_id' root); [done|].
    rewrite List.Forall_forall in Hcoll. by apply Hcoll.
Qed.

Lemma enum_places_NoDup root : NoDup (enum_places root).
Proof.
  unfold enum_places. rewrite <- dfs_collect_places with (parent := None).
  apply dfs_collect_NoDup.
Qed.

Lemma distinct_enum_nodes_inj (ids : Identities) root :
  Inj (=) (=) (node_id ids) -> distinct_enum_nodes ids root.
Proof.
  intros Hinj. unfold distinct_enum_nodes.
  exact (NoDup_fmap_2 (node_id ids) _ (enum_places_NoDup root)).
Qed.

Lemma fresh_id_distinct root : distinct_enum_nodes fresh_id root.
Proof.
  apply distinct_enum_nodes_inj. intros p q H. simpl in H.
  injection H as H. by apply (inj encode) in H.
Qed.

Lemma other_fresh_id_distinct root : distinct_enum_nodes other_fresh_id root.
Proof.
  apply distinct_enum_nodes_inj. intros p q H. simpl in H.
  injection H as H. by apply (inj encode) in H.
Qed.

Lemma fresh_id_renewed : tokens_renewed fresh_id.
Proof.
  intros w w' p q Hne H. simpl in H. injection H as H.
  apply (inj encode) in H. congruence.
Qed.

Lemma other_fresh_id_renewed : tokens_renewed other_fresh_id.
Proof.
  intros w w' p q Hne H. simpl in H. injection H as H.
  apply (inj encode) in H. congruence.
Qed.

Lemma C8_witness :
  map (fun e => info_enum_name (snd e))
      (fst (build_enum_index other_fresh_id inline_enums_module))
  = ["anonymous_enum_A_1"; "anonymous_enum_RED_2"].
Proof.
  destruct (C8_anonymous_enum_names fresh_id other_fresh_id
              inline_enums_module
              (fresh_id_distinct inline_enums_module)
              (other_fresh_id_distinct inline_enums_module))
    as (_ & _ & _ & _ & _ & _ & Hsame).
  rewrite <- (map_map snd info_enum_name).
  rewrite <- Hsame.
  - vm_compute. reflexivity.
  - right. split; [apply fresh_id_renewed | apply other_fresh_id_renewed].
Defined.

(** With one object for every place the typedef is named by the
    identifier behind the enum; when every walk makes new objects, the
    test that skips the identifiers of the enum itself never holds, and
    the typedef is named by the first identifier inside the enum. *)
Example sized_enum_names :
  map (fun e => info_enum_name (snd e))
      (fst (build_enum_index path_id sized_enum_module)) = ["state_t"]
  /\ map (fun e => info_enum_name (snd e))
         (fst (build_enum_index fresh_id sized_enum_module)) = ["W"]
  /\ detect_enum_variables_from_cst fresh_id sized_enum_module
     = Return [mkEnumVar "state_t" "W" ["IDLE"; "RUN"] "module m" nopos].
Proof. vm_compute. repeat split. Qed.

Lemma pydict_set_with_ids (py_id : Identities) name p tp :
  PyDict.set name (py_id p) (with_ids py_id tp)
  = with_ids py_id (PyDict.set name p tp).
Proof.
  induction tp as [|[n q] tp IH]; simpl; [done|].
  destruct (decide (name = n)); simpl; [done|]. by rewrite IH.
Qed.

Lemma pydict_sets_with_ids (py_id : Identities) names p tp :
  foldl (fun d alias => PyDict.set alias (py_id p) d) (with_ids py_id tp) names
  = with_ids py_id (foldl (fun d alias => PyDict.set alias p d) tp names).
Proof.
  revert tp. induction names as [|n names IH]; intros tp; simpl; [done|].
  by rewrite pydict_set_with_ids, IH.
Qed.

Lemma index_enum_snd (py_id : Identities) st item tp :
  snd st = with_ids py_id tp ->
  snd (index_enum py_id st item) = with_ids py_id (typedef_step py_id tp item).
Proof.
  destruct st as [infos tdefs]. simpl. intros ->.
  unfold index_enum, typedef_step.
  destruct (snd item) as [parent|]; [|done].
  destruct (contains "typedef" (collect_identifiers_inline (snd parent))
            && contains "enum" (collect_identifiers_inline (snd parent))).
  - destruct (truthy (hd "" (outer_names py_id parent (fst item)
                               (find_enum_members (snd (fst item)))))).
    + destruct (contains "enum" (collect_identifiers_inline (snd parent))
                && negb (contains "typedef"
                           (collect_identifiers_inline (snd parent))));
        simpl.
      * by rewrite pydict_set_with_ids, pydict_sets_with_ids.
      * by rewrite pydict_set_with_ids.
    + destruct (contains "enum" (collect_identifiers_inline (snd parent))
                && negb (contains "typedef"
                           (collect_identifiers_inline (snd parent))));
        simpl; [by rewrite pydict_sets_with_ids|done].
  - destruct (contains "enum" (collect_identifiers_inline (snd parent))
              && negb (contains "typedef"
                         (collect_identifiers_inline (snd parent))));
      simpl; [by rewrite pydict_sets_with_ids|done].
Qed.

Lemma index_enums_snd (py_id : Identities) items st tp :
  snd st = with_ids py_id tp ->
  snd (foldl (index_enum py_id) st items)
  = with_ids py_id (foldl (typedef_step py_id) tp items).
Proof.
  revert st tp. induction items as [|item items IH]; intros st tp Hst; simpl.
  - done.
  - apply IH. by apply index_enum_snd.
Qed.

Lemma typedef_step_same_policy (py_id py_id' : Identities) root tp item :
  same_token_policy py_id py_id' -> collected_in root item ->
  typedef_step py_id tp item = typedef_step py_id' tp item.
Proof.
  intros Hpol Hin. unfold typedef_step.
  destruct (snd item) as [parent|] eqn:Hs; [|done].
  rewrite (outer_names_same_policy py_id py_id'); [done|done|].
  by apply (collected_below_parent root item).
Qed.

Lemma typedef_steps_same_policy (py_id py_id' : Identities) root items tp :
  same_token_policy py_id py_id' -> Forall (collected_in root) items ->
  foldl (typedef_step py_id) tp items = foldl (typedef_step py_id') tp items.
Proof.
  intros Hpol Hall. revert tp.
  induction Hall as [|item items Hitem _ IH]; intros tp; simpl; [done|].
  by rewrite (typedef_step_same_policy py_id py_id' root), IH.
Qed.

Lemma pydict_sets_In {K V : Type} `{EqDecision K} (ks : list K) (v : V) d e :
  In e (foldl (fun d k => PyDict.set k v d) d ks) -> snd e = v \/ In e d.
Proof.
  revert d. induction ks as [|k ks IH]; intros d; simpl; [by right|].
  intros H. destruct (IH _ H) as [Hv | Hin]; [by left|].
  destruct e as [k' v']. apply pydict_set_In in Hin as [[= -> ->] | Hin];
    [by left | by right].
Qed.

Lemma typedef_step_places (py_id : Identities) tp item places :
  (forall e, In e tp -> In (snd e) places) ->
  In (item_path item) places ->
  forall e, In e (typedef_step py_id tp item) -> In (snd e) places.
Proof.
  intros Htp Hitem e. unfold typedef_step, item_path in *.
  destruct (snd item) as [parent|]; [|by apply Htp].
  set (names := outer_names py_id parent (fst item) _).
  assert (H1 : forall e',
             In e' (if contains "typedef"
                                (collect_identifiers_inline (snd parent))
                       && contains "enum"
                                   (collect_identifiers_inline (snd parent))
                    then if truthy (hd "" names)
                         then PyDict.set (hd "" names) (fst (fst item)) tp
                         else tp
                    else tp) ->
             In (snd e') places).
  { intros e'. destruct (_ && _); [|by apply Htp].
    destruct (truthy _); [|by apply Htp].
    destruct e' as [k' v']. intros H.
    apply pydict_set_In in H as [[= -> ->] | H]; [done | by apply Htp]. }
  destruct (contains "enum" _ && negb _); [|by apply H1].
  intros H. apply pydict_sets_In in H as [-> | H]; [done | by apply H1].
Qed.

Lemma typedef_steps_places (py_id : Identities) items tp places :
  (forall e, In e tp -> In (snd e) places) ->
  (forall item, In item items -> In (item_path item) places) ->
  forall e, In e (foldl (typedef_step py_id) tp items) -> In (snd e) places.
Proof.
  revert tp. induction items as [|item items IH]; intros tp Htp Hitems; simpl.
  - exact Htp.
  - apply IH.
    + apply typedef_step_places; [done|]. apply Hitems. by left.
    + intros it Hit. apply Hitems. by right.
Qed.

Lemma get_by_place (py_id : Identities) (infos : list (Z * EnumInfo))
      (paths : list path) (q : path) :
  NoDup (map (node_id py_id) paths) ->
  map fst infos = map (node_id py_id) paths ->
  In q paths ->
  PyDict.get (py_id q) infos
  = PyDict.get q (zip paths (map snd infos)).
Proof.
  revert paths.
  induction infos as [|[id info] infos IH]; intros [|p paths]; simpl;
    try done.
  intros Hnd [= -> Hrest] Hq. apply NoDup_cons in Hnd as [Hp Hnd].
  destruct (decide (q = p)) as [-> | Hne].
  - by rewrite decide_True.
  - destruct Hq as [-> | Hq]; [done|].
    rewrite decide_False.
    + by apply IH.
    + intros Heq. apply Hp. rewrite <- Heq.
      apply list_elem_of_In. by apply in_map.
Qed.

Lemma build_enum_index_same (py_id py_id' : Identities) root :
  distinct_enum_nodes py_id root -> distinct_enum_nodes py_id' root ->
  same_token_policy py_id py_id' ->
  same_index py_id py_id' (enum_places root)
             (fst (build_enum_index py_id root))
             (snd (build_enum_index py_id root))
             (fst (build_enum_index py_id' root))
             (snd (build_enum_index py_id' root))
  /\ length (fst (build_enum_index py_id root))
     = length (fst (build_enum_index py_id' root)).
Proof.
  intros Hnd Hnd' Hpol.
  set (items := dfs_collect None [] root).
  assert (Hcoll : Forall (collected_in root) items)
    by (by apply dfs_collect_in_tree).
  assert (Hplaces : map item_path items = enum_places root)
    by apply dfs_collect_places.
  assert (Hkeys : forall f, distinct_enum_nodes f root ->
            map fst (fst (build_enum_index f root))
            = map (node_id f) (enum_places root)).
  { intros f Hf. unfold build_enum_index.
    pose proof (index_enums_collected f root Hf) as He.
    destruct (index_enums f root) as [infos tdefs]. simpl in *.
    rewrite name_anonymous_keys, He, <- Hplaces, !map_map. done. }
  assert (Hvals : map snd (fst (build_enum_index py_id root))
                  = map snd (fst (build_enum_index py_id' root))).
  { unfold build_enum_index.
    pose proof (index_enums_collected py_id root Hnd) as He.
    pose proof (index_enums_collected py_id' root Hnd') as He'.
    destruct (index_enums py_id root) as [infos tdefs].
    destruct (index_enums py_id' root) as [infos' tdefs']. simpl in *.
    apply name_anonymous_values. rewrite He, He', !map_map.
    apply map_ext_in. intros item Hitem.
    apply (index_entry_same_policy py_id py_id' root); [done|].
    rewrite List.Forall_forall in Hcoll. by apply Hcoll. }
  split; [split|].
  - intros q Hq.
    rewrite (get_by_place py_id _ (enum_places root) q Hnd
                          (Hkeys py_id Hnd) Hq).
    rewrite (get_by_place py_id' _ (enum_places root) q Hnd'
                          (Hkeys py_id' Hnd') Hq).
    by rewrite Hvals.
  - exists (foldl (typedef_step py_id) [] items). split; [|split].
    + apply typedef_steps_places; [by intros ? []|].
      intros item Hitem. rewrite <- Hplaces. by apply in_map.
    + unfold build_enum_index.
      assert (Hs : snd (index_enums py_id root)
                   = with_ids py_id (foldl (typedef_step py_id) [] items))
        by (unfold index_enums; by apply index_enums_snd).
      by destruct (index_enums py_id root).
    + rewrite (typedef_steps_same_policy py_id py_id' root) by done.
      unfold build_enum_index.
      assert (Hs : snd (index_enums py_id' root)
                   = with_ids py_id' (foldl (typedef_step py_id') [] items))
        by (unfold index_enums; by apply index_enums_snd).
      by destruct (index_enums py_id' root).
  - rewrite <- (length_map snd), Hvals, length_map. done.
Qed.

Lemma first_alias_in_same (py_id py_id' : Identities) places infos infos'
      full_text tp de de' :
  (forall q, In q places ->
             PyDict.get (py_id q) infos = PyDict.get (py_id' q) infos') ->
  (forall e, In e tp -> In (snd e) places) ->
  first_alias_in full_text infos (with_ids py_id tp) = Return de ->
  first_alias_in full_text infos' (with_ids py_id' tp) = Return de' ->
  decl_enum_name de = decl_enum_name de'
  /\ decl_enum_members de = decl_enum_members de'
  /\ (enum_id de = None <-> enum_id de' = None).
Proof.
  intros Hget. induction tp as [|[name p] tp IH]; intros Htp; simpl.
  - intros [= <-] [= <-]. done.
  - destruct (truthy name && contains name full_text).
    + rewrite (Hget p) by (apply (Htp (name, p)); by left).
      destruct (PyDict.get (py_id' p) infos') as [info|]; [|done].
      intros [= <-] [= <-]. done.
    + apply IH. intros e He. apply Htp. by right.
Qed.

Lemma declared_vars_same (py_id py_id' : Identities) places
      infos tdefs infos' tdefs' stack p node :
  same_index py_id py_id' places infos tdefs infos' tdefs' ->
  keys_known infos tdefs -> keys_known infos' tdefs' ->
  (forall x, In x (find_all_at p node "EnumType") -> In (fst x) places) ->
  declared_vars py_id infos tdefs stack p node
  = declared_vars py_id' infos' tdefs' stack p node.
Proof.
  intros [Hget (tp & Htp & -> & ->)] Hk Hk' Hsub.
  unfold declared_vars, detect_enum_for_declaration. simpl.
  destruct (contains "enum" (collect_identifiers_inline node)).
  - destruct (find_all_at p node "EnumType") as [|en rest]; simpl; [done|].
    rewrite (Hget (fst en)) by (apply Hsub; by left).
    by destruct (PyDict.get (py_id' (fst en)) infos').
  - destruct (first_alias_in_returns (collect_identifiers_inline node)
                                     infos _ Hk) as [de Hde].
    destruct (first_alias_in_returns (collect_identifiers_inline node)
                                     infos' _ Hk') as [de' Hde'].
    destruct (first_alias_in_same _ _ _ _ _ _ _ _ _ Hget Htp Hde Hde')
      as (Hn & Hm & Hid).
    rewrite Hde, Hde'. simpl. rewrite Hn, Hm.
    destruct (enum_id de) as [i|], (enum_id de') as [i'|]; try done.
    + discriminate (proj2 Hid eq_refl).
    + discriminate (proj1 Hid eq_refl).
Qed.

Lemma dfs_same (py_id py_id' : Identities) places infos tdefs infos' tdefs' :
  same_index py_id py_id' places infos tdefs infos' tdefs' ->
  keys_known infos tdefs -> keys_known infos' tdefs' ->
  forall node stack p,
    (forall x, In x (find_all_at p node "EnumType") -> In (fst x) places) ->
    dfs py_id infos tdefs stack p node
    = dfs py_id' infos' tdefs' stack p node.
Proof.
  intros Hsame Hk Hk' node.
  induction node as [k t pos cs IH] using Node_ind'.
  intros stack p Hsub. rewrite !dfs_eq.
  assert (Hbelow : forall x, In x (find_all_at_children p "EnumType" 0 cs) ->
                             In (fst x) places).
  { intros x Hx. apply Hsub. rewrite find_all_at_eq. apply in_or_app.
    by right. }
  assert (Hch : forall stack' i,
             (forall x, In x (find_all_at_children p "EnumType" i cs) ->
                        In (fst x) places) ->
             dfs_children py_id infos tdefs stack' p i cs
             = dfs_children py_id' infos' tdefs' stack' p i cs).
  { intros stack'. clear Hsub Hbelow.
    induction IH as [|c cs Hc _ IHcs]; intros i Hin; simpl; [done|].
    rewrite Hc, IHcs; [done| |].
    - intros x Hx. apply Hin. simpl. apply in_or_app. by right.
    - intros x Hx. apply Hin. simpl. apply in_or_app. by left. }
  destruct (scope_prefix k); [by apply Hch|].
  rewrite Hch by done. destruct (endswith k "Declaration"); [|done].
  by rewrite (declared_vars_same py_id py_id' places infos tdefs infos' tdefs').
Qed.

Lemma detect_enum_variables_same (py_id py_id' : Identities) tree :
  distinct_enum_nodes py_id tree -> distinct_enum_nodes py_id' tree ->
  same_token_policy py_id py_id' ->
  detect_enum_variables_from_cst py_id tree
  = detect_enum_variables_from_cst py_id' tree.
Proof.
  intros Hnd Hnd' Hpol. unfold detect_enum_variables_from_cst.
  pose proof (build_enum_index_same py_id py_id' tree Hnd Hnd' Hpol)
    as [Hsame Hlen].
  pose proof (build_enum_index_keys_known py_id tree) as Hk.
  pose proof (build_enum_index_keys_known py_id' tree) as Hk'.
  destruct (build_enum_index py_id tree) as [infos tdefs].
  destruct (build_enum_index py_id' tree) as [infos' tdefs']. simpl in *.
  destruct infos as [|e infos], infos' as [|e' infos']; try done.
  rewrite (dfs_same py_id py_id' _ _ _ _ _ Hsame Hk Hk'); [done|].
  intros x Hx. unfold enum_places. by apply in_map.
Qed.

(** X28. The values of the identities Python gives the objects do not
    matter. Take two runs on the same tree; in each the enum nodes,
    which the index holds together, have different identities, and the
    syntax library hands out the identifiers in the same manner in both
    (one object for a place in both, or new objects at every walk in
    both, as for tokens handed out by value). Then the two runs detect
    the same enum variables, select the same candidates and build the
    same graphs. *)
Theorem extraction_independent_of_identities (py_id py_id' : Identities)
        (tree : Node) :
  distinct_enum_nodes py_id tree -> distinct_enum_nodes py_id' tree ->
  same_token_policy py_id py_id' ->
  detect_enum_variables_from_cst py_id tree
  = detect_enum_variables_from_cst py_id' tree
  /\ detect_fsm_enum_candidates_from_cst py_id tree
     = detect_fsm_enum_candidates_from_cst py_id' tree
  /\ build_fsm_graphs_from_cst py_id tree
     = build_fsm_graphs_from_cst py_id' tree.
Proof.
  intros Hnd Hnd' Hpol.
  pose proof (detect_enum_variables_same py_id py_id' tree Hnd Hnd' Hpol)
    as Hd.
  assert (Hc : detect_fsm_enum_candidates_from_cst py_id tree
               = detect_fsm_enum_candidates_from_cst py_id' tree).
  { unfold detect_fsm_enum_candidates_from_cst. by rewrite Hd. }
  split; [done|]. split; [done|].
  unfold build_fsm_graphs_from_cst. by rewrite Hc, Hd.
Qed.

Lemma extraction_identities_witness :
  detect_enum_variables_from_cst other_fresh_id sized_enum_module
  = Return [mkEnumVar "state_t" "W" ["IDLE"; "RUN"] "module m" nopos].
Proof.
  rewrite <- (proj1 (extraction_independent_of_identities
                       fresh_id other_fresh_id sized_enum_module
                       (fresh_id_distinct sized_enum_module)
                       (other_fresh_id_distinct sized_enum_module)
                       (or_intror (conj fresh_id_renewed
                                        other_fresh_id_renewed)))).
  vm_compute. reflexivity.
Defined.

(* ---------------- fsm_graph_builder.py: guards and reset ---------------- *)

Lemma no_paren_has_char s :
  all_chars (fun c => negb (Ascii.eqb c ")") && negb (Ascii.eqb c "010")) s
  = true ->
  has_char ")" s = false.
Proof.
  induction s as [|c s IH]; [reflexivity|]. simpl.
  intros H. apply andb_prop in H as [Hc Hs]. apply andb_prop in Hc as [Hc _].
  rewrite IH by done. by destruct (Ascii.eqb c ")").
Qed.

Lemma guard_at_no_paren text start cond :
  guard_at text start cond -> has_char ")" cond = false.
Proof.
  intros [(im & (Him & _) & ->) | (_ & ->)]; [|reflexivity].
  apply has_char_strip, no_paren_has_char.
  apply finditer_if_at in Him as (before & ws & rest & _ & _ & _ & Hc).
  exact Hc.
Qed.

(** C4. The guard of an edge ends at the first closing parenthesis
    behind its [if (]: no guard of an edge built from the case branches
    holds a [)], so a condition with parentheses of its own is never
    its guard. The branch [ER_MONITOR] of the viewer's example source
    reads [if (wd_expired_i || (ing_error_i && eg_error_i) || cr_error_i)]
    before its first assignment, and the edge built from that
    assignment has the guard [wd_expired_i || (ing_error_i && eg_error_i],
    with the inner parenthesis left open; the generator writes it back
    as [if (wd_expired_i || (ing_error_i && eg_error_i)]. *)
Theorem C4_guard_cut_at_first_parenthesis :
  (forall case_nodes state_var next_state_var enum_members t,
      In t (_build_transitions_from_cases case_nodes state_var
                                          next_state_var enum_members) ->
      has_char ")" (t_cond t) = false)
  /\ collect_identifiers_inline er_monitor_branch
     = "ER_MONITOR: begin if (" +:+ er_first_condition
       +:+ ") begin next_state = ER_GLOBAL_FAULT; end "
       +:+ "else if (ing_error_i || eg_error_i) "
       +:+ "begin next_state = ER_LOCAL_FAULT; end end"
  /\ _build_transitions_from_cases [er_case] "state" (Some "next_state")
                                   er_members
     = [mkTransition "ER_MONITOR" "ER_GLOBAL_FAULT"
                     "wd_expired_i || (ing_error_i && eg_error_i";
        mkTransition "ER_MONITOR" "ER_LOCAL_FAULT"
                     "ing_error_i || eg_error_i"]
  /\ has_char ")" er_first_condition = true
  /\ existsb (String.eqb "        if (wd_expired_i || (ing_error_i && eg_error_i)")
             (always_comb_lines er_graph) = true.
Proof.
  split; [|vm_compute; repeat split].
  intros case_nodes state_var next_state_var enum_members t Ht.
  apply build_transitions_origin in Ht
    as (cn & item & _ & _ & _ & am & _ & _ & _ & Hg).
  by eapply guard_at_no_paren.
Qed.

Lemma contains_front sub post s :
  contains (sub +:+ post) s = true -> contains sub s = true.
Proof.
  intros H. apply (contains_inner sub "" post). exact H.
Qed.

Lemma reset_assigned_prefix a state_var m r :
  reset_assigned a state_var (m +:+ r) = true ->
  reset_assigned a state_var m = true.
Proof.
  unfold reset_assigned. intros H.
  apply andb_prop in H as [H Hpat]. rewrite H. simpl.
  apply orb_prop in Hpat as [Hpat | Hpat]; apply orb_true_intro; [left|right].
  - apply (contains_front _ r). by rewrite !string_app_assoc.
  - apply (contains_front _ r). by rewrite !string_app_assoc.
Qed.

Lemma behind_in_list {A : Type} (before after earlier later : list A)
      (x y : A) :
  before ++ x :: after = earlier ++ y :: later ->
  ~ In y before -> x <> y -> In x earlier.
Proof.
  revert earlier. induction before as [|b before IH]; intros earlier; simpl.
  - destruct earlier as [|e earlier]; simpl.
    + intros [= -> _] _ Hne. by destruct Hne.
    + intros [= -> _] _ _. by left.
  - destruct earlier as [|e earlier]; simpl.
    + intros [= -> _] Hn _. destruct Hn. by left.
    + intros [= -> H] Hn Hne. right. apply IH; [done| |done].
      intros Hy. apply Hn. by right.
Qed.

(** C7. The reset detector tests for the member as a piece of text, not
    as the name assigned: a member that has an earlier member of the
    enum as the beginning of its name is never returned, whatever the
    blocks assign. In a block that resets the register to [S10] only,
    where the search for assignments of the case branches reads [S10],
    the detector returns [S1]; and in a block that writes [next_state]
    only it returns a reset state for [state]. *)
Theorem C7_reset_state_reads_prefix_member :
  (forall always_nodes state_var before m1 after m2,
      ~ In m2 before -> m1 <> m2 -> String.prefix m1 m2 = true ->
      _detect_reset_state always_nodes state_var (before ++ m1 :: after)
      <> Some m2)
  /\ collect_identifiers_inline reset_to_S10
     = "always_ff @(posedge clk) if (rst) state <= S10; "
       +:+ "else state <= next_state;"
  /\ _detect_reset_state [reset_to_S10] "state" ["S0"; "S1"; "S10"]
     = Some "S1"
  /\ _find_assignments_with_conditions
       (collect_identifiers_inline reset_to_S10) "state" ["S0"; "S1"; "S10"]
     = [("S10", "rst")]
  /\ collect_identifiers_inline writes_next_state_only
     = "always_ff @(posedge clk) next_state <= RUN;"
  /\ _detect_reset_state [writes_next_state_only] "state" ["IDLE"; "RUN"]
     = Some "RUN".
Proof.
  split; [|vm_compute; repeat split].
  intros always_nodes state_var before m1 after m2 Hn Hne Hp Hres.
  pose proof (detect_reset_state_first_hit always_nodes state_var
                                           (before ++ m1 :: after)) as Hfirst.
  rewrite Hres in Hfirst.
  destruct Hfirst as (bs & a & rest & earlier & later & _ & Hm & Hhit & Hearly
                      & _).
  apply prefix_app in Hp as [r ->].
  assert (Hin : In m1 earlier) by (by eapply behind_in_list).
  apply reset_assigned_prefix in Hhit.
  rewrite (Hearly m1 Hin) in Hhit. discriminate Hhit.
Qed.
